(** * Maximum flow by the MPM algorithm: a shallow embedding of
    [maximum_flow.py] and the properties of its functions.

    Python integers are unbounded, so node identifiers, capacities and
    flows are [Z].  A Python dictionary is an association list with
    unique keys kept in ascending key order: the code iterates over its
    dictionaries, the order of iteration decides ties, and ascending
    order is the order in which CPython 2 iterates over a dictionary whose
    keys are small non-negative integers.  A missing key raises
    [KeyError]; every loop that the source writes as [while] takes fuel. *)

From Stdlib Require Import ZArith List Bool Lia.
Import ListNotations.
Open Scope Z_scope.

(** ** Results of fallible computations *)

Inductive error : Type :=
| KeyError
| OutOfFuel.

Inductive result (A : Type) : Type :=
| Ok (a : A)
| Raise (e : error).

Arguments Ok {A} a.
Arguments Raise {A} e.

Definition bind {A B : Type} (m : result A) (k : A -> result B) : result B :=
  match m with
  | Ok a => k a
  | Raise e => Raise e
  end.

Notation "x <- m ;; k" := (bind m (fun x => k))
  (at level 61, m at next level, right associativity).
Notation "' p <- m ;; k" := (bind m (fun x => let p := x in k))
  (at level 61, p pattern, m at next level, right associativity).

Definition lookup {A : Type} (o : option A) : result A :=
  match o with
  | Some a => Ok a
  | None => Raise KeyError
  end.

(** ** Dictionaries *)

Module Dict.

Definition t (V : Type) : Type := list (Z * V).

Fixpoint get {V : Type} (k : Z) (d : t V) : option V :=
  match d with
  | [] => None
  | (k', v) :: d' => if k =? k' then Some v else get k d'
  end.

Definition mem {V : Type} (k : Z) (d : t V) : bool :=
  match get k d with
  | Some _ => true
  | None => false
  end.

Fixpoint set {V : Type} (k : Z) (v : V) (d : t V) : t V :=
  match d with
  | [] => [(k, v)]
  | (k', v') :: d' =>
      if k <? k' then (k, v) :: d
      else if k =? k' then (k, v) :: d'
      else (k', v') :: set k v d'
  end.

Fixpoint del {V : Type} (k : Z) (d : t V) : t V :=
  match d with
  | [] => []
  | (k', v) :: d' => if k =? k' then d' else (k', v) :: del k d'
  end.

Definition keys {V : Type} (d : t V) : list Z := map fst d.

Definition map_values {V W : Type} (f : V -> W) (d : t V) : t W :=
  map (fun kv => (fst kv, f (snd kv))) d.

End Dict.

(** [d[u][v]] and [d[u][v] = x] on a dictionary of dictionaries. *)

Definition get2 {V : Type} (u v : Z) (d : Dict.t (Dict.t V)) : option V :=
  match Dict.get u d with
  | Some inner => Dict.get v inner
  | None => None
  end.

Definition set2 {V : Type} (u v : Z) (x : V) (d : Dict.t (Dict.t V))
  : result (Dict.t (Dict.t V)) :=
  inner <- lookup (Dict.get u d) ;;
  Ok (Dict.set u (Dict.set v x inner) d).

(** [if k not in d: d[k] = {}] *)

Definition ensure {V : Type} (k : Z) (d : Dict.t (Dict.t V)) : Dict.t (Dict.t V) :=
  if Dict.mem k d then d else Dict.set k [] d.

Definition inb (x : Z) (s : list Z) : bool := existsb (Z.eqb x) s.

(** ** The data model *)

(** An arc of the network: [{'cap': c, 'flow': f}]. *)
Record arc : Type := mkArc { cap : Z; flow : Z }.

Inductive direction : Type := F | B.

(** An edge of the residual and of the auxiliary network:
    [{'cap': c, 'direction': d}], and the key ['used'] once the edge is
    saturated. *)
Record edge : Type := mkEdge { ecap : Z; edir : direction; used : bool }.

Definition network : Type := Dict.t (Dict.t arc).
Definition graph : Type := Dict.t (Dict.t edge).
Definition table : Type := Dict.t (Z * Z).
Definition delta : Type := Dict.t (Dict.t Z).

Definition maxint : Z := 9223372036854775807.

(** ** [delete_node] *)

(** The loop runs over a copy of the items, so the deletions inside it are
    safe; the node itself goes at the first iteration, and every adjacency
    dictionary loses the key.  An empty network has no iteration. *)
Definition delete_node (node : Z) (g : graph) : graph :=
  match g with
  | [] => []
  | _ => Dict.map_values (Dict.del node) (Dict.del node g)
  end.

(** ** [build_residual_graph] *)

Record rstate : Type := mkR { r_nr : graph; r_que : list Z; r_visited : list Z }.

Definition residual_edge (now : Z) (st : rstate) (ea : Z * arc) : result rstate :=
  let '(e, a) := ea in
  let r := cap a - flow a in
  let nr := ensure e (ensure now (r_nr st)) in
  nr <- (if r >? 0 then set2 now e (mkEdge r F false) nr else Ok nr) ;;
  nr <- (if flow a >? 0 then set2 e now (mkEdge (flow a) B false) nr else Ok nr) ;;
  Ok (mkR nr
          (if inb e (r_visited st) then r_que st else r_que st ++ [e])
          (if inb e (r_visited st) then r_visited st else e :: r_visited st)).

Fixpoint for_each {S X : Type} (f : S -> X -> result S) (xs : list X) (s : S)
  : result S :=
  match xs with
  | [] => Ok s
  | x :: xs' => s' <- f s x ;; for_each f xs' s'
  end.

Fixpoint residual_loop (fuel : nat) (net : network) (st : rstate) : result graph :=
  match r_que st with
  | [] => Ok (r_nr st)
  | now :: que =>
      match fuel with
      | O => Raise OutOfFuel
      | S fuel' =>
          arcs <- lookup (Dict.get now net) ;;
          st' <- for_each (residual_edge now) arcs (mkR (r_nr st) que (r_visited st)) ;;
          residual_loop fuel' net st'
      end
  end.

Definition build_residual_graph (fuel : nat) (source sink : Z) (net : network)
  : result graph :=
  residual_loop fuel net (mkR [] [source] [source]).

(** ** [build_auxiliary] *)

Record astate : Type :=
  mkA { a_na : graph; a_que : list Z; a_vl : Dict.t Z; a_visited : list Z }.

Definition auxiliary_edge (sink now : Z) (st : astate) (ee : Z * edge)
  : result astate :=
  let '(e, ed) := ee in
  if Dict.mem e (a_vl st) && negb (e =? sink) then Ok st
  else
    na <- set2 now e (mkEdge (ecap ed) (edir ed) false) (a_na st) ;;
    lnow <- lookup (Dict.get now (a_vl st)) ;;
    Ok (mkA na
            (if inb e (a_visited st) then a_que st else a_que st ++ [e])
            (Dict.set e (lnow + 1) (a_vl st))
            (if inb e (a_visited st) then a_visited st else e :: a_visited st)).

Fixpoint auxiliary_loop (fuel : nat) (sink : Z) (nr : graph) (st : astate)
  : result astate :=
  match a_que st with
  | [] => Ok st
  | now :: que =>
      match fuel with
      | O => Raise OutOfFuel
      | S fuel' =>
          edges <- lookup (Dict.get now nr) ;;
          st' <- for_each (auxiliary_edge sink now) edges
                   (mkA (Dict.set now [] (a_na st)) que (a_vl st) (a_visited st)) ;;
          auxiliary_loop fuel' sink nr st'
      end
  end.

(** The nodes removed after the traversal: [[k for k in vl if vl[k] >= sink_level]],
    the sink left out. *)
Definition beyond (sink sink_level : Z) (vl : Dict.t Z) : list Z :=
  map fst (filter (fun kl => (snd kl >=? sink_level) && negb (fst kl =? sink)) vl).

Definition truncate (sink : Z) (st : astate) : result (option graph) :=
  if negb (Dict.mem sink (a_na st)) then Ok None
  else
    sink_level <- lookup (Dict.get sink (a_vl st)) ;;
    let complete :=
      existsb (fun kl => (snd kl >=? sink_level) && (fst kl =? sink)) (a_vl st) in
    let na := fold_left (fun na node => delete_node node na)
                        (beyond sink sink_level (a_vl st)) (a_na st) in
    Ok (if complete then Some na else None).

Definition build_auxiliary (fuel : nat) (source sink : Z) (nr : graph)
  : result (option graph) :=
  st <- auxiliary_loop fuel sink nr (mkA [] [source] [(source, 0)] [source]) ;;
  truncate sink st.

Definition build_level_graph (fuel : nat) (source sink : Z) (net : network)
  : result (option graph) :=
  nr <- build_residual_graph fuel source sink net ;;
  build_auxiliary fuel source sink nr.

(** ** [calc_throughput] *)

Definition zsum (l : list Z) : Z := fold_right Z.add 0 l.

(** [sum([v[n]['cap'] for u, v in auxiliary.iteritems() if n in v])] *)
Fixpoint in_edges (n : Z) (aux : graph) : list (Z * Z) :=
  match aux with
  | [] => []
  | (u, d) :: aux' =>
      match Dict.get n d with
      | Some ed => (u, ecap ed) :: in_edges n aux'
      | None => in_edges n aux'
      end
  end.

Definition in_cap (n : Z) (aux : graph) : Z := zsum (map snd (in_edges n aux)).

Definition out_cap (neibors : Dict.t edge) : Z :=
  zsum (map (fun kv => ecap (snd kv)) neibors).

Definition throughput_of (source sink : Z) (aux : graph) (n : Z)
  (neibors : Dict.t edge) : Z * Z :=
  (if n =? source then maxint else in_cap n aux,
   if n =? sink then maxint else out_cap neibors).

Definition calc_throughput (source sink : Z) (aux : graph) : table :=
  fold_left
    (fun thr nd => Dict.set (fst nd) (throughput_of source sink aux (fst nd) (snd nd)) thr)
    aux [].

(** ** [delete_zero_throughput] *)

(** [throughput[n][0] -= v] and [throughput[n][1] -= v] *)
Definition dec_in (thr : table) (nv : Z * Z) : result table :=
  io <- lookup (Dict.get (fst nv) thr) ;;
  Ok (Dict.set (fst nv) (fst io - snd nv, snd io) thr).

Definition dec_out (thr : table) (nv : Z * Z) : result table :=
  io <- lookup (Dict.get (fst nv) thr) ;;
  Ok (Dict.set (fst nv) (fst io, snd io - snd nv) thr).

Record zstate : Type :=
  mkZ { z_go : bool; z_aux : graph; z_thr : table; z_has_zero : bool }.

(** One pass of the [for] loop over [throughput.items()].  The items are a
    copy of the table, but each value is the very list stored in the table,
    so the pass reads the capacities as updated so far.  [z_go = false]
    is the [return False]. *)
Fixpoint zero_pass (source sink : Z) (nodes : list Z) (aux : graph) (thr : table)
  (has_zero : bool) : result zstate :=
  match nodes with
  | [] => Ok (mkZ true aux thr has_zero)
  | node :: rest =>
      io <- lookup (Dict.get node thr) ;;
      if Z.min (fst io) (snd io) =? 0 then
        if (node =? source) || (node =? sink) then Ok (mkZ false aux thr has_zero)
        else
          outs <- lookup (Dict.get node aux) ;;
          thr1 <- for_each dec_in (map (fun kv => (fst kv, ecap (snd kv))) outs) thr ;;
          thr2 <- for_each dec_out (in_edges node aux) thr1 ;;
          zero_pass source sink rest (delete_node node aux) (Dict.del node thr2) true
      else zero_pass source sink rest aux thr has_zero
  end.

Fixpoint delete_zero_throughput (fuel : nat) (source sink : Z) (aux : graph)
  (thr : table) : result (bool * graph * table) :=
  match fuel with
  | O => Raise OutOfFuel
  | S fuel' =>
      z <- zero_pass source sink (Dict.keys thr) aux thr false ;;
      if negb (z_go z) then Ok (false, z_aux z, z_thr z)
      else if z_has_zero z
           then delete_zero_throughput fuel' source sink (z_aux z) (z_thr z)
           else Ok (true, z_aux z, z_thr z)
  end.

(** ** [push] and [pull] *)

Record pstate : Type :=
  mkP { p_aux : graph; p_thr : table; p_req : Dict.t Z; p_q : list Z; p_g : delta }.

(** [if start not in g: g[start] = {}], [if end not in g[start]: g[start][end] = 0],
    [g[start][end] += m] *)
Definition record_flow (start end_ m : Z) (g : delta) : delta :=
  let inner := match Dict.get start g with Some d => d | None => [] end in
  let old := match Dict.get end_ inner with Some x => x | None => 0 end in
  Dict.set start (Dict.set end_ (old + m) inner) g.

(** [req = {u: 0 for u in auxiliary.keys() if u != y}; req[y] = h] *)
Definition init_req (y h : Z) (aux : graph) : Dict.t Z :=
  Dict.set y h
    (fold_left (fun r u => if u =? y then r else Dict.set u 0 r) (Dict.keys aux) []).

Fixpoint push_edges (v : Z) (ns : list Z) (st : pstate) : result pstate :=
  match ns with
  | [] => Ok st
  | n :: ns' =>
      rv <- lookup (Dict.get v (p_req st)) ;;
      if rv =? 0 then Ok st
      else
        ed <- lookup (get2 v n (p_aux st)) ;;
        if used ed then push_edges v ns' st
        else
          let m := Z.min (ecap ed) rv in
          let c := ecap ed - m in
          aux1 <- set2 v n (mkEdge c (edir ed) (if c =? 0 then true else used ed))
                    (p_aux st) ;;
          thr1 <- (if c =? 0 then
                     outs <- lookup (Dict.get v aux1) ;;
                     for_each dec_in (map (fun nn => (nn, m)) (Dict.keys outs)) (p_thr st)
                   else Ok (p_thr st)) ;;
          let req1 := Dict.set v (rv - m) (p_req st) in
          rn <- lookup (Dict.get n req1) ;;
          let req2 := Dict.set n (rn + m) req1 in
          let g1 := match edir ed with
                    | B => record_flow n v (- m) (p_g st)
                    | F => record_flow v n m (p_g st)
                    end in
          push_edges v ns' (mkP aux1 thr1 req2 (p_q st ++ [n]) g1)
  end.

Fixpoint push_loop (fuel : nat) (st : pstate) : result pstate :=
  match p_q st with
  | [] => Ok st
  | v :: q =>
      match fuel with
      | O => Raise OutOfFuel
      | S fuel' =>
          outs <- lookup (Dict.get v (p_aux st)) ;;
          st' <- push_edges v (Dict.keys outs)
                   (mkP (p_aux st) (p_thr st) (p_req st) q (p_g st)) ;;
          push_loop fuel' st'
      end
  end.

Definition push (fuel : nat) (y h : Z) (aux : graph) (thr : table) (g : delta)
  : result pstate :=
  push_loop fuel (mkP aux thr (init_req y h aux) [y] g).

(** The [for u, d in auxiliary.iteritems()] loop of [pull].  On an edge of
    direction ['B'] the source executes [u, v = v, u]: the variable [v],
    which the remaining iterations test and use, then names the other end of
    that edge; so [v] is part of the state of the loop. *)
Fixpoint pull_edges (us : list Z) (v : Z) (st : pstate) : result pstate :=
  match us with
  | [] => Ok st
  | u :: us' =>
      rv <- lookup (Dict.get v (p_req st)) ;;
      if rv =? 0 then Ok st
      else
        d <- lookup (Dict.get u (p_aux st)) ;;
        match Dict.get v d with
        | None => pull_edges us' v st
        | Some ed =>
            if used ed then pull_edges us' v st
            else
              let m := Z.min (ecap ed) rv in
              let c := ecap ed - m in
              aux1 <- set2 u v (mkEdge c (edir ed) (if c =? 0 then true else used ed))
                        (p_aux st) ;;
              thr1 <- (if c =? 0 then
                         t <- dec_in (p_thr st) (v, m) ;;
                         dec_out t (u, - m)
                       else Ok (p_thr st)) ;;
              let req1 := Dict.set v (rv - m) (p_req st) in
              ru <- lookup (Dict.get u req1) ;;
              let req2 := Dict.set u (ru + m) req1 in
              match edir ed with
              | B => pull_edges us' u
                       (mkP aux1 thr1 req2 (p_q st ++ [u]) (record_flow v u (- m) (p_g st)))
              | F => pull_edges us' v
                       (mkP aux1 thr1 req2 (p_q st ++ [u]) (record_flow u v m (p_g st)))
              end
        end
  end.

Fixpoint pull_loop (fuel : nat) (st : pstate) : result pstate :=
  match p_q st with
  | [] => Ok st
  | v :: q =>
      match fuel with
      | O => Raise OutOfFuel
      | S fuel' =>
          st' <- pull_edges (Dict.keys (p_aux st)) v
                   (mkP (p_aux st) (p_thr st) (p_req st) q (p_g st)) ;;
          pull_loop fuel' st'
      end
  end.

Definition pull (fuel : nat) (s y h : Z) (aux : graph) (thr : table) (g : delta)
  : result pstate :=
  pull_loop fuel (mkP aux thr (init_req y h aux) [y] g).

(** ** [construct_blocking_flow] *)

(** [min_thr = (None, sys.maxint)] and the loop that keeps the first node of
    strictly smaller throughput. *)
Definition select_min (thr : table) : option Z * Z :=
  fold_left
    (fun acc uio =>
       let current_thr := Z.min (fst (snd uio)) (snd (snd uio)) in
       if current_thr <? snd acc then (Some (fst uio), current_thr) else acc)
    thr (None, maxint).

(** One iteration of the [while True] loop; [inl] is a [return]. *)
Definition blocking_step (fuel : nat) (source sink : Z) (aux : graph) (g : delta)
  : result (graph * delta + graph * delta) :=
  let throughput := calc_throughput source sink aux in
  '(ret, aux1, thr1) <- delete_zero_throughput fuel source sink aux throughput ;;
  if negb ret then Ok (inl (aux1, g))
  else if negb (Dict.mem source aux1) || negb (Dict.mem sink aux1) then Ok (inl (aux1, g))
  else
    let '(min_node, min_throughput) := select_min thr1 in
    y <- lookup min_node ;;
    st <- push fuel y min_throughput aux1 thr1 g ;;
    st' <- pull fuel source y min_throughput (p_aux st) (p_thr st) (p_g st) ;;
    Ok (inr (p_aux st', p_g st')).

Fixpoint blocking_loop (n fuel : nat) (source sink : Z) (aux : graph) (g : delta)
  : result (graph * delta) :=
  match n with
  | O => Raise OutOfFuel
  | S n' =>
      r <- blocking_step fuel source sink aux g ;;
      match r with
      | inl done => Ok done
      | inr (aux', g') => blocking_loop n' fuel source sink aux' g'
      end
  end.

Definition construct_blocking_flow (fuel : nat) (source sink : Z) (aux : graph)
  (g : delta) : result (graph * delta) :=
  blocking_loop fuel fuel source sink aux g.

(** ** [flow_add] *)

Definition add_flow (u : Z) (net : network) (nv : Z * Z) : result network :=
  a <- lookup (get2 u (fst nv) net) ;;
  set2 u (fst nv) (mkArc (cap a) (flow a + snd nv)) net.

Definition flow_add (net : network) (g : delta) : result network :=
  for_each (fun net ud => for_each (add_flow (fst ud)) (snd ud) net) g net.

(** ** [mpm] *)

(** One iteration of the driver's loop: [None] is the [break]. *)
Definition phase (fuel : nat) (source sink : Z) (net : network)
  : result (option network) :=
  na <- build_level_graph fuel source sink net ;;
  match na with
  | None => Ok None
  | Some [] => Ok None
  | Some aux =>
      '(_, g) <- construct_blocking_flow fuel source sink aux [] ;;
      net' <- flow_add net g ;;
      Ok (Some net')
  end.

(** The driver's loop, with the number of phases it ran. *)
Fixpoint mpm_loop (n fuel : nat) (source sink : Z) (net : network) (phases : nat)
  : result (network * nat) :=
  match n with
  | O => Raise OutOfFuel
  | S n' =>
      r <- phase fuel source sink net ;;
      match r with
      | None => Ok (net, phases)
      | Some net' => mpm_loop n' fuel source sink net' (S phases)
      end
  end.

Definition flow_value (source : Z) (net : network) : result Z :=
  outgoin <- lookup (Dict.get source net) ;;
  Ok (zsum (map (fun kv => flow (snd kv)) outgoin)).

Definition mpm (fuel : nat) (source sink : Z) (net : network) : result (network * Z) :=
  '(net', _) <- mpm_loop fuel fuel source sink net O ;;
  maxflow_value <- flow_value source net' ;;
  Ok (net', maxflow_value).

Definition mpm_phases (fuel : nat) (source sink : Z) (net : network) : result nat :=
  '(_, k) <- mpm_loop fuel fuel source sink net O ;;
  Ok k.

(** [read_network]: one arc per record, every endpoint given an adjacency
    dictionary. *)
Definition add_arc (net : network) (r : Z * Z * Z * Z) : network :=
  let '(u, v, c, f) := r in
  let net := ensure v (ensure u net) in
  match Dict.get u net with
  | Some inner => Dict.set u (Dict.set v (mkArc c f) inner) net
  | None => net
  end.

Definition read_network (records : list (Z * Z * Z * Z)) : network :=
  fold_left add_arc records [].

Definition scenario_a := read_network [(0,1,5,0); (0,2,100,0); (1,4,3,0)].
Definition scenario_b := read_network [(0,1,10,0); (0,2,10,0); (1,3,10,0); (2,3,10,0)].
Definition scenario_c := read_network [(0,1,5,0); (1,2,2,0); (2,3,5,0)].

(** ** Quantities of a network *)

(** The arcs of a network as records [(u, v, arc)]. *)
Definition arcs_of (net : network) : list (Z * Z * arc) :=
  flat_map (fun ud => map (fun va => (fst ud, fst va, snd va)) (snd ud)) net.

(** Total flow on the arcs entering and leaving a node. *)
Definition inflow (n : Z) (net : network) : Z :=
  zsum (map (fun x => flow (snd x))
            (filter (fun x => snd (fst x) =? n) (arcs_of net))).

Definition outflow (n : Z) (net : network) : Z :=
  zsum (map (fun x => flow (snd x))
            (filter (fun x => fst (fst x) =? n) (arcs_of net))).

(** Capacity of the cut whose source side is [side]: the arcs that leave it. *)
Definition cut_capacity (side : list Z) (net : network) : Z :=
  zsum (map (fun x => cap (snd x))
            (filter (fun x => inb (fst (fst x)) side && negb (inb (snd (fst x)) side))
                    (arcs_of net))).

(** [0 <= flow <= cap] on every arc. *)
Definition feasible (net : network) : Prop :=
  forall u v a, get2 u v net = Some a -> 0 <= flow a <= cap a.

(** ** The mirror of [push], from the specification

    The specification describes [pull] as [push] with predecessors in the
    place of successors: the node [v] taken from the queue is served from
    each usable edge [(u, v)] until its requirement is met.  This is that
    loop; it differs from [pull_edges] in that [v] stays the node taken from
    the queue. *)
Fixpoint pull_mirror_edges (us : list Z) (v : Z) (st : pstate) : result pstate :=
  match us with
  | [] => Ok st
  | u :: us' =>
      rv <- lookup (Dict.get v (p_req st)) ;;
      if rv =? 0 then Ok st
      else
        d <- lookup (Dict.get u (p_aux st)) ;;
        match Dict.get v d with
        | None => pull_mirror_edges us' v st
        | Some ed =>
            if used ed then pull_mirror_edges us' v st
            else
              let m := Z.min (ecap ed) rv in
              let c := ecap ed - m in
              aux1 <- set2 u v (mkEdge c (edir ed) (if c =? 0 then true else used ed))
                        (p_aux st) ;;
              thr1 <- (if c =? 0 then
                         t <- dec_in (p_thr st) (v, m) ;;
                         dec_out t (u, - m)
                       else Ok (p_thr st)) ;;
              let req1 := Dict.set v (rv - m) (p_req st) in
              ru <- lookup (Dict.get u req1) ;;
              let req2 := Dict.set u (ru + m) req1 in
              let g1 := match edir ed with
                        | B => record_flow v u (- m) (p_g st)
                        | F => record_flow u v m (p_g st)
                        end in
              pull_mirror_edges us' v (mkP aux1 thr1 req2 (p_q st ++ [u]) g1)
        end
  end.

Fixpoint pull_mirror_loop (fuel : nat) (st : pstate) : result pstate :=
  match p_q st with
  | [] => Ok st
  | v :: q =>
      match fuel with
      | O => Raise OutOfFuel
      | S fuel' =>
          st' <- pull_mirror_edges (Dict.keys (p_aux st)) v
                   (mkP (p_aux st) (p_thr st) (p_req st) q (p_g st)) ;;
          pull_mirror_loop fuel' st'
      end
  end.

Definition pull_mirror (fuel : nat) (s y h : Z) (aux : graph) (thr : table) (g : delta)
  : result pstate :=
  pull_mirror_loop fuel (mkP aux thr (init_req y h aux) [y] g).

(** ** Example networks *)

(** Two arcs enter node 2: the first, from node 0, of direction ['B']. *)
Definition two_into_sink : graph :=
  [(0, [(2, mkEdge 1 B false)]); (1, [(2, mkEdge 1 F false)]); (2, [])].

(** A cycle through the sink: [3 -> 1 -> 3]. *)
Definition sink_on_cycle : network := read_network [(0,3,10,0); (3,1,1,0); (1,3,5,0)].

(** Source 1, sink 2; the sink has an arc back to node 0. *)
Definition sink_with_exit : network :=
  read_network [(0,2,1,0); (1,2,1,0); (1,3,2,0); (2,0,2,0); (3,0,2,0)].

(** The source has no outgoing arc. *)
Definition source_without_arcs : network := read_network [(1,0,5,0)].

(** Node 1 reaches the sink 3 directly and through node 2. *)
Definition short_and_long : graph :=
  [(0, [(1, mkEdge 1 F false)]);
   (1, [(2, mkEdge 1 F false); (3, mkEdge 1 F false)]);
   (2, [(3, mkEdge 1 F false)]);
   (3, [])].

(** The layered network of the first phase on [scenario_c], and the delta
    map of its blocking flow. *)
Definition chain_aux : graph :=
  [(0, [(1, mkEdge 5 F false)]); (1, [(2, mkEdge 2 F false)]);
   (2, [(3, mkEdge 5 F false)]); (3, [])].

Definition chain_delta : delta := [(0, [(1, 2)]); (1, [(2, 2)]); (2, [(3, 2)])].

(** [chain_aux] after the first iteration of the blocking-flow loop. *)
Definition chain_aux_pushed : graph :=
  [(0, [(1, mkEdge 3 F false)]); (1, [(2, mkEdge 0 F true)]);
   (2, [(3, mkEdge 3 F false)]); (3, [])].

(** A capacity above [maxint] on an arc that leaves the sink 4; the source
    is 3. *)
Definition big_exit : network :=
  read_network [(3,2,1,0); (3,4,1,0); (2,0,2,0); (2,1,2,0); (0,4,2,0); (1,4,2,0);
                (4,5,9223372036854775808,0)].

(** What the driver returns on [scenario_c]. *)
Definition chain_final : network :=
  [(0, [(1, mkArc 5 2)]); (1, [(2, mkArc 2 2)]); (2, [(3, mkArc 5 2)]); (3, [])].

(** ** Predicates on dictionaries *)

(** Keys in strictly ascending order: the shape of every dictionary that is
    built from the empty one by [Dict.set]. *)
Fixpoint sorted {V : Type} (d : Dict.t V) : Prop :=
  match d with
  | [] => True
  | (k, _) :: d' => (forall k', In k' (Dict.keys d') -> k < k') /\ sorted d'
  end.

Definition sorted2 {V : Type} (d : Dict.t (Dict.t V)) : Prop :=
  sorted d /\ forall u inner, In (u, inner) d -> sorted inner.

(** Every entry [d[u][v] = x] satisfies [P u v x]. *)
Definition all2 {V : Type} (P : Z -> Z -> V -> Prop) (d : Dict.t (Dict.t V)) : Prop :=
  forall u inner v x, In (u, inner) d -> In (v, x) inner -> P u v x.

(** [(u, v)] is an arc of the network. *)
Definition is_arc (net : network) (u v : Z) : Prop :=
  exists a, get2 u v net = Some a.

(** An edge of direction ['F'] lies on an arc, an edge of direction ['B'] on
    the reverse of an arc. *)
Definition oriented (net : network) (u v : Z) (ed : edge) : Prop :=
  match edir ed with
  | F => is_arc net u v
  | B => is_arc net v u
  end.

(** [g[u][v]], and 0 where the delta map has no entry. *)
Definition delta_at (u v : Z) (g : delta) : Z :=
  match get2 u v g with
  | Some x => x
  | None => 0
  end.

(** ** Invariants used in the proofs *)

(** The key pair of an entry of the delta map is an arc. *)
Definition on_arc (net : network) (u v : Z) (x : Z) : Prop := is_arc net u v.

(** The state of [push] and [pull]: edges lie on arcs, the delta map has
    arcs for keys and is built by [Dict.set]. *)
Definition recording (net : network) (st : pstate) : Prop :=
  all2 (oriented net) (p_aux st) /\ all2 (on_arc net) (p_g st) /\ sorted2 (p_g st).

(** What [flow_add] makes of an arc: the capacity stays, the delta is added
    to the flow. *)
Definition bump (x : Z) (a : arc) : arc := mkArc (cap a) (flow a + x).

Definition entry_at {V : Type} (default : V) (k : Z) (d : Dict.t V) : V :=
  match Dict.get k d with
  | Some x => x
  | None => default
  end.

(** What [push] and [pull] leave apart from the table. *)
Definition forget (st : pstate) : graph * Dict.t Z * list Z * delta :=
  (p_aux st, p_req st, p_q st, p_g st).

(** The invariant of the traversal in [build_auxiliary]: the nodes of the
    queue and of the network built so far have a layer, and an edge between
    two nodes other than the sink goes up one layer. *)
Definition layered (sink : Z) (st : astate) : Prop :=
  sorted2 (a_na st) /\
  (forall x, In x (a_que st) -> Dict.mem x (a_vl st) = true) /\
  (forall u inner, Dict.get u (a_na st) = Some inner -> Dict.mem u (a_vl st) = true) /\
  (forall u v ed, get2 u v (a_na st) = Some ed ->
     Dict.mem u (a_vl st) = true /\ Dict.mem v (a_vl st) = true /\
     (u <> sink -> v <> sink ->
      exists lu, Dict.get u (a_vl st) = Some lu /\ Dict.get v (a_vl st) = Some (lu + 1))).

(** Capacity of the edge [(u, v)] of an auxiliary network, 0 without edge. *)
Definition weight (aux : graph) (u v : Z) : Z :=
  match get2 u v aux with
  | Some ed => ecap ed
  | None => 0
  end.

(** Summed capacity of the edges that leave [n]. *)
Definition out_cap_at (n : Z) (aux : graph) : Z :=
  match Dict.get n aux with
  | Some neibors => out_cap neibors
  | None => 0
  end.

(** Sum of the amounts listed for [n]. *)
Definition listed (n : Z) (l : list (Z * Z)) : Z :=
  zsum (map snd (filter (fun p => fst p =? n) l)).



(** Capacities are not negative. *)
Definition nonneg_edge (u v : Z) (ed : edge) : Prop := 0 <= ecap ed.

(** The table is at least what the auxiliary network gives: pruning keeps
    this, and it makes every throughput non-negative. *)
Definition covers (aux : graph) (thr : table) : Prop :=
  sorted thr /\
  forall n io,
    Dict.get n thr = Some io -> in_cap n aux <= fst io /\ out_cap_at n aux <= snd io.

(** What an arc [(u, v)] can still take in this phase over the edge [(u, v)]
    of direction ['F'], and what it can still give back over the edge
    [(v, u)] of direction ['B']. *)
Definition up (aux : graph) (u v : Z) : Z :=
  match get2 u v aux with
  | Some ed => match edir ed with F => ecap ed | B => 0 end
  | None => 0
  end.

Definition down (aux : graph) (u v : Z) : Z :=
  match get2 v u aux with
  | Some ed => match edir ed with B => ecap ed | F => 0 end
  | None => 0
  end.

(** The flow of every arc, with the delta recorded so far and with whatever
    the auxiliary network still allows, stays between 0 and the capacity. *)
Definition within (net : network) (aux : graph) (g : delta) : Prop :=
  forall u v a,
    get2 u v net = Some a ->
    flow a + delta_at u v g + up aux u v <= cap a /\
    0 <= flow a + delta_at u v g - down aux u v.

(** Requirements are not negative. *)
Definition nonneg_req (req : Dict.t Z) : Prop :=
  forall k r, In (k, r) req -> 0 <= r.

(** The state of [push] and [pull] in a phase on a network within its
    capacities. *)
Definition bounded_state (net : network) (st : pstate) : Prop :=
  within net (p_aux st) (p_g st) /\
  all2 nonneg_edge (p_aux st) /\
  sorted2 (p_aux st) /\
  nonneg_req (p_req st).



(** ** Capacities around a node *)

(** Capacity of the arc [(u, v)], 0 where the network has no such arc. *)
Definition capacity (u v : Z) (net : network) : Z :=
  match get2 u v net with
  | Some a => cap a
  | None => 0
  end.

(** Summed capacity of the arcs that leave [n], and of those that enter it. *)
Definition cap_out (n : Z) (net : network) : Z :=
  match Dict.get n net with
  | Some d => zsum (map (fun kv => cap (snd kv)) d)
  | None => 0
  end.

Definition cap_in (n : Z) (net : network) : Z :=
  zsum (map (fun ud => match Dict.get n (snd ud) with Some a => cap a | None => 0 end) net).

(** The capacities around [n] stay below the value that [calc_throughput]
    uses for an unbounded capacity. *)
Definition below_maxint (n : Z) (net : network) : Prop :=
  cap_in n net + cap_out n net <= maxint.

(** What a phase keeps between the iterations of the blocking-flow loop. *)
Definition phase_inv (net : network) (aux : graph) (g : delta) : Prop :=
  sorted2 aux /\ sorted2 g /\
  all2 (oriented net) aux /\ all2 (on_arc net) g /\
  all2 nonneg_edge aux /\ within net aux g.

(** An edge of the residual graph carries what its arc can still take
    (direction ['F']) or what it can give back (direction ['B']). *)
Definition resid (net : network) (u v : Z) (ed : edge) : Prop :=
  match edir ed with
  | F => exists a, get2 u v net = Some a /\ ecap ed = cap a - flow a
  | B => exists a, get2 v u net = Some a /\ ecap ed = flow a
  end.

(** The capacities of a network, the flows left out. *)
Definition caps (net : network) : Dict.t (Dict.t Z) :=
  Dict.map_values (Dict.map_values cap) net.

(** What the driver keeps from phase to phase. *)
Definition well_formed (source sink : Z) (net : network) : Prop :=
  sorted2 net /\ feasible net /\ below_maxint source net /\ below_maxint sink net.

(** Decidable forms of [sorted], [sorted2] and [feasible]. *)
Fixpoint sortedb {V : Type} (d : Dict.t V) : bool :=
  match d with
  | [] => true
  | (k, _) :: d' => forallb (fun k' => k <? k') (Dict.keys d') && sortedb d'
  end.

Definition sorted2b {V : Type} (d : Dict.t (Dict.t V)) : bool :=
  sortedb d && forallb (fun ud => sortedb (snd ud)) d.

Definition feasibleb (net : network) : bool :=
  forallb
    (fun ud => forallb (fun va => (0 <=? flow (snd va)) && (flow (snd va) <=? cap (snd va)))
                       (snd ud))
    net.



(** One arc, of capacity [maxint], from the source 0 to the sink 1. *)
Definition one_wide_arc : graph := [(0, [(1, mkEdge maxint F false)]); (1, [])].



(** [chain_aux] at the end of the phase: source and sink, no edge. *)
Definition chain_aux_done : graph := [(0, []); (3, [])].

(** What [push] and [pull] may do to an edge: the direction stays, an edge
    already used is left as it is, and an edge becomes used only with
    capacity 0. *)
Definition edge_kept (ed ed' : edge) : Prop :=
  edir ed' = edir ed /\
  (used ed = true -> ed' = ed) /\
  (used ed = false -> used ed' = true -> ecap ed' = 0).

(** The same nodes and the same edges, each edge kept in that sense. *)
Definition edges_kept (aux aux' : graph) : Prop :=
  (forall u, Dict.mem u aux' = Dict.mem u aux) /\
  forall u v,
    match get2 u v aux, get2 u v aux' with
    | Some ed, Some ed' => edge_kept ed ed'
    | None, None => True
    | _, _ => False
    end.

(** The requirements of all nodes together. *)
Definition total_req (req : Dict.t Z) : Z := zsum (map snd req).


(** An edge as the residual graph has it: positive capacity, not yet used. *)
Definition open_edge (u v : Z) (ed : edge) : Prop := 0 < ecap ed /\ used ed = false.

(** The arc that the last record for [(u, v)] describes. *)
Fixpoint last_record (u v : Z) (records : list (Z * Z * Z * Z)) : option arc :=
  match records with
  | [] => None
  | (u', v', c, f) :: rest =>
      match last_record u v rest with
      | Some a => Some a
      | None => if (u' =? u) && (v' =? v) then Some (mkArc c f) else None
      end
  end.

(** An arc without flow. *)
Definition no_flow (u v : Z) (a : arc) : Prop := flow a = 0.

(** [k] is an end of the arc that the record describes. *)
Definition endpoint (k : Z) (r : Z * Z * Z * Z) : bool :=
  let '(u, v, _, _) := r in (k =? u) || (k =? v).


(** An edge of direction ['F']. *)
Definition forward (u v : Z) (ed : edge) : Prop := edir ed = F.

(** The head of an arc is a node of the network. *)
Definition head_is_node (net : network) (u v : Z) (a : arc) : Prop :=
  Dict.mem v net = true.

(** The state of the traversal in [build_residual_graph]: a node is visited
    once, the queue holds visited nodes, visited nodes are nodes of the
    network. *)
Definition visiting (net : network) (st : rstate) : Prop :=
  NoDup (r_visited st) /\
  (forall x, In x (r_que st) -> In x (r_visited st)) /\
  (forall x, In x (r_visited st) -> Dict.mem x net = true).


(** The head of an edge is a key of the graph. *)
Definition head_is_key (nr : graph) (u v : Z) (ed : edge) : Prop :=
  Dict.mem v nr = true.

(** The residual graph while it is built: heads are keys, keys are nodes of
    the network. *)
Definition residual_closed (net : network) (nr : graph) : Prop :=
  sorted2 nr /\ all2 (head_is_key nr) nr /\
  forall k, Dict.mem k nr = true -> Dict.mem k net = true.

(** The state of the traversal in [build_auxiliary] over the graph [nr]. *)
Definition climbing (nr : graph) (st : astate) : Prop :=
  NoDup (a_visited st) /\
  (forall x, In x (a_que st) -> In x (a_visited st)) /\
  (forall x, In x (a_visited st) -> Dict.mem x nr = true) /\
  (forall x, In x (a_que st) -> Dict.mem x (a_vl st) = true) /\
  (forall k, Dict.mem k (a_na st) = true -> Dict.mem k (a_vl st) = true).


(** The levels during the traversal in [build_auxiliary]: the source has
    level 0 and every other node with a level has a level of at least 1. *)
Definition levelled (source : Z) (vl : Dict.t Z) : Prop :=
  Dict.mem source vl = true /\
  forall k l, In (k, l) vl -> (k = source -> l = 0) /\ (k <> source -> 1 <= l).

(** ** Inputs inside the contract of the driver *)

(** A network without self-loop and without two opposite arcs, with
    capacities that are not negative and no flow yet. *)
Definition plain (net : network) : bool :=
  forallb
    (fun x =>
       let '(u, v, a) := x in
       negb (u =? v) && (0 <=? cap a) && (flow a =? 0) &&
       match get2 v u net with
       | None => true
       | Some _ => false
       end)
    (arcs_of net).

(** No arc enters the source and no arc leaves the sink. *)
Definition ends_apart (source sink : Z) (net : network) : bool :=
  forallb
    (fun x => let '(u, v, _) := x in negb (v =? source) && negb (u =? sink))
    (arcs_of net).

(** Source 0, three nodes 1, 2, 3 behind it, each with an arc of capacity 1
    to each of the nodes 4, 5, 6, which all lead to node 7 before the sink 8. *)
Definition k3 : network :=
  read_network
    [(0,1,3,0); (0,2,3,0); (0,3,3,0);
     (1,4,1,0); (1,5,1,0); (1,6,1,0);
     (2,4,1,0); (2,5,1,0); (2,6,1,0);
     (3,4,1,0); (3,5,1,0); (3,6,1,0);
     (4,7,3,0); (5,7,3,0); (6,7,3,0);
     (7,8,9,0)].

(** Source 0, sink 1, and a ring 1 -> 2 -> 3 -> 1 behind the sink. *)
Definition ring : network := read_network [(0,1,1,0); (1,2,1,0); (2,3,1,0); (3,1,1,0)].

(** The residual graph of [ring], which is also what [build_auxiliary]
    returns for it. *)
Definition ring_residual : graph :=
  [(0, [(1, mkEdge 1 F false)]); (1, [(2, mkEdge 1 F false)]);
   (2, [(3, mkEdge 1 F false)]); (3, [(1, mkEdge 1 F false)])].

(** A walk of [n] edges in a graph, and the layer of a node in the
    breadth-first layering from [source]: the length of a shortest walk. *)
Inductive walk (g : graph) : Z -> Z -> nat -> Prop :=
| walk_here : forall u, walk g u u 0
| walk_step : forall u v w n ed,
    walk g u v n -> get2 v w g = Some ed -> walk g u w (S n).

Definition layer_of (g : graph) (source v : Z) (k : nat) : Prop :=
  walk g source v k /\ forall m, walk g source v m -> (k <= m)%nat.

(** Source 0, sink 2. *)
Definition n6 : network :=
  read_network
    [(0,4,2,0); (0,5,3,0); (1,2,3,0); (3,2,3,0); (4,5,1,0); (5,1,3,0); (5,2,1,0);
     (5,3,2,0)].

(** [n6] after the first phase of the driver, and the layered network of
    the second phase. *)
Definition n6_after_phase : network :=
  [(0, [(4, mkArc 2 0); (5, mkArc 3 3)]);
   (1, [(2, mkArc 3 1)]);
   (2, []);
   (3, [(2, mkArc 3 2)]);
   (4, [(5, mkArc 1 0)]);
   (5, [(1, mkArc 3 1); (2, mkArc 1 0); (3, mkArc 2 2)])].

Definition n6_aux : graph :=
  [(0, [(4, mkEdge 2 F false)]);
   (1, [(2, mkEdge 2 F false)]);
   (2, [(3, mkEdge 2 B false)]);
   (3, [(2, mkEdge 1 F false)]);
   (4, [(5, mkEdge 1 F false)]);
   (5, [(1, mkEdge 2 F false); (2, mkEdge 1 F false)])].

(** The state in which [push (3, 1)] leaves the second phase on [n6], and the
    states after [pull] and after the mirror of [push] from there. *)
Definition n6_pushed : pstate :=
  mkP [(0, [(4, mkEdge 2 F false)]);
       (1, [(2, mkEdge 2 F false)]);
       (2, [(3, mkEdge 1 B false)]);
       (3, [(2, mkEdge 0 F true)]);
       (4, [(5, mkEdge 1 F false)]);
       (5, [(1, mkEdge 2 F false); (2, mkEdge 1 F false)])]
      [(0, (maxint, 2)); (1, (2, 2)); (2, (3, maxint)); (3, (2, 1)); (4, (2, 1));
       (5, (1, 3))]
      [(0, 0); (1, 0); (2, 0); (3, 1); (4, 0); (5, 0)]
      []
      [(3, [(2, 0)])].

Definition n6_pulled : pstate :=
  mkP [(0, [(4, mkEdge 1 F false)]);
       (1, [(2, mkEdge 2 F false)]);
       (2, [(3, mkEdge 0 B true)]);
       (3, [(2, mkEdge 0 F true)]);
       (4, [(5, mkEdge 0 F true)]);
       (5, [(1, mkEdge 2 F false); (2, mkEdge 0 F true)])]
      [(0, (maxint, 2)); (1, (2, 2)); (2, (2, maxint + 1)); (3, (1, 1)); (4, (2, 2));
       (5, (0, 4))]
      [(0, 1); (1, 0); (2, 0); (3, 0); (4, 0); (5, 0)]
      []
      [(0, [(4, 1)]); (3, [(2, -1)]); (4, [(5, 1)]); (5, [(2, 1)])].

Definition n6_mirrored : pstate :=
  mkP [(0, [(4, mkEdge 1 F false)]);
       (1, [(2, mkEdge 1 F false)]);
       (2, [(3, mkEdge 0 B true)]);
       (3, [(2, mkEdge 0 F true)]);
       (4, [(5, mkEdge 0 F true)]);
       (5, [(1, mkEdge 1 F false); (2, mkEdge 1 F false)])]
      [(0, (maxint, 2)); (1, (2, 2)); (2, (3, maxint + 1)); (3, (1, 1)); (4, (2, 2));
       (5, (0, 3))]
      [(0, 1); (1, 0); (2, 0); (3, 0); (4, 0); (5, 0)]
      []
      [(0, [(4, 1)]); (1, [(2, 1)]); (3, [(2, -1)]); (4, [(5, 1)]); (5, [(1, 1)])].

(** * Properties *)

(** ** Facts about dictionaries *)

Section DictFacts.

Context {V : Type}.
Implicit Types (d : Dict.t V) (k j : Z) (v : V).

Lemma get_set_eq k v d : Dict.get k (Dict.set k v d) = Some v.
Proof.
  induction d as [|[k' v'] d IH]; simpl.
  - now rewrite Z.eqb_refl.
  - destruct (k <? k') eqn:Hlt; simpl.
    + now rewrite Z.eqb_refl.
    + destruct (k =? k') eqn:He; simpl.
      * now rewrite Z.eqb_refl.
      * now rewrite He.
Qed.

Lemma get_set_neq k j v d : j <> k -> Dict.get j (Dict.set k v d) = Dict.get j d.
Proof.
  intros Hn. apply Z.eqb_neq in Hn.
  induction d as [|[k' v'] d IH]; simpl.
  - now rewrite Hn.
  - destruct (k <? k') eqn:Hlt; simpl.
    + now rewrite Hn.
    + destruct (k =? k') eqn:He; simpl.
      * apply Z.eqb_eq in He; subst k'. now rewrite Hn.
      * now rewrite IH.
Qed.

Lemma get_in k v d : Dict.get k d = Some v -> In (k, v) d.
Proof.
  induction d as [|[k' v'] d IH]; simpl; [discriminate|].
  destruct (k =? k') eqn:He; intros H.
  - apply Z.eqb_eq in He; subst. inversion H; subst. now left.
  - right. now apply IH.
Qed.

Lemma in_get k v d : In (k, v) d -> exists v', Dict.get k d = Some v'.
Proof.
  induction d as [|[k' v'] d IH]; simpl; [tauto|].
  intros [H|H]; destruct (k =? k') eqn:He; eauto.
  inversion H; subst. now rewrite Z.eqb_refl in He.
Qed.

Lemma in_set k v d (x : Z * V) : In x (Dict.set k v d) -> x = (k, v) \/ In x d.
Proof.
  induction d as [|[k' v'] d IH]; simpl.
  - intros [H|[]]; auto.
  - destruct (k <? k'); [simpl; intros [H|H]; auto|].
    destruct (k =? k'); simpl; intros [H|H]; auto.
    destruct (IH H); auto.
Qed.

Lemma in_del k d (x : Z * V) : In x (Dict.del k d) -> In x d.
Proof.
  induction d as [|[k' v'] d IH]; simpl; [tauto|].
  destruct (k =? k'); simpl; [tauto|]. intros [H|H]; [tauto|]. right; auto.
Qed.

Lemma in_keys_set k j v d :
  In j (Dict.keys (Dict.set k v d)) -> j = k \/ In j (Dict.keys d).
Proof.
  unfold Dict.keys. rewrite !in_map_iff. intros [[j' v'] [Hj Hin]]. simpl in Hj; subst j'.
  destruct (in_set _ _ _ _ Hin) as [H|H].
  - inversion H; now left.
  - right. exists (j, v'); auto.
Qed.

Lemma sorted_set k v d : sorted d -> sorted (Dict.set k v d).
Proof.
  induction d as [|[k' v'] d IH]; simpl.
  - intros _. split; [intros ? []|exact I].
  - intros [Hlt Hs]. destruct (k <? k') eqn:Hk.
    + apply Z.ltb_lt in Hk. simpl. split; [|split; auto].
      intros j [Hj|Hj]; [lia|]. specialize (Hlt _ Hj). lia.
    + destruct (k =? k') eqn:He.
      * apply Z.eqb_eq in He; subst k'. simpl. split; auto.
      * apply Z.ltb_ge in Hk. apply Z.eqb_neq in He. simpl. split; auto.
        intros j Hj. destruct (in_keys_set _ _ _ _ Hj) as [->|Hj']; [lia|auto].
Qed.

Lemma sorted_get_none k v d :
  sorted ((k, v) :: d) -> Dict.get k d = None.
Proof.
  simpl. intros [Hlt _]. destruct (Dict.get k d) eqn:Hg; [|reflexivity].
  apply get_in in Hg. assert (In k (Dict.keys d)) as Hk.
  { unfold Dict.keys. apply in_map_iff. exists (k, v0); auto. }
  specialize (Hlt _ Hk). lia.
Qed.

End DictFacts.

Section Dict2Facts.

Context {V : Type}.
Implicit Types (d : Dict.t (Dict.t V)) (u v : Z) (x : V).

Lemma get2_set2 u v x d d' u' v' :
  set2 u v x d = Ok d' ->
  get2 u' v' d' = if (u' =? u) && (v' =? v) then Some x else get2 u' v' d.
Proof.
  unfold set2, get2. destruct (Dict.get u d) as [inner|] eqn:Hg; simpl; [|discriminate].
  intros H; inversion H; subst d'; clear H.
  destruct (u' =? u) eqn:Hu; simpl.
  - apply Z.eqb_eq in Hu; subst u'. rewrite get_set_eq, Hg.
    destruct (v' =? v) eqn:Hv.
    + apply Z.eqb_eq in Hv; subst v'. apply get_set_eq.
    + apply Z.eqb_neq in Hv. now apply get_set_neq.
  - apply Z.eqb_neq in Hu. now rewrite get_set_neq.
Qed.

Lemma get2_in u v x d :
  get2 u v d = Some x -> exists inner, In (u, inner) d /\ In (v, x) inner.
Proof.
  unfold get2. destruct (Dict.get u d) as [inner|] eqn:Hg; [|discriminate].
  intros H. exists inner. split; now apply get_in.
Qed.

Lemma all2_nil (P : Z -> Z -> V -> Prop) : all2 P [].
Proof. intros u inner v x []. Qed.

Lemma all2_get2 (P : Z -> Z -> V -> Prop) d u v x :
  all2 P d -> get2 u v d = Some x -> P u v x.
Proof.
  intros HP Hg. destruct (get2_in _ _ _ _ Hg) as [inner [H1 H2]]. eapply HP; eauto.
Qed.

Lemma all2_set (P : Z -> Z -> V -> Prop) d u inner :
  all2 P d -> (forall v x, In (v, x) inner -> P u v x) ->
  all2 P (Dict.set u inner d).
Proof.
  intros HP Hi u' inner' v x Hin Hin'.
  destruct (in_set _ _ _ _ Hin) as [H|H].
  - inversion H; subst. auto.
  - eapply HP; eauto.
Qed.

Lemma all2_set2 (P : Z -> Z -> V -> Prop) d d' u v x :
  all2 P d -> P u v x -> set2 u v x d = Ok d' -> all2 P d'.
Proof.
  unfold set2. destruct (Dict.get u d) as [inner|] eqn:Hg; simpl; [|discriminate].
  intros HP Hx H; inversion H; subst d'; clear H.
  apply all2_set; auto. intros v' x' Hin.
  destruct (in_set _ _ _ _ Hin) as [H|H].
  - inversion H; subst; auto.
  - eapply HP; eauto. now apply get_in.
Qed.

Lemma all2_ensure (P : Z -> Z -> V -> Prop) d k :
  all2 P d -> all2 P (ensure k d).
Proof.
  intros HP. unfold ensure. destruct (Dict.mem k d); auto.
  apply all2_set; auto. intros ? ? [].
Qed.

Lemma sorted2_nil : sorted2 ([] : Dict.t (Dict.t V)).
Proof. split; [exact I|intros ? ? []]. Qed.

Lemma sorted2_set d u inner : sorted2 d -> sorted inner -> sorted2 (Dict.set u inner d).
Proof.
  intros [Hs Hi] Hin. split; [now apply sorted_set|].
  intros u' inner' H. destruct (in_set _ _ _ _ H) as [E|E].
  - inversion E; subst; auto.
  - eauto.
Qed.

End Dict2Facts.

(** ** Loops and the error monad *)

Lemma bind_ok {A C : Type} (m : result A) (k : A -> result C) (c : C) :
  bind m k = Ok c -> exists a, m = Ok a /\ k a = Ok c.
Proof.
  destruct m as [a|e]; simpl; [eauto|discriminate].
Qed.

Lemma lookup_ok {A : Type} (o : option A) (a : A) : lookup o = Ok a -> o = Some a.
Proof.
  destruct o; simpl; congruence.
Qed.

Ltac inv_bind H :=
  let x := fresh "x" in
  let H1 := fresh "Hb" in
  apply bind_ok in H; destruct H as [x [H1 H]].

Ltac inv_ok H := inversion H; subst; clear H.

Lemma for_each_inv {S X : Type} (I : S -> Prop) (f : S -> X -> result S) (xs : list X) :
  (forall s x s', In x xs -> I s -> f s x = Ok s' -> I s') ->
  forall s s', I s -> for_each f xs s = Ok s' -> I s'.
Proof.
  induction xs as [|x xs IH]; simpl; intros Hstep s s' Hs Hrun.
  - inv_ok Hrun. exact Hs.
  - inv_bind Hrun. eapply IH; [| |exact Hrun]; eauto.
Qed.

(** ** Edges of the residual and auxiliary networks lie on arcs *)

Section Orientation.

Variable net : network.

Lemma residual_edge_oriented now arcs e a st st' :
  Dict.get now net = Some arcs -> In (e, a) arcs ->
  all2 (oriented net) (r_nr st) ->
  residual_edge now st (e, a) = Ok st' ->
  all2 (oriented net) (r_nr st').
Proof.
  intros Hnow Hin Hall Hrun.
  assert (is_arc net now e) as Harc.
  { destruct (in_get _ _ _ Hin) as [a' Ha']. exists a'. unfold get2. now rewrite Hnow. }
  unfold residual_edge in Hrun.
  inv_bind Hrun. inv_bind Hrun. inv_ok Hrun. simpl.
  assert (all2 (oriented net) x) as Hx.
  { destruct (cap a - flow a >? 0).
    - eapply all2_set2; [| |exact Hb]; [now do 2 apply all2_ensure|exact Harc].
    - inv_ok Hb. now do 2 apply all2_ensure. }
  destruct (flow a >? 0).
  - eapply all2_set2; [exact Hx| |exact Hb0]. exact Harc.
  - now inv_ok Hb0.
Qed.

Lemma residual_loop_oriented fuel st nr :
  all2 (oriented net) (r_nr st) ->
  residual_loop fuel net st = Ok nr ->
  all2 (oriented net) nr.
Proof.
  revert st. induction fuel as [|fuel IH]; intros st Hall Hrun; simpl in Hrun.
  - destruct (r_que st); [now inv_ok Hrun|discriminate].
  - destruct (r_que st) as [|now que]; [now inv_ok Hrun|].
    inv_bind Hrun. apply lookup_ok in Hb. inv_bind Hrun.
    apply (IH x0); [|exact Hrun].
    revert Hb0. apply (for_each_inv (fun s => all2 (oriented net) (r_nr s))); [|exact Hall].
    intros s [e a] s' Hin Hs Hstep. eapply residual_edge_oriented; eauto.
Qed.

Lemma build_residual_graph_oriented fuel source sink nr :
  build_residual_graph fuel source sink net = Ok nr -> all2 (oriented net) nr.
Proof.
  apply residual_loop_oriented. apply all2_nil.
Qed.

End Orientation.

Lemma in_delete_node (node u : Z) (inner : Dict.t edge) (g : graph) :
  In (u, inner) (delete_node node g) ->
  exists inner0, In (u, inner0) g /\ inner = Dict.del node inner0.
Proof.
  unfold delete_node. destruct g as [|p g']; [intros []|].
  unfold Dict.map_values. rewrite in_map_iff. intros [[u' inner0] [E Hin]].
  simpl in E. inv_ok E. exists inner0. split; [|reflexivity].
  eapply in_del; eauto.
Qed.

Lemma all2_delete_node (P : Z -> Z -> edge -> Prop) (node : Z) (g : graph) :
  all2 P g -> all2 P (delete_node node g).
Proof.
  intros HP u inner v x Hin Hin'.
  destruct (in_delete_node _ _ _ _ Hin) as [inner0 [H0 ->]].
  eapply HP; eauto. eapply in_del; eauto.
Qed.

Lemma all2_delete_nodes (P : Z -> Z -> edge -> Prop) (nodes : list Z) (g : graph) :
  all2 P g -> all2 P (fold_left (fun na node => delete_node node na) nodes g).
Proof.
  revert g. induction nodes as [|n nodes IH]; simpl; intros g Hg; auto.
  apply IH. now apply all2_delete_node.
Qed.

Section AuxiliaryOrientation.

Variable net : network.
Variable nr : graph.
Hypothesis nr_oriented : all2 (oriented net) nr.

Lemma auxiliary_edge_oriented sink now edges e ed st st' :
  Dict.get now nr = Some edges -> In (e, ed) edges ->
  all2 (oriented net) (a_na st) ->
  auxiliary_edge sink now st (e, ed) = Ok st' ->
  all2 (oriented net) (a_na st').
Proof.
  intros Hnow Hin Hall Hrun. unfold auxiliary_edge in Hrun.
  destruct (Dict.mem e (a_vl st) && negb (e =? sink)); [now inv_ok Hrun|].
  inv_bind Hrun. inv_bind Hrun. inv_ok Hrun. simpl.
  eapply all2_set2; [exact Hall| |exact Hb].
  apply get_in in Hnow. exact (nr_oriented _ _ _ _ Hnow Hin).
Qed.

Lemma auxiliary_loop_oriented fuel sink st st' :
  all2 (oriented net) (a_na st) ->
  auxiliary_loop fuel sink nr st = Ok st' ->
  all2 (oriented net) (a_na st').
Proof.
  revert st. induction fuel as [|fuel IH]; intros st Hall Hrun; simpl in Hrun.
  - destruct (a_que st); [now inv_ok Hrun|discriminate].
  - destruct (a_que st) as [|now que]; [now inv_ok Hrun|].
    inv_bind Hrun. apply lookup_ok in Hb. inv_bind Hrun.
    apply (IH x0); [|exact Hrun].
    revert Hb0. apply (for_each_inv (fun s => all2 (oriented net) (a_na s))).
    + intros s [e ed] s' Hin Hs Hstep. eapply auxiliary_edge_oriented; eauto.
    + simpl. apply all2_set; [exact Hall|intros ? ? []].
Qed.

Lemma truncate_oriented sink st na :
  all2 (oriented net) (a_na st) ->
  truncate sink st = Ok (Some na) ->
  all2 (oriented net) na.
Proof.
  intros Hall Hrun. unfold truncate in Hrun.
  destruct (negb (Dict.mem sink (a_na st))); [discriminate|].
  inv_bind Hrun.
  destruct (existsb _ (a_vl st)); inv_ok Hrun.
  now apply all2_delete_nodes.
Qed.

Lemma build_auxiliary_oriented fuel source sink na :
  build_auxiliary fuel source sink nr = Ok (Some na) -> all2 (oriented net) na.
Proof.
  unfold build_auxiliary. intros Hrun. inv_bind Hrun.
  eapply truncate_oriented; [|exact Hrun].
  eapply auxiliary_loop_oriented; [|exact Hb]. apply all2_nil.
Qed.

End AuxiliaryOrientation.

Lemma build_level_graph_oriented net fuel source sink na :
  build_level_graph fuel source sink net = Ok (Some na) -> all2 (oriented net) na.
Proof.
  unfold build_level_graph. intros Hrun. inv_bind Hrun.
  eapply build_auxiliary_oriented; [|exact Hrun].
  eapply build_residual_graph_oriented; eauto.
Qed.

(** ** Pruning keeps the edges it does not delete *)

Lemma zero_pass_all2 (P : Z -> Z -> edge -> Prop) source sink nodes :
  forall aux thr hz z,
    all2 P aux ->
    zero_pass source sink nodes aux thr hz = Ok z ->
    all2 P (z_aux z).
Proof.
  induction nodes as [|node rest IH]; intros aux thr hz z Hall Hrun; simpl in Hrun.
  - now inv_ok Hrun.
  - inv_bind Hrun.
    destruct (Z.min (fst x) (snd x) =? 0).
    + destruct ((node =? source) || (node =? sink)).
      * now inv_ok Hrun.
      * inv_bind Hrun. inv_bind Hrun. inv_bind Hrun.
        eapply IH; [|exact Hrun]. now apply all2_delete_node.
    + eapply IH; eauto.
Qed.

Lemma delete_zero_throughput_all2 (P : Z -> Z -> edge -> Prop) fuel source sink :
  forall aux thr ret aux' thr',
    all2 P aux ->
    delete_zero_throughput fuel source sink aux thr = Ok (ret, aux', thr') ->
    all2 P aux'.
Proof.
  induction fuel as [|fuel IH]; intros aux thr ret aux' thr' Hall Hrun; simpl in Hrun.
  - discriminate.
  - inv_bind Hrun.
    assert (all2 P (z_aux x)) as Hz by (eapply zero_pass_all2; eauto).
    destruct (negb (z_go x)); [now inv_ok Hrun|].
    destruct (z_has_zero x); [eapply IH; eauto|now inv_ok Hrun].
Qed.

(** ** The delta map records arcs *)

Lemma record_flow_on_arc net start end_ m g :
  is_arc net start end_ -> all2 (on_arc net) g ->
  all2 (on_arc net) (record_flow start end_ m g).
Proof.
  intros Harc Hall. unfold record_flow. apply all2_set; [exact Hall|].
  intros v x Hin. destruct (in_set _ _ _ _ Hin) as [E|E].
  - inv_ok E. exact Harc.
  - destruct (Dict.get start g) as [d|] eqn:Hg; [|destruct E].
    apply get_in in Hg. exact (Hall _ _ _ _ Hg E).
Qed.

Lemma record_flow_sorted2 start end_ m (g : delta) :
  sorted2 g -> sorted2 (record_flow start end_ m g).
Proof.
  intros Hs. unfold record_flow. apply sorted2_set; [exact Hs|].
  apply sorted_set. destruct (Dict.get start g) as [d|] eqn:Hg; [|exact I].
  apply get_in in Hg. destruct Hs as [_ Hi]. eauto.
Qed.

Lemma oriented_update net u v ed c b :
  oriented net u v ed -> oriented net u v (mkEdge c (edir ed) b).
Proof.
  unfold oriented. simpl. auto.
Qed.

Lemma push_edges_recording net v ns :
  forall st st', recording net st -> push_edges v ns st = Ok st' -> recording net st'.
Proof.
  induction ns as [|n ns IH]; intros st st' Hrec Hrun; simpl in Hrun.
  - now inv_ok Hrun.
  - inv_bind Hrun. destruct (x =? 0); [now inv_ok Hrun|].
    inv_bind Hrun. apply lookup_ok in Hb0.
    destruct (used x0); [eauto|].
    inv_bind Hrun. inv_bind Hrun. inv_bind Hrun.
    eapply IH; [|exact Hrun].
    destruct Hrec as [Haux [Hg Hs]].
    assert (oriented net v n x0) as Hor by (eapply all2_get2; eauto).
    split; [|split]; simpl.
    + eapply all2_set2; [exact Haux| |exact Hb1]. now apply oriented_update.
    + unfold oriented in Hor.
      destruct (edir x0); now apply record_flow_on_arc.
    + destruct (edir x0); now apply record_flow_sorted2.
Qed.

Lemma push_loop_recording net fuel :
  forall st st', recording net st -> push_loop fuel st = Ok st' -> recording net st'.
Proof.
  induction fuel as [|fuel IH]; intros st st' Hrec Hrun; simpl in Hrun.
  - destruct (p_q st); [now inv_ok Hrun|discriminate].
  - destruct (p_q st) as [|v q]; [now inv_ok Hrun|].
    inv_bind Hrun. inv_bind Hrun.
    eapply IH; [|exact Hrun].
    eapply push_edges_recording; [|exact Hb0]. exact Hrec.
Qed.

Lemma pull_edges_recording net us :
  forall v st st', recording net st -> pull_edges us v st = Ok st' -> recording net st'.
Proof.
  induction us as [|u us IH]; intros v st st' Hrec Hrun; simpl in Hrun.
  - now inv_ok Hrun.
  - inv_bind Hrun. destruct (x =? 0); [now inv_ok Hrun|].
    inv_bind Hrun. apply lookup_ok in Hb0.
    destruct (Dict.get v x0) as [ed|] eqn:Hed; [|eauto].
    destruct (used ed); [eauto|].
    inv_bind Hrun. inv_bind Hrun. inv_bind Hrun.
    destruct Hrec as [Haux [Hg Hs]].
    assert (oriented net u v ed) as Hor.
    { eapply all2_get2; [exact Haux|]. unfold get2. now rewrite Hb0. }
    assert (all2 (oriented net) x1) as Haux1.
    { eapply all2_set2; [exact Haux| |exact Hb1]. now apply oriented_update. }
    unfold oriented in Hor.
    destruct (edir ed); (eapply IH; [|exact Hrun]); (split; [|split]); simpl; auto;
      solve [now apply record_flow_on_arc | now apply record_flow_sorted2].
Qed.

Lemma pull_loop_recording net fuel :
  forall st st', recording net st -> pull_loop fuel st = Ok st' -> recording net st'.
Proof.
  induction fuel as [|fuel IH]; intros st st' Hrec Hrun; simpl in Hrun.
  - destruct (p_q st); [now inv_ok Hrun|discriminate].
  - destruct (p_q st) as [|v q]; [now inv_ok Hrun|].
    inv_bind Hrun.
    eapply IH; [|exact Hrun].
    eapply pull_edges_recording; [|exact Hb]. exact Hrec.
Qed.

Lemma blocking_step_recording net fuel source sink aux g r :
  all2 (oriented net) aux -> all2 (on_arc net) g -> sorted2 g ->
  blocking_step fuel source sink aux g = Ok r ->
  match r with
  | inl (aux', g') | inr (aux', g') =>
      all2 (oriented net) aux' /\ all2 (on_arc net) g' /\ sorted2 g'
  end.
Proof.
  intros Haux Hg Hs Hrun. unfold blocking_step in Hrun.
  inv_bind Hrun. destruct x as [[ret aux1] thr1].
  assert (all2 (oriented net) aux1) as Haux1
    by (eapply delete_zero_throughput_all2; eauto).
  destruct (negb ret); [inv_ok Hrun; auto|].
  destruct (negb (Dict.mem source aux1) || negb (Dict.mem sink aux1)); [inv_ok Hrun; auto|].
  destruct (select_min thr1) as [min_node min_throughput].
  inv_bind Hrun. inv_bind Hrun. inv_bind Hrun. inv_ok Hrun.
  assert (recording net x0) as Hpush.
  { eapply push_loop_recording; [|exact Hb1]. repeat split; simpl; auto; apply Hs. }
  assert (recording net x1) as Hpull.
  { eapply pull_loop_recording; [|exact Hb2]. exact Hpush. }
  exact Hpull.
Qed.

Lemma blocking_loop_recording net n fuel source sink :
  forall aux g aux' g',
    all2 (oriented net) aux -> all2 (on_arc net) g -> sorted2 g ->
    blocking_loop n fuel source sink aux g = Ok (aux', g') ->
    all2 (oriented net) aux' /\ all2 (on_arc net) g' /\ sorted2 g'.
Proof.
  induction n as [|n IH]; intros aux g aux' g' Haux Hg Hs Hrun; simpl in Hrun.
  - discriminate.
  - inv_bind Hrun.
    pose proof (blocking_step_recording _ _ _ _ _ _ _ Haux Hg Hs Hb) as Hstep.
    destruct x as [[a1 g1]|[a1 g1]].
    + inv_ok Hrun. exact Hstep.
    + destruct Hstep as [H1 [H2 H3]]. eapply IH; eauto.
Qed.

(** ** [flow_add] on a delta map whose keys are arcs *)

Lemma add_flows_spec u (d : Dict.t Z) :
  forall net,
    sorted d ->
    (forall v x, In (v, x) d -> is_arc net u v) ->
    exists net',
      for_each (add_flow u) d net = Ok net' /\
      forall u' v,
        get2 u' v net' =
        option_map (bump (if u' =? u then entry_at 0 v d else 0)) (get2 u' v net).
Proof.
  induction d as [|[v0 x0] d IH]; intros net Hs Harcs; simpl.
  - exists net. split; [reflexivity|]. intros u' v. unfold entry_at. simpl.
    destruct (get2 u' v net) as [[c f]|]; simpl; [|reflexivity].
    unfold bump; simpl. destruct (u' =? u); do 2 f_equal; lia.
  - destruct (Harcs v0 x0 (or_introl eq_refl)) as [a Ha].
    unfold add_flow at 1. simpl. rewrite Ha. simpl.
    destruct (set2 u v0 (mkArc (cap a) (flow a + x0)) net) as [net1|e] eqn:Hset.
    2:{ unfold set2 in Hset. unfold get2 in Ha.
        destruct (Dict.get u net); simpl in Hset; discriminate. }
    simpl.
    pose proof (fun u' v' => get2_set2 _ _ _ _ _ u' v' Hset) as Hnet1.
    destruct (IH net1) as [net' [Hrun Hspec]].
    + apply Hs.
    + intros v x Hin. unfold is_arc. rewrite Hnet1.
      destruct ((u =? u) && (v =? v0)); [eauto|]. apply (Harcs v x). now right.
    + exists net'. split; [exact Hrun|].
      intros u' v. rewrite Hspec, Hnet1. unfold entry_at. simpl.
      pose proof (sorted_get_none _ _ _ Hs) as Hnone.
      destruct (u' =? u) eqn:Hu; simpl.
      * apply Z.eqb_eq in Hu; subst u'.
        destruct (v =? v0) eqn:Hv; simpl.
        -- apply Z.eqb_eq in Hv; subst v. rewrite Hnone, Ha. simpl.
           unfold bump; simpl. do 2 f_equal; lia.
        -- reflexivity.
      * reflexivity.
Qed.

Lemma bump_bump x y a : bump y (bump x a) = bump (x + y) a.
Proof.
  unfold bump; simpl. f_equal. lia.
Qed.

Lemma flow_add_spec (g : delta) :
  forall net,
    sorted2 g -> all2 (on_arc net) g ->
    exists net',
      flow_add net g = Ok net' /\
      forall u v, get2 u v net' = option_map (bump (delta_at u v g)) (get2 u v net).
Proof.
  unfold flow_add.
  induction g as [|[u0 d0] g IH]; intros net Hs Harcs; simpl.
  - exists net. split; [reflexivity|]. intros u v. unfold delta_at, get2. simpl.
    destruct (Dict.get u net) as [inner|]; simpl; [|reflexivity].
    destruct (Dict.get v inner) as [[c f]|]; simpl; [|reflexivity].
    unfold bump; simpl. do 2 f_equal. lia.
  - destruct Hs as [Hs Hinner].
    destruct (add_flows_spec u0 d0 net) as [net1 [Hrun1 Hspec1]].
    + apply (Hinner u0 d0). now left.
    + intros v x Hin. apply (Harcs u0 d0 v x); [now left|exact Hin].
    + rewrite Hrun1. simpl.
      destruct (IH net1) as [net' [Hrun Hspec]].
      * split; [apply Hs|]. intros u inner Hin. apply (Hinner u inner). now right.
      * intros u inner v x Hin Hin'. unfold on_arc, is_arc. rewrite Hspec1.
        destruct (Harcs u inner v x (or_intror Hin) Hin') as [a Ha].
        rewrite Ha. simpl. eauto.
      * exists net'. split; [exact Hrun|].
        intros u v. rewrite Hspec, Hspec1.
        destruct (get2 u v net) as [a|]; simpl; [|reflexivity].
        rewrite bump_bump. do 2 f_equal.
        unfold delta_at, get2, entry_at. simpl.
        destruct (u =? u0) eqn:Hu.
        -- apply Z.eqb_eq in Hu; subst u.
           rewrite (sorted_get_none _ _ _ Hs). lia.
        -- lia.
Qed.

(** C9: in a phase of the driver every key pair of the delta map that the
    blocking flow leaves is an arc of the network, so [flow_add] raises no
    [KeyError]; it keeps the arcs and their capacities and adds to the flow
    of each arc the signed delta recorded for it, nothing where none is
    recorded. *)
Theorem delta_keys_are_arcs :
  forall fuel source sink net aux aux' g,
    build_level_graph fuel source sink net = Ok (Some aux) ->
    construct_blocking_flow fuel source sink aux [] = Ok (aux', g) ->
    (forall u v x, get2 u v g = Some x -> exists a, get2 u v net = Some a) /\
    exists net',
      flow_add net g = Ok net' /\
      forall u v,
        get2 u v net' =
        option_map (fun a => mkArc (cap a) (flow a + delta_at u v g)) (get2 u v net).
Proof.
  intros fuel source sink net aux aux' g Haux Hrun.
  pose proof (build_level_graph_oriented _ _ _ _ _ Haux) as Hor.
  destruct (blocking_loop_recording net _ _ _ _ _ _ _ _ Hor (all2_nil _) sorted2_nil Hrun)
    as [_ [Hg Hs]].
  split.
  - intros u v x Hx. exact (all2_get2 _ _ _ _ _ Hg Hx).
  - destruct (flow_add_spec g net Hs Hg) as [net' [Hadd Hspec]].
    exists net'. split; [exact Hadd|]. exact Hspec.
Qed.

Lemma delta_keys_are_arcs_witness :
  (forall u v x, get2 u v chain_delta = Some x -> exists a, get2 u v scenario_c = Some a) /\
  exists net',
    flow_add scenario_c chain_delta = Ok net' /\
    forall u v,
      get2 u v net' =
      option_map (fun a => mkArc (cap a) (flow a + delta_at u v chain_delta))
                 (get2 u v scenario_c).
Proof.
  apply (delta_keys_are_arcs 50 0 3 scenario_c chain_aux [(0, []); (3, [])] chain_delta);
    vm_compute; reflexivity.
Defined.

(** ** The throughput table *)

Lemma calc_throughput_fold source sink (whole : graph) (n : Z) :
  forall (part : graph) (acc : table),
    sorted part ->
    Dict.get n
      (fold_left
         (fun thr nd =>
            Dict.set (fst nd) (throughput_of source sink whole (fst nd) (snd nd)) thr)
         part acc) =
    match Dict.get n part with
    | Some neibors => Some (throughput_of source sink whole n neibors)
    | None => Dict.get n acc
    end.
Proof.
  induction part as [|[k d] part IH]; intros acc Hs; simpl; [reflexivity|].
  rewrite IH by apply Hs.
  destruct (n =? k) eqn:Hk.
  - apply Z.eqb_eq in Hk; subst k.
    rewrite (sorted_get_none _ _ _ Hs). apply get_set_eq.
  - apply Z.eqb_neq in Hk.
    destruct (Dict.get n part); [reflexivity|]. now apply get_set_neq.
Qed.

Lemma calc_throughput_get source sink (aux : graph) (n : Z) :
  sorted aux ->
  Dict.get n (calc_throughput source sink aux) =
  option_map (throughput_of source sink aux n) (Dict.get n aux).
Proof.
  intros Hs. unfold calc_throughput. rewrite calc_throughput_fold by exact Hs.
  destruct (Dict.get n aux); reflexivity.
Qed.

(** ** [push] and [pull] do not read the table *)

Lemma push_edges_table v ns :
  forall aux t1 t2 req q g r1 r2,
    push_edges v ns (mkP aux t1 req q g) = Ok r1 ->
    push_edges v ns (mkP aux t2 req q g) = Ok r2 ->
    forget r1 = forget r2.
Proof.
  induction ns as [|n ns IH]; intros aux t1 t2 req q g r1 r2 H1 H2; simpl in H1, H2.
  - inv_ok H1. inv_ok H2. reflexivity.
  - destruct (lookup (Dict.get v req)) as [rv|]; simpl in H1, H2; [|discriminate].
    destruct (rv =? 0); [inv_ok H1; inv_ok H2; reflexivity|].
    destruct (lookup (get2 v n aux)) as [ed|]; simpl in H1, H2; [|discriminate].
    destruct (used ed); [eauto|].
    destruct (set2 v n _ aux) as [aux1|]; simpl in H1, H2; [|discriminate].
    inv_bind H1. inv_bind H2.
    destruct (lookup (Dict.get n (Dict.set v (rv - Z.min (ecap ed) rv) req))) as [rn|];
      simpl in H1, H2; [|discriminate].
    eauto.
Qed.

Lemma push_loop_table fuel :
  forall aux t1 t2 req q g r1 r2,
    push_loop fuel (mkP aux t1 req q g) = Ok r1 ->
    push_loop fuel (mkP aux t2 req q g) = Ok r2 ->
    forget r1 = forget r2.
Proof.
  induction fuel as [|fuel IH]; intros aux t1 t2 req q g r1 r2 H1 H2; simpl in H1, H2.
  - destruct q; [inv_ok H1; inv_ok H2; reflexivity|discriminate].
  - destruct q as [|v q]; [inv_ok H1; inv_ok H2; reflexivity|].
    destruct (lookup (Dict.get v aux)) as [outs|]; simpl in H1, H2; [|discriminate].
    inv_bind H1. inv_bind H2.
    pose proof (push_edges_table _ _ _ _ _ _ _ _ _ _ Hb Hb0) as E.
    destruct x as [a1 ta r1' q1 g1], x0 as [a2 tb r2' q2 g2].
    unfold forget in E; simpl in E. inv_ok E. eauto.
Qed.

Lemma pull_edges_table us :
  forall v aux t1 t2 req q g r1 r2,
    pull_edges us v (mkP aux t1 req q g) = Ok r1 ->
    pull_edges us v (mkP aux t2 req q g) = Ok r2 ->
    forget r1 = forget r2.
Proof.
  induction us as [|u us IH]; intros v aux t1 t2 req q g r1 r2 H1 H2; simpl in H1, H2.
  - inv_ok H1. inv_ok H2. reflexivity.
  - destruct (lookup (Dict.get v req)) as [rv|]; simpl in H1, H2; [|discriminate].
    destruct (rv =? 0); [inv_ok H1; inv_ok H2; reflexivity|].
    destruct (lookup (Dict.get u aux)) as [d|]; simpl in H1, H2; [|discriminate].
    destruct (Dict.get v d) as [ed|]; [|eauto].
    destruct (used ed); [eauto|].
    destruct (set2 u v _ aux) as [aux1|]; simpl in H1, H2; [|discriminate].
    inv_bind H1. inv_bind H2.
    destruct (lookup (Dict.get u (Dict.set v (rv - Z.min (ecap ed) rv) req))) as [ru|];
      simpl in H1, H2; [|discriminate].
    destruct (edir ed); eauto.
Qed.

Lemma pull_loop_table fuel :
  forall aux t1 t2 req q g r1 r2,
    pull_loop fuel (mkP aux t1 req q g) = Ok r1 ->
    pull_loop fuel (mkP aux t2 req q g) = Ok r2 ->
    forget r1 = forget r2.
Proof.
  induction fuel as [|fuel IH]; intros aux t1 t2 req q g r1 r2 H1 H2; simpl in H1, H2.
  - destruct q; [inv_ok H1; inv_ok H2; reflexivity|discriminate].
  - destruct q as [|v q]; [inv_ok H1; inv_ok H2; reflexivity|].
    inv_bind H1. inv_bind H2.
    pose proof (pull_edges_table _ _ _ _ _ _ _ _ _ _ Hb Hb0) as E.
    destruct x as [a1 ta r1' q1 g1], x0 as [a2 tb r2' q2 g2].
    unfold forget in E; simpl in E. inv_ok E. eauto.
Qed.

(** C10: an iteration of the blocking-flow loop prunes and selects with the
    table that [calc_throughput] builds from the current auxiliary network:
    per node the summed capacities of the edges entering and leaving it, with
    [maxint] for what enters the source and what leaves the sink.  The
    auxiliary network and the delta map that [push] and [pull] hand to the
    next iteration are the same whatever table they are given, so what they
    write into the table has no effect on the next selection. *)
Theorem throughput_recomputed :
  forall fuel source sink aux g aux' g',
    sorted aux ->
    blocking_step fuel source sink aux g = Ok (inr (aux', g')) ->
    (forall n neibors,
        Dict.get n aux = Some neibors ->
        Dict.get n (calc_throughput source sink aux) =
        Some (if n =? source then maxint else in_cap n aux,
              if n =? sink then maxint else out_cap neibors)) /\
    exists aux1 thr1 y h,
      delete_zero_throughput fuel source sink aux (calc_throughput source sink aux)
      = Ok (true, aux1, thr1) /\
      select_min thr1 = (Some y, h) /\
      forall thr2 st2 st2',
        push fuel y h aux1 thr2 g = Ok st2 ->
        pull fuel source y h (p_aux st2) (p_thr st2) (p_g st2) = Ok st2' ->
        p_aux st2' = aux' /\ p_g st2' = g'.
Proof.
  intros fuel source sink aux g aux' g' Hs Hrun. split.
  - intros n neibors Hn. rewrite calc_throughput_get by exact Hs. now rewrite Hn.
  - unfold blocking_step in Hrun. inv_bind Hrun. destruct x as [[ret aux1] thr1].
    destruct ret; simpl in Hrun; [|discriminate].
    destruct (negb (Dict.mem source aux1) || negb (Dict.mem sink aux1)); [discriminate|].
    destruct (select_min thr1) as [min_node h] eqn:Hmin.
    inv_bind Hrun. apply lookup_ok in Hb0. subst min_node.
    inv_bind Hrun. inv_bind Hrun. inv_ok Hrun.
    exists aux1, thr1, x, h. split; [exact Hb|]. split; [exact Hmin|].
    intros thr2 st2 st2' Hpush Hpull.
    unfold push in Hb0, Hpush.
    pose proof (push_loop_table _ _ _ _ _ _ _ _ _ Hb0 Hpush) as E.
    destruct x0 as [a1 t1 r1 q1 g1], st2 as [a2 t2 r2 q2 g2].
    unfold forget in E; simpl in E. inv_ok E. simpl in Hb1, Hpull.
    unfold pull in Hb1, Hpull.
    pose proof (pull_loop_table _ _ _ _ _ _ _ _ _ Hb1 Hpull) as E.
    unfold forget in E. inv_ok E. split; congruence.
Qed.

Lemma throughput_recomputed_witness :
  (forall n neibors,
      Dict.get n chain_aux = Some neibors ->
      Dict.get n (calc_throughput 0 3 chain_aux) =
      Some (if n =? 0 then maxint else in_cap n chain_aux,
            if n =? 3 then maxint else out_cap neibors)) /\
  exists aux1 thr1 y h,
    delete_zero_throughput 50 0 3 chain_aux (calc_throughput 0 3 chain_aux)
    = Ok (true, aux1, thr1) /\
    select_min thr1 = (Some y, h) /\
    forall thr2 st2 st2',
      push 50 y h aux1 thr2 [] = Ok st2 ->
      pull 50 0 y h (p_aux st2) (p_thr st2) (p_g st2) = Ok st2' ->
      p_aux st2' = chain_aux_pushed /\ p_g st2' = chain_delta.
Proof.
  apply (throughput_recomputed 50 0 3 chain_aux [] chain_aux_pushed chain_delta).
  - simpl. intuition lia.
  - vm_compute. reflexivity.
Defined.

(** ** Deletion in sorted dictionaries *)

Section DeleteFacts.

Context {V : Type}.
Implicit Types (d : Dict.t V) (k j : Z).

Lemma in_keys_del k j d : In j (Dict.keys (Dict.del k d)) -> In j (Dict.keys d).
Proof.
  unfold Dict.keys. rewrite !in_map_iff. intros [x [Hx Hin]].
  exists x. split; [exact Hx|]. eapply in_del; eauto.
Qed.

Lemma sorted_del k d : sorted d -> sorted (Dict.del k d).
Proof.
  induction d as [|[k' v'] d IH]; simpl; [auto|].
  intros [Hlt Hs]. destruct (k =? k'); [exact Hs|].
  simpl. split; [|auto]. intros j Hj. apply Hlt. eapply in_keys_del; eauto.
Qed.

Lemma get_del_eq k d : sorted d -> Dict.get k (Dict.del k d) = None.
Proof.
  induction d as [|[k' v'] d IH]; simpl; [reflexivity|].
  intros Hs. destruct (k =? k') eqn:Hk.
  - apply Z.eqb_eq in Hk; subst k'. exact (sorted_get_none k v' d Hs).
  - simpl. rewrite Hk. apply IH, Hs.
Qed.

Lemma get_del_neq k j d : j <> k -> Dict.get j (Dict.del k d) = Dict.get j d.
Proof.
  intros Hn. induction d as [|[k' v'] d IH]; simpl; [reflexivity|].
  destruct (k =? k') eqn:Hk.
  - apply Z.eqb_eq in Hk; subst k'.
    destruct (j =? k) eqn:Hj; [apply Z.eqb_eq in Hj; contradiction|reflexivity].
  - simpl. now rewrite IH.
Qed.

Lemma get_map_values {W : Type} (f : V -> W) k d :
  Dict.get k (Dict.map_values f d) = option_map f (Dict.get k d).
Proof.
  induction d as [|[k' v'] d IH]; simpl; [reflexivity|].
  destruct (k =? k'); [reflexivity|exact IH].
Qed.

Lemma keys_map_values {W : Type} (f : V -> W) d :
  Dict.keys (Dict.map_values f d) = Dict.keys d.
Proof.
  unfold Dict.keys, Dict.map_values. rewrite map_map. reflexivity.
Qed.

Lemma sorted_map_values {W : Type} (f : V -> W) d :
  sorted d -> sorted (Dict.map_values f d).
Proof.
  induction d as [|[k' v'] d IH]; simpl; [auto|].
  intros [Hlt Hs]. split; [|auto].
  intros j Hj. apply Hlt. fold (Dict.map_values f d) in Hj.
  now rewrite keys_map_values in Hj.
Qed.

End DeleteFacts.

Lemma delete_node_eq (node : Z) (g : graph) :
  delete_node node g = Dict.map_values (Dict.del node) (Dict.del node g).
Proof.
  destruct g; reflexivity.
Qed.

Lemma sorted2_delete_node (node : Z) (g : graph) :
  sorted2 g -> sorted2 (delete_node node g).
Proof.
  intros [Hs Hi]. split.
  - rewrite delete_node_eq. now apply sorted_map_values, sorted_del.
  - intros u inner Hin. destruct (in_delete_node _ _ _ _ Hin) as [inner0 [H0 ->]].
    apply sorted_del. eauto.
Qed.

Lemma get_delete_node (node u : Z) (g : graph) :
  sorted2 g ->
  Dict.get u (delete_node node g) =
  if u =? node then None else option_map (Dict.del node) (Dict.get u g).
Proof.
  intros [Hs _]. rewrite delete_node_eq, get_map_values.
  destruct (u =? node) eqn:Hu.
  - apply Z.eqb_eq in Hu; subst u. now rewrite get_del_eq.
  - apply Z.eqb_neq in Hu. now rewrite get_del_neq.
Qed.

Lemma get2_delete_node (node u v : Z) (g : graph) :
  sorted2 g ->
  get2 u v (delete_node node g) =
  if (u =? node) || (v =? node) then None else get2 u v g.
Proof.
  intros Hs. unfold get2. rewrite get_delete_node by exact Hs.
  destruct (u =? node); simpl; [reflexivity|].
  destruct (Dict.get u g) as [inner|] eqn:Hg; simpl.
  - destruct (v =? node) eqn:Hv.
    + apply Z.eqb_eq in Hv; subst v. apply get_del_eq.
      destruct Hs as [_ Hi]. apply (Hi u). now apply get_in.
    + apply Z.eqb_neq in Hv. now apply get_del_neq.
  - now destruct (v =? node).
Qed.

Lemma sorted2_delete_nodes (nodes : list Z) (g : graph) :
  sorted2 g -> sorted2 (fold_left (fun na node => delete_node node na) nodes g).
Proof.
  revert g. induction nodes as [|n nodes IH]; simpl; intros g Hg; auto.
  apply IH. now apply sorted2_delete_node.
Qed.

Lemma get2_delete_nodes (nodes : list Z) :
  forall (g : graph) u v ed,
    sorted2 g ->
    get2 u v (fold_left (fun na node => delete_node node na) nodes g) = Some ed ->
    ~ In u nodes /\ ~ In v nodes /\ get2 u v g = Some ed.
Proof.
  induction nodes as [|n nodes IH]; simpl; intros g u v ed Hs Hg.
  - auto.
  - destruct (IH _ _ _ _ (sorted2_delete_node n g Hs) Hg) as [Hu [Hv Hget]].
    rewrite get2_delete_node in Hget by exact Hs.
    destruct (u =? n) eqn:Eu; simpl in Hget; [discriminate|].
    destruct (v =? n) eqn:Ev; simpl in Hget; [discriminate|].
    apply Z.eqb_neq in Eu, Ev. repeat split; auto; intros [H|H]; auto.
Qed.

Lemma get_delete_nodes (nodes : list Z) :
  forall (g : graph) u inner,
    sorted2 g ->
    Dict.get u (fold_left (fun na node => delete_node node na) nodes g) = Some inner ->
    ~ In u nodes /\ exists inner0, Dict.get u g = Some inner0.
Proof.
  induction nodes as [|n nodes IH]; simpl; intros g u inner Hs Hg.
  - eauto.
  - destruct (IH _ _ _ (sorted2_delete_node n g Hs) Hg) as [Hu [inner0 Hget]].
    rewrite get_delete_node in Hget by exact Hs.
    destruct (u =? n) eqn:Eu; [discriminate|]. apply Z.eqb_neq in Eu.
    destruct (Dict.get u g) as [i0|]; [|discriminate].
    split; [intros [H|H]; auto|eauto].
Qed.

(** ** Layers of the auxiliary network *)

Lemma mem_set {V : Type} (k j : Z) (v : V) (d : Dict.t V) :
  Dict.mem j (Dict.set k v d) = (j =? k) || Dict.mem j d.
Proof.
  unfold Dict.mem. destruct (j =? k) eqn:Hj.
  - apply Z.eqb_eq in Hj; subst j. now rewrite get_set_eq.
  - apply Z.eqb_neq in Hj. now rewrite get_set_neq.
Qed.

Lemma mem_true {V : Type} (k : Z) (d : Dict.t V) :
  Dict.mem k d = true <-> exists v, Dict.get k d = Some v.
Proof.
  unfold Dict.mem. destruct (Dict.get k d); split; eauto; try discriminate.
  intros [v Hv]; discriminate.
Qed.

Lemma auxiliary_edge_layered sink now st e ed st' :
  layered sink st ->
  auxiliary_edge sink now st (e, ed) = Ok st' ->
  layered sink st'.
Proof.
  intros (Hs & Hq & Hk & He) Hrun. unfold auxiliary_edge in Hrun.
  destruct (Dict.mem e (a_vl st) && negb (e =? sink)) eqn:Hskip.
  { inv_ok Hrun. unfold layered. auto. }
  inv_bind Hrun. inv_bind Hrun. apply lookup_ok in Hb0. inv_ok Hrun.
  assert (e <> sink -> Dict.mem e (a_vl st) = false) as Hnew.
  { intros Hne. apply Z.eqb_neq in Hne. rewrite Hne in Hskip. simpl in Hskip.
    now rewrite andb_true_r in Hskip. }
  assert (Dict.mem now (a_vl st) = true) as Hnow by (apply mem_true; eauto).
  pose proof (fun u v => get2_set2 _ _ _ _ _ u v Hb) as Hget2.
  unfold set2 in Hb. destruct (Dict.get now (a_na st)) as [inner|] eqn:Hinner;
    simpl in Hb; [|discriminate]. inv_ok Hb.
  unfold layered; simpl. split; [|split; [|split]].
  - apply sorted2_set; [exact Hs|]. apply sorted_set.
    destruct Hs as [_ Hi]. apply (Hi now). now apply get_in.
  - intros y Hy. rewrite mem_set.
    destruct (inb e (a_visited st)).
    + rewrite (Hq y Hy). apply orb_true_r.
    + apply in_app_or in Hy. destruct Hy as [Hy|[<-|[]]].
      * rewrite (Hq y Hy). apply orb_true_r.
      * now rewrite Z.eqb_refl.
  - intros u inner' Hu. rewrite mem_set.
    destruct (Z.eq_dec u now) as [->|Hne].
    + rewrite Hnow. apply orb_true_r.
    + rewrite get_set_neq in Hu by exact Hne. rewrite (Hk _ _ Hu). apply orb_true_r.
  - intros u v ed' Hedge. rewrite Hget2 in Hedge. rewrite !mem_set.
    destruct ((u =? now) && (v =? e)) eqn:Hsame.
    + apply andb_true_iff in Hsame. destruct Hsame as [Eu Ev].
      apply Z.eqb_eq in Eu, Ev. subst u v. rewrite Hnow, Z.eqb_refl.
      split; [apply orb_true_r|]. split; [reflexivity|].
      intros Hn1 Hn2. exists x0. rewrite get_set_eq. split; [|reflexivity].
      rewrite get_set_neq; [exact Hb0|].
      intros ->. rewrite (Hnew Hn2) in Hnow. discriminate.
    + destruct (He _ _ _ Hedge) as (Mu & Mv & Hl).
      rewrite Mu, Mv. split; [apply orb_true_r|]. split; [apply orb_true_r|].
      intros Hn1 Hn2. destruct (Hl Hn1 Hn2) as [lu [Lu Lv]]. exists lu.
      assert (e <> u) as Neu.
      { intros ->. rewrite (Hnew Hn1) in Mu. discriminate. }
      assert (e <> v) as Nev.
      { intros ->. rewrite (Hnew Hn2) in Mv. discriminate. }
      rewrite !get_set_neq by auto. auto.
Qed.

Lemma auxiliary_loop_layered fuel sink nr :
  forall st st',
    layered sink st ->
    auxiliary_loop fuel sink nr st = Ok st' ->
    layered sink st'.
Proof.
  induction fuel as [|fuel IH]; intros st st' Hl Hrun; simpl in Hrun.
  - destruct (a_que st); [now inv_ok Hrun|discriminate].
  - destruct (a_que st) as [|now que] eqn:Hque; [now inv_ok Hrun|].
    inv_bind Hrun. inv_bind Hrun.
    apply (IH x0); [|exact Hrun].
    revert Hb0. apply (for_each_inv (layered sink)).
    + intros s [e ed] s' _ Hs Hstep. eapply auxiliary_edge_layered; eauto.
    + destruct Hl as (Hs & Hq & Hk & He). unfold layered; simpl.
      split; [|split; [|split]].
      * apply sorted2_set; [exact Hs|exact I].
      * intros y Hy. apply Hq. rewrite Hque. now right.
      * intros u inner Hu. destruct (Z.eq_dec u now) as [->|Hne].
        -- apply Hq. rewrite Hque. now left.
        -- rewrite get_set_neq in Hu by exact Hne. eauto.
      * intros u v ed Hedge. apply (He u v ed).
        unfold get2 in *. destruct (Z.eq_dec u now) as [->|Hne].
        -- rewrite get_set_eq in Hedge. discriminate.
        -- now rewrite get_set_neq in Hedge by exact Hne.
Qed.

Lemma in_beyond sink sink_level (vl : Dict.t Z) u lu :
  Dict.get u vl = Some lu -> u <> sink -> sink_level <= lu ->
  In u (beyond sink sink_level vl).
Proof.
  intros Hg Hne Hle. unfold beyond. apply in_map_iff. exists (u, lu). split; [reflexivity|].
  apply filter_In. split; [now apply get_in|]. simpl.
  apply andb_true_iff. split.
  - apply Z.geb_le. lia.
  - apply negb_true_iff. now apply Z.eqb_neq.
Qed.

(** X21: with the levels [vl] that the traversal of [build_auxiliary]
    assigns, every node other than the sink that stays in the returned
    network, as a key or as an end of an edge, has a level below the last
    level written for the sink, and every edge that joins two nodes other
    than the sink goes from a level to the next one. *)
Theorem auxiliary_layers :
  forall fuel source sink nr na,
    build_auxiliary fuel source sink nr = Ok (Some na) ->
    exists st sink_level,
      auxiliary_loop fuel sink nr (mkA [] [source] [(source, 0)] [source]) = Ok st /\
      Dict.get sink (a_vl st) = Some sink_level /\
      (forall u inner,
          Dict.get u na = Some inner -> u <> sink ->
          exists lu, Dict.get u (a_vl st) = Some lu /\ lu < sink_level) /\
      (forall u v ed,
          get2 u v na = Some ed ->
          (u <> sink -> exists lu, Dict.get u (a_vl st) = Some lu /\ lu < sink_level) /\
          (v <> sink -> exists lv, Dict.get v (a_vl st) = Some lv /\ lv < sink_level) /\
          (u <> sink -> v <> sink ->
           exists lu,
             Dict.get u (a_vl st) = Some lu /\ Dict.get v (a_vl st) = Some (lu + 1))).
Proof.
  intros fuel source sink nr na Hrun. unfold build_auxiliary in Hrun.
  inv_bind Hrun. rename x into st.
  assert (layered sink st) as (Hs & _ & Hk & He).
  { eapply auxiliary_loop_layered; [|exact Hb].
    unfold layered; simpl. split; [apply sorted2_nil|].
    split; [|split; [discriminate|discriminate]].
    intros y [<-|[]]. unfold Dict.mem; simpl. now rewrite Z.eqb_refl. }
  unfold truncate in Hrun.
  destruct (negb (Dict.mem sink (a_na st))); [discriminate|].
  inv_bind Hrun. apply lookup_ok in Hb0. rename x into sink_level.
  destruct (existsb _ (a_vl st)); inv_ok Hrun.
  exists st, sink_level. split; [exact Hb|]. split; [exact Hb0|].
  assert (forall u, u <> sink -> Dict.mem u (a_vl st) = true ->
                    ~ In u (beyond sink sink_level (a_vl st)) ->
                    exists lu, Dict.get u (a_vl st) = Some lu /\ lu < sink_level) as Hlow.
  { intros u Hne Hm Hnot. apply mem_true in Hm. destruct Hm as [lu Hlu].
    exists lu. split; [exact Hlu|].
    destruct (Z_lt_ge_dec lu sink_level) as [Hlt|Hge]; [exact Hlt|].
    exfalso. apply Hnot. eapply in_beyond; eauto. lia. }
  split.
  - intros u inner Hu Hne.
    destruct (get_delete_nodes _ _ _ _ Hs Hu) as [Hnot [inner0 H0]].
    apply Hlow; eauto.
  - intros u v ed Hedge.
    destruct (get2_delete_nodes _ _ _ _ _ Hs Hedge) as (Hnu & Hnv & H0).
    destruct (He _ _ _ H0) as (Mu & Mv & Hl).
    split; [|split]; auto.
Qed.

Lemma auxiliary_layers_witness :
  exists st sink_level,
    auxiliary_loop 10 3 short_and_long (mkA [] [0] [(0, 0)] [0]) = Ok st /\
    Dict.get 3 (a_vl st) = Some sink_level /\
    (forall u inner,
        Dict.get u short_and_long = Some inner -> u <> 3 ->
        exists lu, Dict.get u (a_vl st) = Some lu /\ lu < sink_level) /\
    (forall u v ed,
        get2 u v short_and_long = Some ed ->
        (u <> 3 -> exists lu, Dict.get u (a_vl st) = Some lu /\ lu < sink_level) /\
        (v <> 3 -> exists lv, Dict.get v (a_vl st) = Some lv /\ lv < sink_level) /\
        (u <> 3 -> v <> 3 ->
         exists lu,
           Dict.get u (a_vl st) = Some lu /\ Dict.get v (a_vl st) = Some (lu + 1))).
Proof.
  apply (auxiliary_layers 10 0 3 short_and_long short_and_long).
  vm_compute. reflexivity.
Defined.

(** On the residual graph [short_and_long] of the network with the arcs
    0 -> 1, 1 -> 2, 1 -> 3 and 2 -> 3, [build_auxiliary] keeps both 1 -> 3 and
    1 -> 2 -> 3: the level of the sink 3 is written twice, and no assignment
    of layers makes every retained edge go from a layer to the next one. *)
Lemma auxiliary_not_layered :
  build_residual_graph 10 0 3 (read_network [(0,1,1,0); (1,2,1,0); (1,3,1,0); (2,3,1,0)])
  = Ok short_and_long /\
  build_auxiliary 10 0 3 short_and_long = Ok (Some short_and_long) /\
  ~ exists layer : Z -> Z,
      forall u v ed, get2 u v short_and_long = Some ed -> layer v = layer u + 1.
Proof.
  split; [vm_compute; reflexivity|]. split; [vm_compute; reflexivity|].
  intros [layer H].
  pose proof (H 1 2 _ eq_refl) as H12.
  pose proof (H 1 3 _ eq_refl) as H13.
  pose proof (H 2 3 _ eq_refl) as H23.
  lia.
Qed.

(** ** Sums of capacities *)

Lemma sorted_in_get {V : Type} (k : Z) (v : V) (d : Dict.t V) :
  sorted d -> In (k, v) d -> Dict.get k d = Some v.
Proof.
  induction d as [|[k' v'] d IH]; simpl; [tauto|].
  intros [Hlt Hs] [E|Hin].
  - inv_ok E. now rewrite Z.eqb_refl.
  - destruct (k =? k') eqn:Hk; [|auto].
    apply Z.eqb_eq in Hk; subst k'. exfalso.
    assert (In k (Dict.keys d)) as Hk by (apply in_map_iff; exists (k, v); auto).
    specialize (Hlt _ Hk). lia.
Qed.

Lemma out_cap_del (x : Z) (d : Dict.t edge) :
  sorted d ->
  out_cap (Dict.del x d) =
  out_cap d - match Dict.get x d with Some ed => ecap ed | None => 0 end.
Proof.
  unfold out_cap. induction d as [|[k ed] d IH]; simpl; [reflexivity|].
  intros Hs. destruct (x =? k) eqn:Hk; simpl.
  - lia.
  - rewrite IH by apply Hs. lia.
Qed.

Lemma in_cap_cons (n u : Z) (d : Dict.t edge) (aux : graph) :
  in_cap n ((u, d) :: aux) =
  match Dict.get n d with Some ed => ecap ed | None => 0 end + in_cap n aux.
Proof.
  unfold in_cap. simpl. destruct (Dict.get n d); reflexivity.
Qed.

Lemma in_cap_map_del (n x : Z) (aux : graph) :
  n <> x -> in_cap n (Dict.map_values (Dict.del x) aux) = in_cap n aux.
Proof.
  intros Hn. induction aux as [|[u d] aux IH]; [reflexivity|].
  simpl. rewrite !in_cap_cons. fold (Dict.map_values (Dict.del x) aux).
  rewrite IH. now rewrite get_del_neq.
Qed.

Lemma weight_cons (u x n : Z) (d : Dict.t edge) (aux : graph) :
  weight ((u, d) :: aux) x n =
  if x =? u then match Dict.get n d with Some ed => ecap ed | None => 0 end
  else weight aux x n.
Proof.
  unfold weight, get2. simpl. destruct (x =? u); reflexivity.
Qed.

Lemma weight_absent (x n : Z) (aux : graph) :
  Dict.get x aux = None -> weight aux x n = 0.
Proof.
  unfold weight, get2. now intros ->.
Qed.

Lemma in_cap_del (n x : Z) (aux : graph) :
  sorted aux -> n <> x ->
  in_cap n (Dict.map_values (Dict.del x) (Dict.del x aux)) = in_cap n aux - weight aux x n.
Proof.
  intros Hs Hn. induction aux as [|[u d] aux IH].
  - reflexivity.
  - simpl. rewrite weight_cons, in_cap_cons. destruct (x =? u) eqn:Hx.
    + apply Z.eqb_eq in Hx; subst u. rewrite in_cap_map_del by exact Hn. lia.
    + simpl. fold (Dict.map_values (Dict.del x) (Dict.del x aux)).
      rewrite in_cap_cons, IH by apply Hs. rewrite get_del_neq by exact Hn. lia.
Qed.

Lemma in_cap_delete_node (n x : Z) (aux : graph) :
  sorted2 aux -> n <> x ->
  in_cap n (delete_node x aux) = in_cap n aux - weight aux x n.
Proof.
  intros [Hs _] Hn. rewrite delete_node_eq. now apply in_cap_del.
Qed.

Lemma out_cap_at_delete_node (n x : Z) (aux : graph) :
  sorted2 aux -> n <> x ->
  out_cap_at n (delete_node x aux) = out_cap_at n aux - weight aux n x.
Proof.
  intros Hs Hn. unfold out_cap_at, weight, get2.
  rewrite get_delete_node by exact Hs.
  destruct (n =? x) eqn:E; [apply Z.eqb_eq in E; contradiction|].
  destruct (Dict.get n aux) as [d|] eqn:Hd; simpl; [|reflexivity].
  apply out_cap_del. destruct Hs as [_ Hi]. apply (Hi n). now apply get_in.
Qed.

Lemma listed_cons (n k c : Z) (l : list (Z * Z)) :
  listed n ((k, c) :: l) = (if k =? n then c else 0) + listed n l.
Proof.
  unfold listed. simpl. destruct (k =? n); simpl; lia.
Qed.

Lemma dec_in_loop (l : list (Z * Z)) :
  forall thr thr',
    for_each dec_in l thr = Ok thr' ->
    (sorted thr -> sorted thr') /\
    forall n,
      Dict.get n thr' = option_map (fun io => (fst io - listed n l, snd io)) (Dict.get n thr).
Proof.
  induction l as [|[k c] l IH]; intros thr thr' Hrun; simpl in Hrun.
  - inv_ok Hrun. split; [auto|]. intros n. unfold listed; simpl.
    destruct (Dict.get n thr') as [[i o]|]; simpl; [|reflexivity].
    do 2 f_equal. lia.
  - inv_bind Hrun. unfold dec_in in Hb. inv_bind Hb. apply lookup_ok in Hb0.
    simpl in Hb0, Hb. inv_ok Hb.
    destruct (IH _ _ Hrun) as [Hs Hget]. split.
    + intros H. apply Hs. now apply sorted_set.
    + intros n. rewrite Hget, listed_cons. destruct (Z.eq_dec n k) as [->|Hn].
      * rewrite get_set_eq, Hb0, Z.eqb_refl. simpl. do 2 f_equal. lia.
      * rewrite get_set_neq by exact Hn.
        destruct (k =? n) eqn:E; [apply Z.eqb_eq in E; congruence|].
        destruct (Dict.get n thr); reflexivity.
Qed.

Lemma dec_out_loop (l : list (Z * Z)) :
  forall thr thr',
    for_each dec_out l thr = Ok thr' ->
    (sorted thr -> sorted thr') /\
    forall n,
      Dict.get n thr' = option_map (fun io => (fst io, snd io - listed n l)) (Dict.get n thr).
Proof.
  induction l as [|[k c] l IH]; intros thr thr' Hrun; simpl in Hrun.
  - inv_ok Hrun. split; [auto|]. intros n. unfold listed; simpl.
    destruct (Dict.get n thr') as [[i o]|]; simpl; [|reflexivity].
    do 2 f_equal. lia.
  - inv_bind Hrun. unfold dec_out in Hb. inv_bind Hb. apply lookup_ok in Hb0.
    simpl in Hb0, Hb. inv_ok Hb.
    destruct (IH _ _ Hrun) as [Hs Hget]. split.
    + intros H. apply Hs. now apply sorted_set.
    + intros n. rewrite Hget, listed_cons. destruct (Z.eq_dec n k) as [->|Hn].
      * rewrite get_set_eq, Hb0, Z.eqb_refl. simpl. do 2 f_equal. lia.
      * rewrite get_set_neq by exact Hn.
        destruct (k =? n) eqn:E; [apply Z.eqb_eq in E; congruence|].
        destruct (Dict.get n thr); reflexivity.
Qed.

Lemma listed_absent (n : Z) (l : list (Z * Z)) :
  ~ In n (map fst l) -> listed n l = 0.
Proof.
  induction l as [|[k c] l IH]; intros Hn; [reflexivity|].
  rewrite listed_cons. simpl in Hn.
  destruct (k =? n) eqn:E; [apply Z.eqb_eq in E; tauto|]. rewrite IH; tauto.
Qed.

Lemma listed_outs (n : Z) (outs : Dict.t edge) :
  sorted outs ->
  listed n (map (fun kv => (fst kv, ecap (snd kv))) outs) =
  match Dict.get n outs with Some ed => ecap ed | None => 0 end.
Proof.
  induction outs as [|[k ed] outs IH]; intros Hs; [reflexivity|].
  simpl map. rewrite listed_cons. simpl. rewrite (Z.eqb_sym n k).
  destruct (k =? n) eqn:E.
  - apply Z.eqb_eq in E; subst k. rewrite IH by apply Hs.
    rewrite (sorted_get_none n ed outs Hs). lia.
  - rewrite IH by apply Hs. lia.
Qed.

Lemma in_edges_keys (x u : Z) (aux : graph) :
  In u (map fst (in_edges x aux)) -> In u (Dict.keys aux).
Proof.
  induction aux as [|[k d] aux IH]; simpl; [tauto|].
  destruct (Dict.get x d); simpl; intuition.
Qed.

Lemma listed_in_edges (x u : Z) (aux : graph) :
  sorted aux -> listed u (in_edges x aux) = weight aux u x.
Proof.
  induction aux as [|[k d] aux IH]; intros Hs; [reflexivity|].
  rewrite weight_cons. simpl in_edges.
  assert (u = k -> listed u (in_edges x aux) = 0) as Hzero.
  { intros ->. apply listed_absent. intros Hin. apply in_edges_keys in Hin.
    destruct Hs as [Hlt _]. specialize (Hlt _ Hin). lia. }
  destruct (Dict.get x d) as [ed|].
  - rewrite listed_cons, (Z.eqb_sym k u). destruct (u =? k) eqn:E.
    + apply Z.eqb_eq in E. rewrite (Hzero E). lia.
    + rewrite IH by apply Hs. lia.
  - destruct (u =? k) eqn:E.
    + apply Z.eqb_eq in E. exact (Hzero E).
    + apply IH, Hs.
Qed.

(** ** Pruning keeps the table above the capacities *)

Lemma weight_of_outs (aux : graph) (x n : Z) (outs : Dict.t edge) :
  Dict.get x aux = Some outs ->
  weight aux x n = match Dict.get n outs with Some ed => ecap ed | None => 0 end.
Proof.
  unfold weight, get2. now intros ->.
Qed.

Lemma zero_pass_covers source sink nodes :
  forall aux thr hz z,
    sorted2 aux -> covers aux thr ->
    zero_pass source sink nodes aux thr hz = Ok z ->
    sorted2 (z_aux z) /\ covers (z_aux z) (z_thr z).
Proof.
  induction nodes as [|x rest IH]; intros aux thr hz z Hs Hc Hrun; simpl in Hrun.
  - inv_ok Hrun. auto.
  - inv_bind Hrun.
    destruct (Z.min (fst x0) (snd x0) =? 0); [|eauto].
    destruct ((x =? source) || (x =? sink)); [inv_ok Hrun; auto|].
    inv_bind Hrun. apply lookup_ok in Hb0. rename x1 into outs.
    inv_bind Hrun. inv_bind Hrun.
    destruct (dec_in_loop _ _ _ Hb1) as [Hs1 Hg1].
    destruct (dec_out_loop _ _ _ Hb2) as [Hs2 Hg2].
    destruct Hc as [Hst Hc].
    eapply IH; [| |exact Hrun].
    + now apply sorted2_delete_node.
    + split; [apply sorted_del; auto|].
      intros n io Hn.
      destruct (Z.eq_dec n x) as [->|Hne].
      { rewrite get_del_eq in Hn by auto. discriminate. }
      rewrite get_del_neq in Hn by exact Hne. rewrite Hg2, Hg1 in Hn.
      destruct (Dict.get n thr) as [[i o]|] eqn:Hthr; simpl in Hn; [|discriminate].
      inv_ok Hn. simpl.
      destruct (Hc _ _ Hthr) as [Hi Ho]. simpl in Hi, Ho.
      rewrite in_cap_delete_node, out_cap_at_delete_node by auto.
      rewrite listed_outs by (destruct Hs as [_ Hi']; apply (Hi' x); now apply get_in).
      rewrite listed_in_edges by apply Hs.
      rewrite (weight_of_outs _ _ _ _ Hb0). lia.
Qed.

Lemma delete_zero_throughput_covers fuel source sink :
  forall aux thr ret aux' thr',
    sorted2 aux -> covers aux thr ->
    delete_zero_throughput fuel source sink aux thr = Ok (ret, aux', thr') ->
    sorted2 aux' /\ covers aux' thr'.
Proof.
  induction fuel as [|fuel IH]; intros aux thr ret aux' thr' Hs Hc Hrun; simpl in Hrun.
  - discriminate.
  - inv_bind Hrun.
    destruct (zero_pass_covers _ _ _ _ _ _ _ Hs Hc Hb) as [Hs' Hc'].
    destruct (negb (z_go x)); [inv_ok Hrun; auto|].
    destruct (z_has_zero x); [eauto|inv_ok Hrun; auto].
Qed.

Lemma calc_throughput_sorted source sink (whole : graph) :
  forall (part : graph) (acc : table),
    sorted acc ->
    sorted (fold_left
              (fun thr nd =>
                 Dict.set (fst nd) (throughput_of source sink whole (fst nd) (snd nd)) thr)
              part acc).
Proof.
  induction part as [|[k d] part IH]; intros acc Hs; simpl; [exact Hs|].
  apply IH. now apply sorted_set.
Qed.

Lemma calc_throughput_covers source sink (aux : graph) :
  sorted aux ->
  in_cap source aux <= maxint -> out_cap_at sink aux <= maxint ->
  covers aux (calc_throughput source sink aux).
Proof.
  intros Hs Hin Hout. split.
  - apply calc_throughput_sorted. exact I.
  - intros n io Hn. rewrite calc_throughput_get in Hn by exact Hs.
    destruct (Dict.get n aux) as [neibors|] eqn:Hd; simpl in Hn; [|discriminate].
    inv_ok Hn. unfold throughput_of, out_cap_at. simpl. rewrite Hd.
    split.
    + destruct (n =? source) eqn:E; [apply Z.eqb_eq in E; subst; exact Hin|lia].
    + destruct (n =? sink) eqn:E; [|lia].
      apply Z.eqb_eq in E; subst. unfold out_cap_at in Hout. now rewrite Hd in Hout.
Qed.

Lemma zsum_nonneg (l : list Z) : (forall x, In x l -> 0 <= x) -> 0 <= zsum l.
Proof.
  induction l as [|x l IH]; simpl; intros H; [lia|].
  assert (0 <= x) by (apply H; now left).
  assert (0 <= zsum l) by (apply IH; intros; apply H; now right). lia.
Qed.

Lemma in_cap_nonneg (n : Z) (aux : graph) :
  all2 nonneg_edge aux -> 0 <= in_cap n aux.
Proof.
  intros Hall. induction aux as [|[u d] aux IH]; [unfold in_cap; simpl; lia|].
  rewrite in_cap_cons.
  assert (0 <= in_cap n aux).
  { apply IH. intros u' inner v x H1 H2. eapply Hall; [right; exact H1|exact H2]. }
  destruct (Dict.get n d) as [ed|] eqn:Hd; [|lia].
  assert (0 <= ecap ed).
  { apply (Hall u d n ed); [now left|now apply get_in]. }
  lia.
Qed.

Lemma out_cap_at_nonneg (n : Z) (aux : graph) :
  all2 nonneg_edge aux -> 0 <= out_cap_at n aux.
Proof.
  intros Hall. unfold out_cap_at.
  destruct (Dict.get n aux) as [d|] eqn:Hd; [|lia].
  unfold out_cap. apply zsum_nonneg. intros x Hx.
  apply in_map_iff in Hx. destruct Hx as [[v ed] [<- Hin]]. simpl.
  apply (Hall n d v ed); [now apply get_in|exact Hin].
Qed.

Lemma select_min_nonneg (aux : graph) (thr : table) :
  all2 nonneg_edge aux -> covers aux thr -> 0 <= snd (select_min thr).
Proof.
  intros Hall [Hs Hc]. unfold select_min.
  assert (forall (l : table) acc,
             (forall u io, In (u, io) l -> 0 <= fst io /\ 0 <= snd io) ->
             0 <= snd acc ->
             0 <= snd (fold_left
                         (fun acc uio =>
                            let current_thr := Z.min (fst (snd uio)) (snd (snd uio)) in
                            if current_thr <? snd acc then (Some (fst uio), current_thr)
                            else acc) l acc)) as Hfold.
  { induction l as [|[u io] l IH]; intros acc Hl Hacc; simpl; [exact Hacc|].
    apply IH; [intros; eapply Hl; right; eauto|].
    destruct (Hl u io (or_introl eq_refl)) as [H1 H2].
    destruct (Z.min (fst io) (snd io) <? snd acc); simpl; lia. }
  apply Hfold; [|unfold maxint; simpl; lia].
  intros u io Hin. apply sorted_in_get in Hin; [|exact Hs].
  destruct (Hc _ _ Hin) as [H1 H2].
  pose proof (in_cap_nonneg u aux Hall). pose proof (out_cap_at_nonneg u aux Hall). lia.
Qed.

(** ** The delta map stays within the capacities *)

Lemma delta_at_record_flow (start end_ m u v : Z) (g : delta) :
  delta_at u v (record_flow start end_ m g) =
  delta_at u v g + if (u =? start) && (v =? end_) then m else 0.
Proof.
  unfold delta_at, record_flow, get2.
  destruct (u =? start) eqn:Hu; simpl.
  - apply Z.eqb_eq in Hu; subst u. rewrite get_set_eq.
    destruct (v =? end_) eqn:Hv.
    + apply Z.eqb_eq in Hv; subst v. rewrite get_set_eq.
      destruct (Dict.get start g) as [d|]; simpl; [|lia].
      destruct (Dict.get end_ d); lia.
    + apply Z.eqb_neq in Hv. rewrite get_set_neq by exact Hv.
      destruct (Dict.get start g) as [d|]; simpl; lia.
  - apply Z.eqb_neq in Hu. rewrite get_set_neq by exact Hu. lia.
Qed.

Lemma up_set2 (aux aux' : graph) (a b u v : Z) (ed : edge) :
  set2 a b ed aux = Ok aux' ->
  up aux' u v =
  if (u =? a) && (v =? b) then match edir ed with F => ecap ed | B => 0 end
  else up aux u v.
Proof.
  intros Hset. unfold up. rewrite (get2_set2 _ _ _ _ _ u v Hset).
  destruct ((u =? a) && (v =? b)); reflexivity.
Qed.

Lemma down_set2 (aux aux' : graph) (a b u v : Z) (ed : edge) :
  set2 a b ed aux = Ok aux' ->
  down aux' u v =
  if (v =? a) && (u =? b) then match edir ed with B => ecap ed | F => 0 end
  else down aux u v.
Proof.
  intros Hset. unfold down. rewrite (get2_set2 _ _ _ _ _ v u Hset).
  destruct ((v =? a) && (u =? b)); reflexivity.
Qed.

Lemma within_step net (aux aux' : graph) (g : delta) (a b m : Z) (ed : edge) (b' : bool) :
  get2 a b aux = Some ed ->
  0 <= m ->
  set2 a b (mkEdge (ecap ed - m) (edir ed) b') aux = Ok aux' ->
  within net aux g ->
  within net aux'
    match edir ed with
    | B => record_flow b a (- m) g
    | F => record_flow a b m g
    end.
Proof.
  intros Hed Hm Hset Hw u v arc Harc.
  destruct (Hw u v arc Harc) as [Hup Hdown].
  rewrite (up_set2 _ _ _ _ _ _ _ Hset), (down_set2 _ _ _ _ _ _ _ Hset). simpl.
  assert (up aux a b = match edir ed with F => ecap ed | B => 0 end) as Eup
      by (unfold up; now rewrite Hed).
  assert (down aux b a = match edir ed with B => ecap ed | F => 0 end) as Edown
      by (unfold down; now rewrite Hed).
  destruct (edir ed); rewrite delta_at_record_flow.
  - destruct ((u =? a) && (v =? b)) eqn:E1.
    + apply andb_true_iff in E1. destruct E1 as [E1 E2].
      apply Z.eqb_eq in E1, E2. subst u v.
      rewrite Eup in Hup.
      destruct ((b =? a) && (a =? b)) eqn:E3.
      * apply andb_true_iff in E3. destruct E3 as [E3 _]. apply Z.eqb_eq in E3. subst b.
        rewrite Edown in Hdown. rewrite ?Z.eqb_refl; simpl; lia.
      * rewrite ?Z.eqb_refl; simpl; lia.
    + destruct ((v =? a) && (u =? b)) eqn:E3.
      * apply andb_true_iff in E3. destruct E3 as [E3 E4].
        apply Z.eqb_eq in E3, E4. subst u v. rewrite Edown in Hdown. rewrite ?Z.eqb_refl; simpl; lia.
      * rewrite ?Z.eqb_refl; simpl; lia.
  - destruct ((u =? b) && (v =? a)) eqn:E1.
    + apply andb_true_iff in E1. destruct E1 as [E1 E2].
      apply Z.eqb_eq in E1, E2. subst u v.
      rewrite Z.eqb_refl. simpl. rewrite Edown in Hdown.
      destruct ((b =? a) && (a =? b)) eqn:E3.
      * apply andb_true_iff in E3. destruct E3 as [E3 _]. apply Z.eqb_eq in E3. subst b.
        rewrite Eup in Hup. rewrite ?Z.eqb_refl; simpl; lia.
      * rewrite ?Z.eqb_refl; simpl; lia.
    + destruct ((v =? a) && (u =? b)) eqn:E3.
      * apply andb_true_iff in E3. destruct E3 as [E3 E4].
        apply Z.eqb_eq in E3, E4. subst u v.
        rewrite !Z.eqb_refl in E1. discriminate.
      * destruct ((u =? a) && (v =? b)) eqn:E4.
        -- apply andb_true_iff in E4. destruct E4 as [E4 E5].
           apply Z.eqb_eq in E4, E5. subst u v. rewrite Eup in Hup. rewrite ?Z.eqb_refl; simpl; lia.
        -- rewrite ?Z.eqb_refl; simpl; lia.
Qed.

Lemma up_nonneg (aux : graph) (u v : Z) : all2 nonneg_edge aux -> 0 <= up aux u v.
Proof.
  intros Hall. unfold up. destruct (get2 u v aux) as [ed|] eqn:Hg; [|lia].
  pose proof (all2_get2 _ _ _ _ _ Hall Hg) as H. unfold nonneg_edge in H.
  destruct (edir ed); lia.
Qed.

Lemma down_nonneg (aux : graph) (u v : Z) : all2 nonneg_edge aux -> 0 <= down aux u v.
Proof.
  intros Hall. unfold down. destruct (get2 v u aux) as [ed|] eqn:Hg; [|lia].
  pose proof (all2_get2 _ _ _ _ _ Hall Hg) as H. unfold nonneg_edge in H.
  destruct (edir ed); lia.
Qed.

Lemma within_delete_node net (aux : graph) (g : delta) (x : Z) :
  sorted2 aux -> all2 nonneg_edge aux ->
  within net aux g -> within net (delete_node x aux) g.
Proof.
  intros Hs Hall Hw u v a Harc. destruct (Hw u v a Harc) as [Hup Hdown].
  pose proof (up_nonneg aux u v Hall). pose proof (down_nonneg aux u v Hall).
  assert (up (delete_node x aux) u v <= up aux u v) as H1.
  { unfold up at 1. rewrite get2_delete_node by exact Hs.
    destruct ((u =? x) || (v =? x)); [lia|]. fold (up aux u v). lia. }
  assert (down (delete_node x aux) u v <= down aux u v) as H2.
  { unfold down at 1. rewrite get2_delete_node by exact Hs.
    destruct ((v =? x) || (u =? x)); [lia|]. fold (down aux u v). lia. }
  lia.
Qed.

Lemma zero_pass_within net (g : delta) source sink nodes :
  forall aux thr hz z,
    sorted2 aux -> all2 nonneg_edge aux -> within net aux g ->
    zero_pass source sink nodes aux thr hz = Ok z ->
    within net (z_aux z) g.
Proof.
  induction nodes as [|x rest IH]; intros aux thr hz z Hs Hall Hw Hrun; simpl in Hrun.
  - now inv_ok Hrun.
  - inv_bind Hrun.
    destruct (Z.min (fst x0) (snd x0) =? 0); [|eauto].
    destruct ((x =? source) || (x =? sink)); [now inv_ok Hrun|].
    inv_bind Hrun. inv_bind Hrun. inv_bind Hrun.
    eapply IH; [| | |exact Hrun].
    + now apply sorted2_delete_node.
    + now apply all2_delete_node.
    + now apply within_delete_node.
Qed.

Lemma zero_pass_sorted2 source sink nodes :
  forall aux thr hz z,
    sorted2 aux ->
    zero_pass source sink nodes aux thr hz = Ok z ->
    sorted2 (z_aux z).
Proof.
  induction nodes as [|x rest IH]; intros aux thr hz z Hs Hrun; simpl in Hrun.
  - now inv_ok Hrun.
  - inv_bind Hrun.
    destruct (Z.min (fst x0) (snd x0) =? 0); [|eauto].
    destruct ((x =? source) || (x =? sink)); [now inv_ok Hrun|].
    inv_bind Hrun. inv_bind Hrun. inv_bind Hrun.
    eapply IH; [|exact Hrun]. now apply sorted2_delete_node.
Qed.

Lemma delete_zero_throughput_within net (g : delta) fuel source sink :
  forall aux thr ret aux' thr',
    sorted2 aux -> all2 nonneg_edge aux -> within net aux g ->
    delete_zero_throughput fuel source sink aux thr = Ok (ret, aux', thr') ->
    within net aux' g.
Proof.
  induction fuel as [|fuel IH]; intros aux thr ret aux' thr' Hs Hall Hw Hrun; simpl in Hrun.
  - discriminate.
  - inv_bind Hrun.
    pose proof (zero_pass_within _ _ _ _ _ _ _ _ _ Hs Hall Hw Hb) as Hw'.
    pose proof (zero_pass_sorted2 _ _ _ _ _ _ _ Hs Hb) as Hs'.
    pose proof (zero_pass_all2 _ _ _ _ _ _ _ _ Hall Hb) as Hall'.
    destruct (negb (z_go x)); [now inv_ok Hrun|].
    destruct (z_has_zero x); [eauto|now inv_ok Hrun].
Qed.

Lemma sorted2_set2 {V : Type} (u v : Z) (x : V) (d d' : Dict.t (Dict.t V)) :
  sorted2 d -> set2 u v x d = Ok d' -> sorted2 d'.
Proof.
  unfold set2. destruct (Dict.get u d) as [inner|] eqn:Hg; simpl; [|discriminate].
  intros Hs H. inv_ok H. apply sorted2_set; [exact Hs|].
  apply sorted_set. destruct Hs as [_ Hi]. apply (Hi u). now apply get_in.
Qed.

Lemma nonneg_req_set (k x : Z) (req : Dict.t Z) :
  nonneg_req req -> 0 <= x -> nonneg_req (Dict.set k x req).
Proof.
  intros Hreq Hx j r Hin. destruct (in_set _ _ _ _ Hin) as [E|E].
  - inv_ok E. exact Hx.
  - eauto.
Qed.

Lemma nonneg_req_init (y h : Z) (aux : graph) : 0 <= h -> nonneg_req (init_req y h aux).
Proof.
  intros Hh. unfold init_req. apply nonneg_req_set; [|exact Hh].
  assert (forall (l : list Z) (acc : Dict.t Z),
             nonneg_req acc ->
             nonneg_req
               (fold_left (fun r u => if u =? y then r else Dict.set u 0 r) l acc)) as Hfold.
  { induction l as [|u l IH]; intros acc Hacc; simpl; [exact Hacc|].
    apply IH. destruct (u =? y); [exact Hacc|]. apply nonneg_req_set; [exact Hacc|lia]. }
  apply Hfold. intros k r [].
Qed.

(** One edge served by [push] or [pull]: the common step of both loops. *)
Lemma bounded_edge_step net (aux aux' : graph) (g : delta) (req : Dict.t Z)
  (a b tail head rv rh : Z) (ed : edge) (b' : bool) :
  within net aux g -> all2 nonneg_edge aux -> sorted2 aux -> nonneg_req req ->
  get2 a b aux = Some ed ->
  Dict.get tail req = Some rv ->
  set2 a b (mkEdge (ecap ed - Z.min (ecap ed) rv) (edir ed) b') aux = Ok aux' ->
  Dict.get head (Dict.set tail (rv - Z.min (ecap ed) rv) req) = Some rh ->
  within net aux'
    match edir ed with
    | B => record_flow b a (- Z.min (ecap ed) rv) g
    | F => record_flow a b (Z.min (ecap ed) rv) g
    end /\
  all2 nonneg_edge aux' /\
  sorted2 aux' /\
  nonneg_req (Dict.set head (rh + Z.min (ecap ed) rv)
                (Dict.set tail (rv - Z.min (ecap ed) rv) req)).
Proof.
  intros Hw Hall Hs Hreq Hed Hrv Hset Hrh.
  assert (0 <= ecap ed) as Hcap by exact (all2_get2 _ _ _ _ _ Hall Hed).
  assert (0 <= rv) as Hrv0 by (apply (Hreq tail); now apply get_in).
  assert (nonneg_req (Dict.set tail (rv - Z.min (ecap ed) rv) req)) as Hreq1
      by (apply nonneg_req_set; [exact Hreq|lia]).
  assert (0 <= rh) as Hrh0 by (apply (Hreq1 head); now apply get_in).
  split; [|split; [|split]].
  - eapply within_step; eauto. lia.
  - eapply all2_set2; [exact Hall| |exact Hset]. unfold nonneg_edge; simpl. lia.
  - eapply sorted2_set2; eauto.
  - apply nonneg_req_set; [exact Hreq1|lia].
Qed.

Lemma push_edges_bounded net v ns :
  forall st st', bounded_state net st -> push_edges v ns st = Ok st' -> bounded_state net st'.
Proof.
  induction ns as [|n ns IH]; intros st st' Hst Hrun; simpl in Hrun.
  - now inv_ok Hrun.
  - inv_bind Hrun. apply lookup_ok in Hb. destruct (x =? 0); [now inv_ok Hrun|].
    inv_bind Hrun. apply lookup_ok in Hb0.
    destruct (used x0) eqn:Hused; [eauto|].
    inv_bind Hrun. inv_bind Hrun. inv_bind Hrun. apply lookup_ok in Hb3.
    eapply IH; [|exact Hrun].
    destruct Hst as (Hw & Hall & Hs & Hreq).
    unfold bounded_state; simpl.
    eapply bounded_edge_step; eauto.
Qed.

Lemma push_loop_bounded net fuel :
  forall st st', bounded_state net st -> push_loop fuel st = Ok st' -> bounded_state net st'.
Proof.
  induction fuel as [|fuel IH]; intros st st' Hst Hrun; simpl in Hrun.
  - destruct (p_q st); [now inv_ok Hrun|discriminate].
  - destruct (p_q st) as [|v q]; [now inv_ok Hrun|].
    inv_bind Hrun. inv_bind Hrun.
    eapply IH; [|exact Hrun].
    eapply push_edges_bounded; [|exact Hb0]. exact Hst.
Qed.

Lemma pull_edges_bounded net us :
  forall v st st', bounded_state net st -> pull_edges us v st = Ok st' -> bounded_state net st'.
Proof.
  induction us as [|u us IH]; intros v st st' Hst Hrun; simpl in Hrun.
  - now inv_ok Hrun.
  - inv_bind Hrun. apply lookup_ok in Hb. destruct (x =? 0); [now inv_ok Hrun|].
    inv_bind Hrun. apply lookup_ok in Hb0.
    destruct (Dict.get v x0) as [ed|] eqn:Hed; [|eauto].
    destruct (used ed) eqn:Hused; [eauto|].
    inv_bind Hrun. inv_bind Hrun. inv_bind Hrun. apply lookup_ok in Hb3.
    destruct Hst as (Hw & Hall & Hs & Hreq).
    assert (get2 u v (p_aux st) = Some ed) as Hedge
        by (unfold get2; now rewrite Hb0).
    pose proof (bounded_edge_step net _ _ _ _ u v v u _ _ ed _
                  Hw Hall Hs Hreq Hedge Hb Hb1 Hb3) as Hstep.
    destruct (edir ed); (eapply IH; [|exact Hrun]); exact Hstep.
Qed.

Lemma pull_loop_bounded net fuel :
  forall st st', bounded_state net st -> pull_loop fuel st = Ok st' -> bounded_state net st'.
Proof.
  induction fuel as [|fuel IH]; intros st st' Hst Hrun; simpl in Hrun.
  - destruct (p_q st); [now inv_ok Hrun|discriminate].
  - destruct (p_q st) as [|v q]; [now inv_ok Hrun|].
    inv_bind Hrun.
    eapply IH; [|exact Hrun].
    eapply pull_edges_bounded; [|exact Hb]. exact Hst.
Qed.

(** ** Sums over the keys of a dictionary *)

Lemma sorted_nodup {V : Type} (d : Dict.t V) : sorted d -> NoDup (Dict.keys d).
Proof.
  induction d as [|[k v] d IH]; simpl; intros Hs; [constructor|].
  destruct Hs as [Hlt Hs]. constructor; [|auto].
  intros Hin. specialize (Hlt _ Hin). lia.
Qed.

Lemma zsum_map_add (f h : Z -> Z) (l : list Z) :
  zsum (map (fun u => f u + h u) l) = zsum (map f l) + zsum (map h l).
Proof.
  induction l as [|x l IH]; simpl; lia.
Qed.

Lemma zsum_del (k : Z) (d : Dict.t Z) :
  sorted d -> zsum (map snd (Dict.del k d)) = zsum (map snd d) - entry_at 0 k d.
Proof.
  unfold entry_at. induction d as [|[k' v] d IH]; simpl; intros Hs; [reflexivity|].
  destruct (k =? k'); simpl; [lia|]. rewrite IH by apply Hs. lia.
Qed.

Lemma zsum_map_ext (f h : Z -> Z) (l : list Z) :
  (forall x, In x l -> f x = h x) -> zsum (map f l) = zsum (map h l).
Proof.
  induction l as [|x l IH]; simpl; intros H; [reflexivity|].
  rewrite (H x) by now left. rewrite IH; [reflexivity|]. intros; apply H; now right.
Qed.

Lemma sum_selected (l : list Z) :
  forall d : Dict.t Z,
    NoDup l -> sorted d -> (forall k v, In (k, v) d -> 0 <= v) ->
    zsum (map (fun u => entry_at 0 u d) l) <= zsum (map snd d).
Proof.
  induction l as [|u l IH]; intros d Hnd Hs Hpos; simpl.
  - apply zsum_nonneg. intros x Hx. apply in_map_iff in Hx.
    destruct Hx as [[k v] [<- Hin]]. eauto.
  - inversion Hnd as [|? ? Hnot Hnd']; subst.
    assert (zsum (map (fun u0 => entry_at 0 u0 d) l) =
            zsum (map (fun u0 => entry_at 0 u0 (Dict.del u d)) l)) as E.
    { apply zsum_map_ext. intros x Hx. unfold entry_at.
      rewrite get_del_neq; [reflexivity|]. intros ->. contradiction. }
    rewrite E.
    assert (zsum (map (fun u0 => entry_at 0 u0 (Dict.del u d)) l)
            <= zsum (map snd (Dict.del u d))) as Hle.
    { apply IH; [exact Hnd'|now apply sorted_del|].
      intros k v Hin. apply in_del in Hin. eauto. }
    rewrite zsum_del in Hle by exact Hs. lia.
Qed.

Lemma in_cap_le (f : Z -> Z) (n : Z) (aux : graph) :
  (forall u d ed, In (u, d) aux -> Dict.get n d = Some ed -> ecap ed <= f u) ->
  (forall u, 0 <= f u) ->
  in_cap n aux <= zsum (map f (Dict.keys aux)).
Proof.
  intros Hle Hpos. induction aux as [|[u d] aux IH].
  - unfold in_cap; simpl; lia.
  - rewrite in_cap_cons. simpl.
    assert (in_cap n aux <= zsum (map f (Dict.keys aux))) as H.
    { apply IH. intros u' d' ed Hin. apply Hle. now right. }
    pose proof (Hpos u).
    destruct (Dict.get n d) as [ed|] eqn:Hd; [|lia].
    pose proof (Hle u d ed (or_introl eq_refl) Hd). lia.
Qed.

Lemma out_cap_le (f : Z -> Z) (d : Dict.t edge) :
  (forall v ed, In (v, ed) d -> ecap ed <= f v) ->
  out_cap d <= zsum (map f (Dict.keys d)).
Proof.
  unfold out_cap. induction d as [|[v ed] d IH]; simpl; intros Hle; [lia|].
  pose proof (Hle v ed (or_introl eq_refl)).
  assert (zsum (map (fun kv => ecap (snd kv)) d) <= zsum (map f (Dict.keys d))).
  { apply IH. intros; apply Hle; now right. }
  lia.
Qed.

Lemma zsum_map_values {V : Type} (f : V -> Z) (d : Dict.t V) :
  zsum (map snd (Dict.map_values f d)) = zsum (map (fun kv => f (snd kv)) d).
Proof.
  unfold Dict.map_values. rewrite map_map. reflexivity.
Qed.

Lemma capacity_out_sum (n : Z) (net : network) (l : list Z) :
  NoDup l -> sorted2 net -> all2 (fun _ _ a => 0 <= cap a) net ->
  zsum (map (fun u => capacity n u net) l) <= cap_out n net.
Proof.
  intros Hnd Hs Hpos. unfold cap_out.
  destruct (Dict.get n net) as [d|] eqn:Hd.
  - pose proof (sum_selected l (Dict.map_values cap d) Hnd) as H.
    rewrite zsum_map_values in H.
    assert (zsum (map (fun u => capacity n u net) l) =
            zsum (map (fun u => entry_at 0 u (Dict.map_values cap d)) l)) as E.
    { apply zsum_map_ext. intros x _. unfold capacity, entry_at, get2.
      rewrite Hd, get_map_values. destruct (Dict.get x d); reflexivity. }
    rewrite E. apply H.
    + apply sorted_map_values. destruct Hs as [_ Hi]. apply (Hi n). now apply get_in.
    + intros k v Hin. unfold Dict.map_values in Hin. apply in_map_iff in Hin.
      destruct Hin as [[k' a] [E' Hin]]. simpl in E'. inv_ok E'.
      apply (Hpos n d k a); [now apply get_in|exact Hin].
  - assert (zsum (map (fun u => capacity n u net) l) = zsum (map (fun _ => 0) l)) as E.
    { apply zsum_map_ext. intros x _. unfold capacity, get2. now rewrite Hd. }
    rewrite E. clear. induction l; simpl; lia.
Qed.

Lemma capacity_in_sum (n : Z) (net : network) (l : list Z) :
  NoDup l -> sorted2 net -> all2 (fun _ _ a => 0 <= cap a) net ->
  zsum (map (fun u => capacity u n net) l) <= cap_in n net.
Proof.
  intros Hnd Hs Hpos. unfold cap_in.
  set (pick := fun d : Dict.t arc => match Dict.get n d with Some a => cap a | None => 0 end).
  pose proof (sum_selected l (Dict.map_values pick net) Hnd) as H.
  rewrite zsum_map_values in H.
  assert (zsum (map (fun u => capacity u n net) l) =
          zsum (map (fun u => entry_at 0 u (Dict.map_values pick net)) l)) as E.
  { apply zsum_map_ext. intros x _. unfold capacity, entry_at, get2.
    rewrite get_map_values. destruct (Dict.get x net); reflexivity. }
  rewrite E. apply H.
  - apply sorted_map_values. apply Hs.
  - intros k v Hin. unfold Dict.map_values in Hin. apply in_map_iff in Hin.
    destruct Hin as [[k' d] [E' Hin]]. simpl in E'. inv_ok E'.
    unfold pick. destruct (Dict.get n d) as [a|] eqn:Ha; [|lia].
    apply (Hpos k d n a); [exact Hin|now apply get_in].
Qed.

(** ** The capacities of the auxiliary network stay below [maxint] *)

Lemma capacity_nonneg net (aux : graph) (g : delta) (u v : Z) :
  within net aux g -> all2 nonneg_edge aux -> 0 <= capacity u v net.
Proof.
  intros Hw Hall. unfold capacity. destruct (get2 u v net) as [a|] eqn:Ha; [|lia].
  destruct (Hw u v a Ha) as [H1 H2].
  pose proof (up_nonneg aux u v Hall). pose proof (down_nonneg aux u v Hall). lia.
Qed.

Lemma edge_below net (aux : graph) (g : delta) (u v : Z) (ed : edge) :
  within net aux g -> all2 nonneg_edge aux -> all2 (oriented net) aux ->
  get2 u v aux = Some ed ->
  ecap ed <= capacity u v net + capacity v u net.
Proof.
  intros Hw Hall Hor Hed.
  pose proof (capacity_nonneg net aux g u v Hw Hall) as C1.
  pose proof (capacity_nonneg net aux g v u Hw Hall) as C2.
  pose proof (all2_get2 _ _ _ _ _ Hor Hed) as Hdir. unfold oriented in Hdir.
  destruct (edir ed) eqn:Hd; destruct Hdir as [a Ha].
  - destruct (Hw u v a Ha) as [H1 H2].
    pose proof (down_nonneg aux u v Hall).
    assert (up aux u v = ecap ed) as E by (unfold up; now rewrite Hed, Hd).
    unfold capacity at 1. rewrite Ha. lia.
  - destruct (Hw v u a Ha) as [H1 H2].
    pose proof (up_nonneg aux v u Hall).
    assert (down aux v u = ecap ed) as E by (unfold down; now rewrite Hed, Hd).
    unfold capacity at 2. rewrite Ha. lia.
Qed.

Lemma caps_nonneg net (aux : graph) (g : delta) :
  sorted2 net -> within net aux g -> all2 nonneg_edge aux ->
  all2 (fun _ _ a => 0 <= cap a) net.
Proof.
  intros [Hs Hi] Hw Hall u d v a Hu Hv.
  assert (get2 u v net = Some a) as Ha.
  { unfold get2. rewrite (sorted_in_get _ _ _ Hs Hu). apply sorted_in_get; eauto. }
  pose proof (capacity_nonneg net aux g u v Hw Hall) as H.
  unfold capacity in H. now rewrite Ha in H.
Qed.

Lemma in_cap_below net (aux : graph) (g : delta) (n : Z) :
  sorted2 net -> sorted2 aux ->
  within net aux g -> all2 nonneg_edge aux -> all2 (oriented net) aux ->
  in_cap n aux <= cap_in n net + cap_out n net.
Proof.
  intros Hnet Hs Hw Hall Hor.
  pose proof (caps_nonneg net aux g Hnet Hw Hall) as Hpos.
  pose proof (sorted_nodup aux (proj1 Hs)) as Hnd.
  pose proof (capacity_in_sum n net _ Hnd Hnet Hpos) as Hci.
  pose proof (capacity_out_sum n net _ Hnd Hnet Hpos) as Hco.
  pose proof (in_cap_le (fun u => capacity u n net + capacity n u net) n aux) as H.
  rewrite zsum_map_add in H.
  assert (in_cap n aux <=
          zsum (map (fun u => capacity u n net) (Dict.keys aux)) +
          zsum (map (fun u => capacity n u net) (Dict.keys aux))); [|lia].
  apply H.
  - intros u d ed Hin Hd. eapply edge_below; eauto.
    unfold get2. now rewrite (sorted_in_get _ _ _ (proj1 Hs) Hin).
  - intros u.
    pose proof (capacity_nonneg net aux g u n Hw Hall).
    pose proof (capacity_nonneg net aux g n u Hw Hall). lia.
Qed.

Lemma out_cap_at_below net (aux : graph) (g : delta) (n : Z) :
  sorted2 net -> sorted2 aux ->
  within net aux g -> all2 nonneg_edge aux -> all2 (oriented net) aux ->
  out_cap_at n aux <= cap_in n net + cap_out n net.
Proof.
  intros Hnet Hs Hw Hall Hor.
  pose proof (caps_nonneg net aux g Hnet Hw Hall) as Hpos.
  unfold out_cap_at. destruct (Dict.get n aux) as [d|] eqn:Hd.
  - assert (sorted d) as Hsd by (destruct Hs as [_ Hi]; apply (Hi n); now apply get_in).
    pose proof (sorted_nodup d Hsd) as Hnd.
    pose proof (capacity_in_sum n net _ Hnd Hnet Hpos) as Hci.
    pose proof (capacity_out_sum n net _ Hnd Hnet Hpos) as Hco.
    pose proof (out_cap_le (fun v => capacity n v net + capacity v n net) d) as H.
    rewrite zsum_map_add in H.
    assert (out_cap d <=
            zsum (map (fun v => capacity n v net) (Dict.keys d)) +
            zsum (map (fun v => capacity v n net) (Dict.keys d))); [|lia].
    apply H. intros v ed Hin. eapply edge_below; eauto.
    unfold get2. rewrite Hd. now apply sorted_in_get.
  - pose proof (capacity_in_sum n net [] (NoDup_nil _) Hnet Hpos) as H1.
    pose proof (capacity_out_sum n net [] (NoDup_nil _) Hnet Hpos) as H2.
    simpl in H1, H2. lia.
Qed.

(** ** An iteration of the blocking-flow loop keeps the invariant *)

Section BlockingFlow.

Variable net : network.
Variables source sink : Z.
Hypothesis net_sorted : sorted2 net.
Hypothesis source_below : below_maxint source net.
Hypothesis sink_below : below_maxint sink net.

Lemma blocking_step_inv fuel aux g r :
  phase_inv net aux g ->
  blocking_step fuel source sink aux g = Ok r ->
  match r with
  | inl (aux', g') | inr (aux', g') => phase_inv net aux' g'
  end.
Proof.
  intros (Hs & Hsg & Hor & Harc & Hall & Hw) Hrun. unfold blocking_step in Hrun.
  inv_bind Hrun. destruct x as [[ret aux1] thr1].
  assert (covers aux (calc_throughput source sink aux)) as Hc.
  { apply calc_throughput_covers; [apply Hs| |].
    - pose proof (in_cap_below net aux g source net_sorted Hs Hw Hall Hor).
      unfold below_maxint in source_below. lia.
    - pose proof (out_cap_at_below net aux g sink net_sorted Hs Hw Hall Hor).
      unfold below_maxint in sink_below. lia. }
  destruct (delete_zero_throughput_covers _ _ _ _ _ _ _ _ Hs Hc Hb) as [Hs1 Hc1].
  pose proof (delete_zero_throughput_all2 _ _ _ _ _ _ _ _ _ Hor Hb) as Hor1.
  pose proof (delete_zero_throughput_all2 _ _ _ _ _ _ _ _ _ Hall Hb) as Hall1.
  pose proof (delete_zero_throughput_within net g _ _ _ _ _ _ _ _ Hs Hall Hw Hb) as Hw1.
  assert (phase_inv net aux1 g) as Hinv1 by (unfold phase_inv; auto 10).
  destruct (negb ret); [inv_ok Hrun; exact Hinv1|].
  destruct (negb (Dict.mem source aux1) || negb (Dict.mem sink aux1));
    [inv_ok Hrun; exact Hinv1|].
  pose proof (select_min_nonneg aux1 thr1 Hall1 Hc1) as Hh.
  destruct (select_min thr1) as [min_node h]. simpl in Hh.
  inv_bind Hrun. inv_bind Hrun. inv_bind Hrun. inv_ok Hrun.
  unfold push in Hb1. unfold pull in Hb2.
  assert (recording net x0) as Hrec0.
  { eapply push_loop_recording; [|exact Hb1]. unfold recording; simpl; auto. }
  assert (bounded_state net x0) as Hbd0.
  { eapply push_loop_bounded; [|exact Hb1].
    unfold bounded_state; simpl.
    split; [exact Hw1|]. split; [exact Hall1|]. split; [exact Hs1|].
    now apply nonneg_req_init. }
  assert (recording net x1) as Hrec1.
  { eapply pull_loop_recording; [|exact Hb2]. exact Hrec0. }
  assert (bounded_state net x1) as Hbd1.
  { eapply pull_loop_bounded; [|exact Hb2].
    destruct Hbd0 as (H1 & H2 & H3 & H4).
    unfold bounded_state; simpl.
    split; [exact H1|]. split; [exact H2|]. split; [exact H3|].
    now apply nonneg_req_init. }
  destruct Hrec1 as (R1 & R2 & R3). destruct Hbd1 as (B1 & B2 & B3 & B4).
  unfold phase_inv. auto 10.
Qed.

Lemma blocking_loop_inv n fuel :
  forall aux g aux' g',
    phase_inv net aux g ->
    blocking_loop n fuel source sink aux g = Ok (aux', g') ->
    phase_inv net aux' g'.
Proof.
  induction n as [|n IH]; intros aux g aux' g' Hinv Hrun; simpl in Hrun.
  - discriminate.
  - inv_bind Hrun.
    pose proof (blocking_step_inv _ _ _ _ Hinv Hb) as Hstep.
    destruct x as [[a1 g1]|[a1 g1]].
    + inv_ok Hrun. exact Hstep.
    + eapply IH; eauto.
Qed.

End BlockingFlow.

(** ** The layered network at the start of a phase *)

Lemma sorted2_ensure {V : Type} (k : Z) (d : Dict.t (Dict.t V)) :
  sorted2 d -> sorted2 (ensure k d).
Proof.
  intros Hs. unfold ensure. destruct (Dict.mem k d); [exact Hs|].
  apply sorted2_set; [exact Hs|exact I].
Qed.

Section Residual.

Variable net : network.
Hypothesis net_sorted : sorted2 net.

Lemma residual_edge_resid now arcs e a st st' :
  Dict.get now net = Some arcs -> In (e, a) arcs ->
  all2 (resid net) (r_nr st) /\ sorted2 (r_nr st) ->
  residual_edge now st (e, a) = Ok st' ->
  all2 (resid net) (r_nr st') /\ sorted2 (r_nr st').
Proof.
  intros Hnow Hin [Hall Hs] Hrun.
  assert (get2 now e net = Some a) as Harc.
  { unfold get2. rewrite Hnow. apply sorted_in_get; [|exact Hin].
    destruct net_sorted as [_ Hi]. apply (Hi now). now apply get_in. }
  unfold residual_edge in Hrun.
  inv_bind Hrun. inv_bind Hrun. inv_ok Hrun. simpl.
  assert (sorted2 (ensure e (ensure now (r_nr st)))) as Hs0
      by (do 2 apply sorted2_ensure; exact Hs).
  assert (all2 (resid net) x /\ sorted2 x) as [Hx Hsx].
  { destruct (cap a - flow a >? 0).
    - split; [|eapply sorted2_set2; eauto].
      eapply all2_set2; [| |exact Hb]; [now do 2 apply all2_ensure|].
      unfold resid; simpl. eauto.
    - inv_ok Hb. split; [now do 2 apply all2_ensure|exact Hs0]. }
  destruct (flow a >? 0).
  - split; [|eapply sorted2_set2; eauto].
    eapply all2_set2; [exact Hx| |exact Hb0]. unfold resid; simpl. eauto.
  - inv_ok Hb0. auto.
Qed.

Lemma residual_loop_resid fuel st nr :
  all2 (resid net) (r_nr st) /\ sorted2 (r_nr st) ->
  residual_loop fuel net st = Ok nr ->
  all2 (resid net) nr /\ sorted2 nr.
Proof.
  revert st. induction fuel as [|fuel IH]; intros st Hall Hrun; simpl in Hrun.
  - destruct (r_que st); [now inv_ok Hrun|discriminate].
  - destruct (r_que st) as [|now que]; [now inv_ok Hrun|].
    inv_bind Hrun. apply lookup_ok in Hb. inv_bind Hrun.
    apply (IH x0); [|exact Hrun].
    revert Hb0.
    apply (for_each_inv (fun s => all2 (resid net) (r_nr s) /\ sorted2 (r_nr s)));
      [|exact Hall].
    intros s [e a] s' Hin Hs Hstep. eapply residual_edge_resid; eauto.
Qed.

End Residual.

Section AuxiliaryCopies.

Variable P : Z -> Z -> edge -> Prop.
Hypothesis P_copy : forall u v ed, P u v ed -> P u v (mkEdge (ecap ed) (edir ed) false).
Variable nr : graph.
Hypothesis nr_all : all2 P nr.

Lemma auxiliary_loop_all2 fuel sink st st' :
  all2 P (a_na st) ->
  auxiliary_loop fuel sink nr st = Ok st' ->
  all2 P (a_na st').
Proof.
  revert st. induction fuel as [|fuel IH]; intros st Hall Hrun; simpl in Hrun.
  - destruct (a_que st); [now inv_ok Hrun|discriminate].
  - destruct (a_que st) as [|now que]; [now inv_ok Hrun|].
    inv_bind Hrun. apply lookup_ok in Hb. inv_bind Hrun.
    apply (IH x0); [|exact Hrun].
    revert Hb0. apply (for_each_inv (fun s => all2 P (a_na s))).
    + intros s [e ed] s' Hin Hs Hstep. unfold auxiliary_edge in Hstep.
      destruct (Dict.mem e (a_vl s) && negb (e =? sink)); [now inv_ok Hstep|].
      inv_bind Hstep. inv_bind Hstep. inv_ok Hstep. simpl.
      eapply all2_set2; [exact Hs| |exact Hb0].
      apply P_copy. apply get_in in Hb. exact (nr_all _ _ _ _ Hb Hin).
    + simpl. apply all2_set; [exact Hall|intros ? ? []].
Qed.

Lemma build_auxiliary_all2 fuel source sink na :
  build_auxiliary fuel source sink nr = Ok (Some na) -> all2 P na /\ sorted2 na.
Proof.
  unfold build_auxiliary. intros Hrun. inv_bind Hrun.
  assert (layered sink x) as (Hs & _).
  { eapply auxiliary_loop_layered; [|exact Hb].
    unfold layered; simpl. split; [apply sorted2_nil|].
    split; [|split; [discriminate|discriminate]].
    intros y [<-|[]]. unfold Dict.mem; simpl. now rewrite Z.eqb_refl. }
  pose proof (auxiliary_loop_all2 fuel sink (mkA [] [source] [(source, 0)] [source]) x
                (all2_nil P) Hb) as Hall.
  unfold truncate in Hrun.
  destruct (negb (Dict.mem sink (a_na x))); [discriminate|].
  inv_bind Hrun. destruct (existsb _ (a_vl x)); inv_ok Hrun.
  split; [now apply all2_delete_nodes|now apply sorted2_delete_nodes].
Qed.

End AuxiliaryCopies.

Lemma phase_inv_init net fuel source sink aux :
  sorted2 net -> feasible net ->
  build_level_graph fuel source sink net = Ok (Some aux) ->
  phase_inv net aux [].
Proof.
  intros Hnet Hfeas Hrun.
  pose proof (build_level_graph_oriented _ _ _ _ _ Hrun) as Hor.
  unfold build_level_graph in Hrun. inv_bind Hrun.
  destruct (residual_loop_resid net Hnet fuel (mkR [] [source] [source]) x
              (conj (all2_nil _) sorted2_nil) Hb) as [Hres _].
  destruct (build_auxiliary_all2 (resid net) (fun u v ed H => H) x Hres _ _ _ _ Hrun)
    as [Hall Hs].
  unfold phase_inv.
  split; [exact Hs|]. split; [apply sorted2_nil|]. split; [exact Hor|].
  split; [apply all2_nil|]. split.
  - intros u d v ed Hu Hv. pose proof (Hall u d v ed Hu Hv) as H.
    unfold resid in H. unfold nonneg_edge.
    destruct (edir ed); destruct H as [a [Ha E]]; pose proof (Hfeas _ _ _ Ha); lia.
  - intros u v a Ha. pose proof (Hfeas _ _ _ Ha) as Hf.
    assert (delta_at u v [] = 0) as -> by reflexivity.
    split.
    + unfold up. destruct (get2 u v aux) as [ed|] eqn:Hed; [|lia].
      pose proof (all2_get2 _ _ _ _ _ Hall Hed) as H. unfold resid in H.
      destruct (edir ed); [|lia]. destruct H as [a' [Ha' E]].
      rewrite Ha in Ha'. inv_ok Ha'. lia.
    + unfold down. destruct (get2 v u aux) as [ed|] eqn:Hed; [|lia].
      pose proof (all2_get2 _ _ _ _ _ Hall Hed) as H. unfold resid in H.
      destruct (edir ed); [lia|]. destruct H as [a' [Ha' E]].
      rewrite Ha in Ha'. inv_ok Ha'. lia.
Qed.

(** ** [flow_add] keeps the shape and the capacities of the network *)

Lemma map_values_set {V W : Type} (f : V -> W) (k : Z) (v v0 : V) (d : Dict.t V) :
  sorted d -> Dict.get k d = Some v0 -> f v = f v0 ->
  Dict.map_values f (Dict.set k v d) = Dict.map_values f d.
Proof.
  induction d as [|[k' v'] d IH]; simpl; [discriminate|].
  intros [Hlt Hs] Hg Hf. destruct (k =? k') eqn:Hk.
  - apply Z.eqb_eq in Hk; subst k'. inv_ok Hg.
    rewrite Z.ltb_irrefl. simpl. now rewrite Hf.
  - apply get_in in Hg.
    assert (In k (Dict.keys d)) as Hin by (apply in_map_iff; exists (k, v0); auto).
    specialize (Hlt _ Hin).
    destruct (k <? k') eqn:Hl; [apply Z.ltb_lt in Hl; lia|].
    simpl. f_equal. fold (Dict.map_values f (Dict.set k v d)). fold (Dict.map_values f d).
    apply IH; auto. eapply sorted_in_get; eauto.
Qed.

Lemma add_flow_caps u (net net' : network) (vx : Z * Z) :
  sorted2 net -> add_flow u net vx = Ok net' ->
  sorted2 net' /\ caps net' = caps net.
Proof.
  intros Hs Hrun. unfold add_flow in Hrun. inv_bind Hrun. apply lookup_ok in Hb.
  split; [eapply sorted2_set2; eauto|].
  unfold set2 in Hrun. unfold get2 in Hb.
  destruct (Dict.get u net) as [inner|] eqn:Hu; simpl in Hrun; [|discriminate].
  inv_ok Hrun. unfold caps.
  apply (map_values_set _ _ _ inner); [apply Hs|exact Hu|].
  apply (map_values_set cap _ _ x); [|exact Hb|reflexivity].
  destruct Hs as [_ Hi]. apply (Hi u). now apply get_in.
Qed.

Lemma flow_add_caps (g : delta) (net net' : network) :
  sorted2 net -> flow_add net g = Ok net' ->
  sorted2 net' /\ caps net' = caps net.
Proof.
  intros Hs. unfold flow_add.
  apply (for_each_inv (fun n => sorted2 n /\ caps n = caps net)); [|auto].
  intros n [u d] n' _ Hn.
  apply (for_each_inv (fun m => sorted2 m /\ caps m = caps net)); [|exact Hn].
  intros m vx m' _ [Hm Em] Hstep.
  destruct (add_flow_caps _ _ _ _ Hm Hstep) as [H1 H2]. split; [exact H1|congruence].
Qed.

Lemma cap_out_caps (n : Z) (net : network) :
  cap_out n net =
  match Dict.get n (caps net) with Some d => zsum (map snd d) | None => 0 end.
Proof.
  unfold cap_out, caps. rewrite get_map_values.
  destruct (Dict.get n net) as [d|]; simpl; [|reflexivity].
  now rewrite zsum_map_values.
Qed.

Lemma cap_in_caps (n : Z) (net : network) :
  cap_in n net = zsum (map (fun ud => entry_at 0 n (snd ud)) (caps net)).
Proof.
  unfold cap_in, caps, Dict.map_values. rewrite map_map. simpl.
  apply f_equal. apply map_ext. intros [u d]. simpl. unfold entry_at.
  fold (Dict.map_values cap d). rewrite get_map_values.
  destruct (Dict.get n d); reflexivity.
Qed.

Lemma below_maxint_caps (n : Z) (net net' : network) :
  caps net' = caps net -> below_maxint n net -> below_maxint n net'.
Proof.
  unfold below_maxint. rewrite !cap_out_caps, !cap_in_caps. now intros ->.
Qed.

(** ** The driver keeps every flow within its capacity *)

Lemma phase_well_formed fuel source sink net net' :
  well_formed source sink net ->
  phase fuel source sink net = Ok (Some net') ->
  well_formed source sink net'.
Proof.
  intros (Hs & Hfeas & Hsrc & Hsnk) Hrun. unfold phase in Hrun.
  inv_bind Hrun. destruct x as [aux|]; [|discriminate].
  destruct aux as [|p aux]; [discriminate|].
  inv_bind Hrun. destruct x as [aux' g].
  inv_bind Hrun. inv_ok Hrun.
  pose proof (phase_inv_init _ _ _ _ _ Hs Hfeas Hb) as Hinit.
  pose proof (blocking_loop_inv net source sink Hs Hsrc Hsnk _ _ _ _ _ _ Hinit Hb0)
    as (_ & Hsg & _ & Harc & Hall & Hw).
  destruct (flow_add_spec g net Hsg Harc) as [net1 [Hadd Hspec]].
  rewrite Hadd in Hb1. inv_ok Hb1.
  destruct (flow_add_caps _ _ _ Hs Hadd) as [Hs' Hcaps].
  split; [exact Hs'|]. split; [|split; eapply below_maxint_caps; eauto].
  intros u v a Ha. rewrite Hspec in Ha.
  destruct (get2 u v net) as [a0|] eqn:Ha0; simpl in Ha; [|discriminate].
  inv_ok Ha. unfold bump; simpl.
  destruct (Hw u v a0 Ha0) as [H1 H2].
  pose proof (up_nonneg aux' u v Hall). pose proof (down_nonneg aux' u v Hall). lia.
Qed.

Lemma mpm_loop_well_formed n fuel source sink :
  forall net k net' k',
    well_formed source sink net ->
    mpm_loop n fuel source sink net k = Ok (net', k') ->
    well_formed source sink net'.
Proof.
  induction n as [|n IH]; intros net k net' k' Hwf Hrun; simpl in Hrun.
  - discriminate.
  - inv_bind Hrun. destruct x as [net1|].
    + eapply IH; [|exact Hrun]. eapply phase_well_formed; eauto.
    + now inv_ok Hrun.
Qed.

Lemma sortedb_sound {V : Type} (d : Dict.t V) : sortedb d = true -> sorted d.
Proof.
  induction d as [|[k v] d IH]; simpl; [auto|].
  intros H. apply andb_true_iff in H. destruct H as [H1 H2]. split; [|auto].
  intros k' Hk'. rewrite forallb_forall in H1. apply Z.ltb_lt. auto.
Qed.

Lemma sorted2b_sound {V : Type} (d : Dict.t (Dict.t V)) : sorted2b d = true -> sorted2 d.
Proof.
  unfold sorted2b. intros H. apply andb_true_iff in H. destruct H as [H1 H2].
  split; [now apply sortedb_sound|].
  intros u inner Hin. rewrite forallb_forall in H2.
  apply sortedb_sound. exact (H2 _ Hin).
Qed.

Lemma feasibleb_sound (net : network) : feasibleb net = true -> feasible net.
Proof.
  unfold feasibleb. intros H u v a Ha.
  destruct (get2_in _ _ _ _ Ha) as [inner [Hu Hv]].
  rewrite forallb_forall in H. specialize (H _ Hu). simpl in H.
  rewrite forallb_forall in H. specialize (H _ Hv). simpl in H.
  apply andb_true_iff in H. destruct H as [H1 H2].
  apply Z.leb_le in H1, H2. lia.
Qed.




(** ** More fuel does not change a result *)

Lemma bind_mono {A C : Type} (m m' : result A) (k k' : A -> result C) (c : C) :
  (forall a, m = Ok a -> m' = Ok a) ->
  (forall a, k a = Ok c -> k' a = Ok c) ->
  bind m k = Ok c -> bind m' k' = Ok c.
Proof.
  intros Hm Hk H. inv_bind H. rewrite (Hm _ Hb). simpl. auto.
Qed.

Lemma residual_loop_mono n :
  forall m net st r,
    (n <= m)%nat -> residual_loop n net st = Ok r -> residual_loop m net st = Ok r.
Proof.
  induction n as [|n IH]; intros m net st r Hle H.
  - destruct m; simpl in *; destruct (r_que st); congruence.
  - destruct m as [|m]; [lia|]. simpl in *. destruct (r_que st); [exact H|].
    revert H. apply bind_mono; [auto|]. intros arcs.
    apply bind_mono; [auto|]. intros st'. apply IH. lia.
Qed.

Lemma auxiliary_loop_mono n :
  forall m sink nr st r,
    (n <= m)%nat -> auxiliary_loop n sink nr st = Ok r -> auxiliary_loop m sink nr st = Ok r.
Proof.
  induction n as [|n IH]; intros m sink nr st r Hle H.
  - destruct m; simpl in *; destruct (a_que st); congruence.
  - destruct m as [|m]; [lia|]. simpl in *. destruct (a_que st); [exact H|].
    revert H. apply bind_mono; [auto|]. intros edges.
    apply bind_mono; [auto|]. intros st'. apply IH. lia.
Qed.

Lemma build_level_graph_mono n m source sink net r :
  (n <= m)%nat ->
  build_level_graph n source sink net = Ok r -> build_level_graph m source sink net = Ok r.
Proof.
  intros Hle. unfold build_level_graph, build_residual_graph, build_auxiliary.
  apply bind_mono; [intros a; now apply residual_loop_mono|].
  intros nr. apply bind_mono; [intros a; now apply auxiliary_loop_mono|auto].
Qed.

Lemma delete_zero_throughput_mono n :
  forall m source sink aux thr r,
    (n <= m)%nat ->
    delete_zero_throughput n source sink aux thr = Ok r ->
    delete_zero_throughput m source sink aux thr = Ok r.
Proof.
  induction n as [|n IH]; intros m source sink aux thr r Hle H; [discriminate|].
  destruct m as [|m]; [lia|]. simpl in *.
  revert H. apply bind_mono; [auto|]. intros z.
  destruct (negb (z_go z)); [auto|]. destruct (z_has_zero z); [|auto].
  apply IH. lia.
Qed.

Lemma push_loop_mono n :
  forall m st r, (n <= m)%nat -> push_loop n st = Ok r -> push_loop m st = Ok r.
Proof.
  induction n as [|n IH]; intros m st r Hle H.
  - destruct m; simpl in *; destruct (p_q st); congruence.
  - destruct m as [|m]; [lia|]. simpl in *. destruct (p_q st); [exact H|].
    revert H. apply bind_mono; [auto|]. intros outs.
    apply bind_mono; [auto|]. intros st'. apply IH. lia.
Qed.

Lemma pull_loop_mono n :
  forall m st r, (n <= m)%nat -> pull_loop n st = Ok r -> pull_loop m st = Ok r.
Proof.
  induction n as [|n IH]; intros m st r Hle H.
  - destruct m; simpl in *; destruct (p_q st); congruence.
  - destruct m as [|m]; [lia|]. simpl in *. destruct (p_q st); [exact H|].
    revert H. apply bind_mono; [auto|]. intros st'. apply IH. lia.
Qed.

Lemma blocking_step_mono n m source sink aux g r :
  (n <= m)%nat ->
  blocking_step n source sink aux g = Ok r -> blocking_step m source sink aux g = Ok r.
Proof.
  intros Hle. unfold blocking_step.
  apply bind_mono; [intros a; now apply delete_zero_throughput_mono|].
  intros [[ret aux1] thr1].
  destruct (negb ret); [auto|].
  destruct (negb (Dict.mem source aux1) || negb (Dict.mem sink aux1)); [auto|].
  destruct (select_min thr1) as [min_node h].
  apply bind_mono; [auto|]. intros y.
  apply bind_mono; [intros a; now apply push_loop_mono|]. intros st.
  apply bind_mono; [intros a; now apply pull_loop_mono|auto].
Qed.

Lemma blocking_loop_mono n :
  forall n' m m' source sink aux g r,
    (n <= n')%nat -> (m <= m')%nat ->
    blocking_loop n m source sink aux g = Ok r ->
    blocking_loop n' m' source sink aux g = Ok r.
Proof.
  induction n as [|n IH]; intros n' m m' source sink aux g r Hn Hm H; [discriminate|].
  destruct n' as [|n']; [lia|]. simpl in *.
  revert H. apply bind_mono; [intros a; now apply blocking_step_mono|].
  intros [done|[aux' g']]; [auto|]. apply IH; lia.
Qed.

Lemma phase_mono n m source sink net r :
  (n <= m)%nat -> phase n source sink net = Ok r -> phase m source sink net = Ok r.
Proof.
  intros Hle. unfold phase, construct_blocking_flow.
  apply bind_mono; [intros a; now apply build_level_graph_mono|].
  intros [[|p aux]|]; auto.
  apply bind_mono; [intros a; now apply blocking_loop_mono|auto].
Qed.

Lemma mpm_loop_mono n :
  forall n' m m' source sink net k r,
    (n <= n')%nat -> (m <= m')%nat ->
    mpm_loop n m source sink net k = Ok r ->
    mpm_loop n' m' source sink net k = Ok r.
Proof.
  induction n as [|n IH]; intros n' m m' source sink net k r Hn Hm H; [discriminate|].
  destruct n' as [|n']; [lia|]. simpl in *.
  revert H. apply bind_mono; [intros a; now apply phase_mono|].
  intros [net'|]; [|auto]. apply IH; lia.
Qed.

Lemma mpm_mono n m source sink net r :
  (n <= m)%nat -> mpm n source sink net = Ok r -> mpm m source sink net = Ok r.
Proof.
  intros Hle. unfold mpm.
  apply bind_mono; [intros a; apply mpm_loop_mono; exact Hle|auto].
Qed.

Lemma mpm_phases_mono n m source sink net r :
  (n <= m)%nat ->
  mpm_phases n source sink net = Ok r -> mpm_phases m source sink net = Ok r.
Proof.
  intros Hle. unfold mpm_phases.
  apply bind_mono; [intros a; apply mpm_loop_mono; exact Hle|auto].
Qed.

(** ** The driver on concrete networks *)

Lemma mpm_value_unique fuel fuel' source sink net r r' :
  mpm fuel source sink net = Ok r -> mpm fuel' source sink net = Ok r' -> r = r'.
Proof.
  intros H H'.
  apply (mpm_mono _ (Nat.max fuel fuel')) in H; [|lia].
  apply (mpm_mono _ (Nat.max fuel fuel')) in H'; [|lia].
  congruence.
Qed.

(** C2: on the three networks of the scenarios the driver returns the values
    3, 20 and 2: with 50 units of fuel or more it returns them, and no
    amount of fuel makes it return another value. *)
Theorem mpm_scenarios :
  (forall fuel, exists net, mpm (50 + fuel) 0 4 scenario_a = Ok (net, 3)) /\
  (forall fuel, exists net, mpm (50 + fuel) 0 3 scenario_b = Ok (net, 20)) /\
  (forall fuel, exists net, mpm (50 + fuel) 0 3 scenario_c = Ok (net, 2)) /\
  (forall fuel net value, mpm fuel 0 4 scenario_a = Ok (net, value) -> value = 3) /\
  (forall fuel net value, mpm fuel 0 3 scenario_b = Ok (net, value) -> value = 20) /\
  (forall fuel net value, mpm fuel 0 3 scenario_c = Ok (net, value) -> value = 2).
Proof.
  assert (exists net, mpm 50 0 4 scenario_a = Ok (net, 3)) as [na Ha]
      by (eexists; vm_compute; reflexivity).
  assert (exists net, mpm 50 0 3 scenario_b = Ok (net, 20)) as [nb Hb]
      by (eexists; vm_compute; reflexivity).
  assert (exists net, mpm 50 0 3 scenario_c = Ok (net, 2)) as [nc Hc]
      by (eexists; vm_compute; reflexivity).
  repeat split.
  - intros fuel. exists na. apply (mpm_mono 50); [lia|exact Ha].
  - intros fuel. exists nb. apply (mpm_mono 50); [lia|exact Hb].
  - intros fuel. exists nc. apply (mpm_mono 50); [lia|exact Hc].
  - intros fuel net value H. pose proof (mpm_value_unique _ _ _ _ _ _ _ H Ha). congruence.
  - intros fuel net value H. pose proof (mpm_value_unique _ _ _ _ _ _ _ H Hb). congruence.
  - intros fuel net value H. pose proof (mpm_value_unique _ _ _ _ _ _ _ H Hc). congruence.
Qed.

Lemma mpm_scenarios_witness :
  mpm 50 0 3 scenario_c = Ok (chain_final, 2) /\ 2 = 2.
Proof.
  assert (mpm 50 0 3 scenario_c = Ok (chain_final, 2)) as H by (vm_compute; reflexivity).
  split; [exact H|].
  exact (proj2 (proj2 (proj2 (proj2 (proj2 mpm_scenarios)))) 50%nat chain_final 2 H).
Defined.

(** C1: with source 1 and sink 2 on [sink_with_exit] the driver returns 3,
    the flow that leaves the source, while the cut that has every node but
    the sink on the source side has capacity 2: the returned value is larger
    than the capacity of a cut, so it is not the capacity of a minimum cut. *)
Theorem mpm_value_above_cut :
  forall fuel,
  exists net,
    mpm (50 + fuel) 1 2 sink_with_exit = Ok (net, 3) /\
    outflow 1 net = 3 /\
    cut_capacity [0; 1; 3] sink_with_exit = 2.
Proof.
  intros fuel.
  assert (exists net, mpm 50 1 2 sink_with_exit = Ok (net, 3) /\ outflow 1 net = 3)
    as [net [H1 H2]]
      by (eexists; split; [vm_compute; reflexivity|vm_compute; reflexivity]).
  exists net. split; [apply (mpm_mono 50); [lia|exact H1]|].
  split; [exact H2|vm_compute; reflexivity].
Qed.

(** C4: with source 0 and sink 3 on [sink_on_cycle] the driver returns a
    network in which one unit enters node 1 and two units leave it. *)
Theorem mpm_breaks_conservation :
  forall fuel,
  exists net,
    mpm (50 + fuel) 0 3 sink_on_cycle = Ok (net, 10) /\
    inflow 1 net = 1 /\ outflow 1 net = 2.
Proof.
  intros fuel.
  assert (exists net, mpm 50 0 3 sink_on_cycle = Ok (net, 10) /\
                      inflow 1 net = 1 /\ outflow 1 net = 2)
    as [net [H1 H2]]
      by (eexists; split; [vm_compute; reflexivity|split; vm_compute; reflexivity]).
  exists net. split; [apply (mpm_mono 50); [lia|exact H1]|exact H2].
Qed.

(** C5: when the source has no outgoing arc the residual graph has no entry
    for it and the driver raises [KeyError], whatever the fuel. *)
Theorem mpm_source_without_arcs :
  forall fuel, mpm (S fuel) 0 1 source_without_arcs = Raise KeyError.
Proof.
  intros fuel; destruct fuel; reflexivity.
Qed.

Lemma pull_mirror_loop_mono n :
  forall m st r,
    (n <= m)%nat -> pull_mirror_loop n st = Ok r -> pull_mirror_loop m st = Ok r.
Proof.
  induction n as [|n IH]; intros m st r Hle H.
  - destruct m; simpl in *; destruct (p_q st); congruence.
  - destruct m as [|m]; [lia|]. simpl in *. destruct (p_q st); [exact H|].
    revert H. apply bind_mono; [auto|]. intros st'. apply IH. lia.
Qed.

(** C6: the network [k3] has no flow, no self-loop, no opposite arcs, no arc
    into the source or out of the sink, and nine nodes; the driver returns on it, with the value 9, after nine phases,
    one more than the node count minus one. *)
Theorem mpm_nine_phases_on_nine_nodes :
  plain k3 = true /\ ends_apart 0 8 k3 = true /\
  length (Dict.keys k3) = 9%nat /\
  forall fuel,
    mpm_phases (50 + fuel) 0 8 k3 = Ok 9%nat /\
    exists net', mpm (50 + fuel) 0 8 k3 = Ok (net', 9).
Proof.
  split; [vm_compute; reflexivity|]. split; [vm_compute; reflexivity|].
  split; [reflexivity|].
  intros fuel. split.
  - apply (mpm_phases_mono 50); [lia|]. vm_compute. reflexivity.
  - assert (exists net', mpm 50 0 8 k3 = Ok (net', 9)) as [net' H]
        by (eexists; vm_compute; reflexivity).
    exists net'. apply (mpm_mono 50); [lia|exact H].
Qed.

Lemma ring_walks (v : Z) (n : nat) :
  walk ring_residual 0 v n ->
  (v = 0 /\ n = 0%nat) \/ (v = 1 /\ (1 <= n)%nat) \/
  (v = 2 /\ (2 <= n)%nat) \/ (v = 3 /\ (3 <= n)%nat).
Proof.
  intros H. remember 0 as s eqn:Hs. induction H as [u|u v w n ed Hw IH Hed].
  - left. split; reflexivity.
  - specialize (IH Hs). subst u. right.
    destruct (get2_in _ _ _ _ Hed) as [inner [Hu Hv]]. unfold ring_residual in Hu.
    repeat (destruct Hu as [Hu|Hu];
            [inversion Hu; subst; clear Hu; destruct Hv as [Hv|[]]; inversion Hv; subst;
             clear Hv|]);
      [| | | |destruct Hu].
    + left. split; [reflexivity|lia].
    + right. left. split; [reflexivity|]. destruct IH as [[E _]|[[_ E]|[[E _]|[E _]]]]; lia.
    + right. right. split; [reflexivity|].
      destruct IH as [[E _]|[[E _]|[[_ E]|[E _]]]]; lia.
    + left. split; [reflexivity|lia].
Qed.

(** C7: for the network [ring], with source 0 and sink 1, the layered
    network that [build_auxiliary] returns is the whole residual graph.  It
    has the cycle 1 -> 2 -> 3 -> 1; the nodes 1, 2, 3 are on the layers 1, 2,
    3 of the breadth-first layering from the source, so the retained edge
    3 -> 1 goes from layer 3 to layer 1; and the nodes 2 and 3 remain though
    their layers are above the layer 1 of the sink. *)
Theorem auxiliary_keeps_a_cycle :
  plain ring = true /\
  forall fuel,
    build_residual_graph (5 + fuel) 0 1 ring = Ok ring_residual /\
    build_auxiliary (5 + fuel) 0 1 ring_residual = Ok (Some ring_residual) /\
    walk ring_residual 1 1 3 /\
    layer_of ring_residual 0 1 1 /\
    layer_of ring_residual 0 2 2 /\
    layer_of ring_residual 0 3 3 /\
    get2 3 1 ring_residual = Some (mkEdge 1 F false) /\
    Dict.mem 2 ring_residual = true /\ Dict.mem 3 ring_residual = true.
Proof.
  split; [vm_compute; reflexivity|]. intros fuel.
  assert (walk ring_residual 0 1 1) as W1
      by (eapply walk_step; [apply walk_here|reflexivity]).
  assert (walk ring_residual 0 2 2) as W2 by (eapply walk_step; [exact W1|reflexivity]).
  assert (walk ring_residual 0 3 3) as W3 by (eapply walk_step; [exact W2|reflexivity]).
  split.
  { unfold build_residual_graph. apply (residual_loop_mono 5); [lia|].
    vm_compute. reflexivity. }
  split.
  { unfold build_auxiliary.
    apply (bind_mono (auxiliary_loop 5 1 ring_residual (mkA [] [0] [(0, 0)] [0])) _
             (truncate 1) (truncate 1)).
    - intros a. apply auxiliary_loop_mono. lia.
    - auto.
    - vm_compute. reflexivity. }
  split.
  { assert (walk ring_residual 1 2 1) as C1
        by (eapply walk_step; [apply walk_here|reflexivity]).
    assert (walk ring_residual 1 3 2) as C2 by (eapply walk_step; [exact C1|reflexivity]).
    eapply walk_step; [exact C2|reflexivity]. }
  split; [split; [exact W1|]|split; [split; [exact W2|]|split; [split; [exact W3|]|]]].
  - intros m H. destruct (ring_walks _ _ H) as [[E _]|[[_ E]|[[E _]|[E _]]]]; lia.
  - intros m H. destruct (ring_walks _ _ H) as [[E _]|[[E _]|[[_ E]|[E _]]]]; lia.
  - intros m H. destruct (ring_walks _ _ H) as [[E _]|[[E _]|[[E _]|[_ E]]]]; lia.
  - split; [reflexivity|]. split; reflexivity.
Qed.


(** * Further properties of the functions *)

(** ** The driver changes flows only, and stops on a network it cannot improve *)

Lemma phase_caps fuel source sink net net' :
  sorted2 net -> phase fuel source sink net = Ok (Some net') ->
  sorted2 net' /\ caps net' = caps net.
Proof.
  intros Hs Hrun. unfold phase in Hrun.
  inv_bind Hrun. destruct x as [[|p aux]|]; try discriminate.
  inv_bind Hrun. destruct x as [aux' g]. inv_bind Hrun. inv_ok Hrun.
  eapply flow_add_caps; eauto.
Qed.

Lemma mpm_loop_caps n fuel source sink :
  forall net k net' k',
    sorted2 net ->
    mpm_loop n fuel source sink net k = Ok (net', k') ->
    sorted2 net' /\ caps net' = caps net.
Proof.
  induction n as [|n IH]; intros net k net' k' Hs Hrun; simpl in Hrun; [discriminate|].
  inv_bind Hrun. destruct x as [net1|].
  - destruct (phase_caps _ _ _ _ _ Hs Hb) as [Hs1 E1].
    destruct (IH _ _ _ _ Hs1 Hrun) as [Hs' E']. split; [exact Hs'|congruence].
  - inv_ok Hrun. auto.
Qed.

Lemma mpm_loop_stops n fuel source sink :
  forall net k net' k',
    mpm_loop n fuel source sink net k = Ok (net', k') ->
    phase fuel source sink net' = Ok None.
Proof.
  induction n as [|n IH]; intros net k net' k' Hrun; simpl in Hrun; [discriminate|].
  inv_bind Hrun. destruct x as [net1|]; [eauto|]. now inv_ok Hrun.
Qed.

Lemma outflow_absent (n : Z) (net : network) :
  ~ In n (Dict.keys net) ->
  filter (fun x : Z * Z * arc => fst (fst x) =? n) (arcs_of net) = [].
Proof.
  induction net as [|[u d] net IH]; intros Hn; [reflexivity|].
  unfold arcs_of in *. simpl. rewrite filter_app, IH by (simpl in Hn; tauto).
  rewrite app_nil_r. simpl in Hn.
  assert ((u =? n) = false) as E by (apply Z.eqb_neq; tauto).
  clear - E. induction d as [|[v a] d IHd]; simpl; [reflexivity|]. now rewrite E.
Qed.

Lemma outflow_sorted (n : Z) (net : network) :
  sorted net ->
  outflow n net =
  match Dict.get n net with
  | Some d => zsum (map (fun kv => flow (snd kv)) d)
  | None => 0
  end.
Proof.
  unfold outflow. induction net as [|[u d] net IH]; intros Hs; [reflexivity|].
  unfold arcs_of in *. simpl. rewrite filter_app, map_app.
  destruct (n =? u) eqn:E.
  - apply Z.eqb_eq in E; subst u.
    rewrite outflow_absent.
    + simpl. rewrite app_nil_r. clear. f_equal.
      induction d as [|[v a] d IHd]; simpl; [reflexivity|].
      rewrite Z.eqb_refl. simpl. now rewrite IHd.
    + intros Hin. destruct Hs as [Hlt _]. specialize (Hlt _ Hin). lia.
  - rewrite <- IH by apply Hs.
    assert (filter (fun x : Z * Z * arc => fst (fst x) =? n)
                   (map (fun va : Z * arc => (u, fst va, snd va)) d) = []) as ->.
    { rewrite Z.eqb_sym in E. clear - E.
      induction d as [|[v a] d IHd]; simpl; [reflexivity|]. now rewrite E. }
    reflexivity.
Qed.

(** X1: the driver returns the network it was given with other flows: the same
    arcs with the same capacities; and the value it returns is the flow on
    the arcs that leave the source in the returned network. *)
Theorem mpm_changes_flows_only :
  forall fuel source sink net net' value,
    sorted2 net ->
    mpm fuel source sink net = Ok (net', value) ->
    sorted2 net' /\ caps net' = caps net /\ value = outflow source net'.
Proof.
  intros fuel source sink net net' value Hs Hrun. unfold mpm in Hrun.
  inv_bind Hrun. destruct x as [net1 k]. inv_bind Hrun. inv_ok Hrun.
  destruct (mpm_loop_caps _ _ _ _ _ _ _ _ Hs Hb) as [Hs' E].
  split; [exact Hs'|]. split; [exact E|].
  unfold flow_value in Hb0. inv_bind Hb0. apply lookup_ok in Hb1. inv_ok Hb0.
  rewrite outflow_sorted by apply Hs'. now rewrite Hb1.
Qed.

Lemma mpm_changes_flows_only_witness :
  sorted2 chain_final /\ caps chain_final = caps scenario_c /\ 2 = outflow 0 chain_final.
Proof.
  apply (mpm_changes_flows_only 50 0 3 scenario_c chain_final 2).
  - apply sorted2b_sound. vm_compute. reflexivity.
  - vm_compute. reflexivity.
Defined.

(** X2: running the driver again on the network it returned runs no phase and
    returns the same network and the same value. *)
Theorem mpm_idempotent :
  forall fuel source sink net net' value,
    mpm fuel source sink net = Ok (net', value) ->
    mpm fuel source sink net' = Ok (net', value) /\
    mpm_phases fuel source sink net' = Ok 0%nat.
Proof.
  intros fuel source sink net net' value Hrun. unfold mpm in Hrun.
  inv_bind Hrun. destruct x as [net1 k]. inv_bind Hrun. inv_ok Hrun.
  pose proof (mpm_loop_stops _ _ _ _ _ _ _ _ Hb) as Hstop.
  destruct fuel as [|fuel]; [discriminate|].
  unfold mpm, mpm_phases. simpl. rewrite Hstop. simpl. rewrite Hb0. simpl. auto.
Qed.

Lemma mpm_idempotent_witness :
  mpm 50 0 3 chain_final = Ok (chain_final, 2) /\
  mpm_phases 50 0 3 chain_final = Ok 0%nat.
Proof.
  apply (mpm_idempotent 50 0 3 scenario_c chain_final 2). vm_compute. reflexivity.
Defined.

(** ** A source without outgoing arcs *)

(** X3: when the source has no adjacency dictionary, or an empty one, the driver
    raises [KeyError]: in the first case [build_residual_graph] looks the
    source up in the network, in the second the residual graph stays empty
    and [build_auxiliary] looks the source up in it. *)
Theorem mpm_needs_an_arc_at_the_source :
  forall (fuel : nat) (source sink : Z) (net : network),
    Dict.get source net = None \/ Dict.get source net = Some [] ->
    mpm (S fuel) source sink net = Raise KeyError.
Proof.
  intros fuel source sink net H.
  unfold mpm. cbn [mpm_loop]. unfold phase, build_level_graph, build_residual_graph.
  cbn [residual_loop r_que]. destruct H as [H|H]; rewrite H; [reflexivity|].
  simpl. destruct fuel; reflexivity.
Qed.

Lemma mpm_needs_an_arc_at_the_source_witness :
  mpm 1 0 1 source_without_arcs = Raise KeyError.
Proof.
  apply (mpm_needs_an_arc_at_the_source 0 0 1 source_without_arcs).
  right. reflexivity.
Defined.

(** ** [flow_add] succeeds exactly on delta maps whose keys are arcs *)

Lemma set2_is_arc (net net' : network) (u v : Z) (x : arc) :
  is_arc net u v -> set2 u v x net = Ok net' ->
  forall a b, is_arc net' a b <-> is_arc net a b.
Proof.
  intros [a0 Ha0] Hset a b. unfold is_arc. rewrite (get2_set2 _ _ _ _ _ a b Hset).
  destruct ((a =? u) && (b =? v)) eqn:E; [|tauto].
  apply andb_true_iff in E. destruct E as [E1 E2]. apply Z.eqb_eq in E1, E2. subst a b.
  split; eauto.
Qed.

Lemma add_flow_defined u (net : network) (vx : Z * Z) :
  (is_arc net u (fst vx) ->
   exists net', add_flow u net vx = Ok net' /\
                forall a b, is_arc net' a b <-> is_arc net a b) /\
  (forall net', add_flow u net vx = Ok net' -> is_arc net u (fst vx)).
Proof.
  unfold add_flow. split.
  - intros [a Ha]. rewrite Ha. simpl.
    destruct (set2 u (fst vx) (mkArc (cap a) (flow a + snd vx)) net) as [net'|e] eqn:Hset.
    + exists net'. split; [reflexivity|]. eapply set2_is_arc; eauto. exists a; exact Ha.
    + unfold set2 in Hset. unfold get2 in Ha.
      destruct (Dict.get u net); simpl in Hset; discriminate.
  - intros net' H. inv_bind H. apply lookup_ok in Hb. exists x. exact Hb.
Qed.

Lemma add_flows_defined u (d : Dict.t Z) :
  forall net,
    ((forall v x, In (v, x) d -> is_arc net u v) ->
     exists net', for_each (add_flow u) d net = Ok net' /\
                  forall a b, is_arc net' a b <-> is_arc net a b) /\
    (forall net', for_each (add_flow u) d net = Ok net' ->
                  (forall v x, In (v, x) d -> is_arc net u v) /\
                  forall a b, is_arc net' a b <-> is_arc net a b).
Proof.
  induction d as [|[v x] d IH]; intros net; simpl.
  - split.
    + intros _. exists net. split; [reflexivity|tauto].
    + intros net' H. inv_ok H. split; [intros ? ? []|tauto].
  - destruct (add_flow_defined u net (v, x)) as [Hok Hback]. simpl in Hok, Hback. split.
    + intros Harcs. destruct (Hok (Harcs v x (or_introl eq_refl))) as [net1 [H1 E1]].
      rewrite H1. simpl.
      destruct (proj1 (IH net1)) as [net' [H' E']].
      * intros v' x' Hin. apply E1. apply (Harcs v' x'). now right.
      * exists net'. split; [exact H'|]. intros a b. rewrite E'. apply E1.
    + intros net' H. inv_bind H.
      pose proof (Hback _ Hb) as Harc.
      destruct (Hok Harc) as [net1 [H1 E1]]. rewrite Hb in H1. inv_ok H1.
      destruct (proj2 (IH net1) _ H) as [Hrest E'].
      split.
      * intros v' x' [E|Hin]; [inv_ok E; exact Harc|]. apply E1. eauto.
      * intros a b. rewrite E'. apply E1.
Qed.

Lemma flow_add_defined_from (g : delta) :
  forall net,
    (all2 (on_arc net) g ->
     exists net', flow_add net g = Ok net' /\
                  forall a b, is_arc net' a b <-> is_arc net a b) /\
    (forall net', flow_add net g = Ok net' -> all2 (on_arc net) g).
Proof.
  unfold flow_add. induction g as [|[u d] g IH]; intros net; simpl.
  - split.
    + intros _. exists net. split; [reflexivity|tauto].
    + intros net' _. apply all2_nil.
  - destruct (add_flows_defined u d net) as [Hok Hback]. split.
    + intros Hall.
      destruct Hok as [net1 [H1 E1]].
      { intros v x Hin. apply (Hall u d v x); [now left|exact Hin]. }
      rewrite H1. simpl.
      destruct (proj1 (IH net1)) as [net' [H' E']].
      * intros u' d' v x Hu Hv. unfold on_arc. apply E1.
        apply (Hall u' d' v x); [now right|exact Hv].
      * exists net'. split; [exact H'|]. intros a b. rewrite E'. apply E1.
    + intros net' H. inv_bind H.
      destruct (Hback _ Hb) as [Hd E1].
      pose proof (proj2 (IH x) _ H) as Hrest.
      intros u' d' v x0 [E|Hu] Hv.
      * inv_ok E. exact (Hd _ _ Hv).
      * unfold on_arc. apply E1. exact (Hrest u' d' v x0 Hu Hv).
Qed.

(** X4: [flow_add] returns a network exactly when every key pair of the delta
    map is an arc of the network; otherwise it stops at a missing arc. *)
Theorem flow_add_defined :
  forall net g,
    (exists net', flow_add net g = Ok net') <-> all2 (on_arc net) g.
Proof.
  intros net g. destruct (flow_add_defined_from g net) as [Hok Hback]. split.
  - intros [net' H]. eauto.
  - intros Hall. destruct (Hok Hall) as [net' [H _]]. eauto.
Qed.

(** ** The node of minimum throughput *)

Lemma select_min_fold (l : table) :
  forall (seen : table) (acc : option Z * Z),
    (snd acc <= maxint /\
     (forall u io, In (u, io) seen -> snd acc <= Z.min (fst io) (snd io)) /\
     match fst acc with
     | Some u => exists io, In (u, io) seen /\ Z.min (fst io) (snd io) = snd acc /\
                            snd acc < maxint
     | None => snd acc = maxint
     end) ->
    let r := fold_left
               (fun acc uio =>
                  let current_thr := Z.min (fst (snd uio)) (snd (snd uio)) in
                  if current_thr <? snd acc then (Some (fst uio), current_thr) else acc)
               l acc in
    snd r <= maxint /\
    (forall u io, In (u, io) (seen ++ l) -> snd r <= Z.min (fst io) (snd io)) /\
    match fst r with
    | Some u => exists io, In (u, io) (seen ++ l) /\ Z.min (fst io) (snd io) = snd r /\
                           snd r < maxint
    | None => snd r = maxint
    end.
Proof.
  induction l as [|[u io] l IH]; intros seen acc (H1 & H2 & H3); simpl.
  - rewrite app_nil_r. auto.
  - replace (seen ++ (u, io) :: l) with ((seen ++ [(u, io)]) ++ l)
      by (rewrite <- app_assoc; reflexivity).
    apply IH. destruct (Z.min (fst io) (snd io) <? snd acc) eqn:E; simpl.
    + apply Z.ltb_lt in E. split; [lia|]. split.
      * intros u' io' Hin. apply in_app_or in Hin. destruct Hin as [Hin|[Hin|[]]].
        -- specialize (H2 _ _ Hin). lia.
        -- inv_ok Hin. lia.
      * exists io. split; [apply in_or_app; right; now left|]. split; lia.
    + apply Z.ltb_ge in E. split; [exact H1|]. split.
      * intros u' io' Hin. apply in_app_or in Hin. destruct Hin as [Hin|[Hin|[]]].
        -- specialize (H2 _ _ Hin). lia.
        -- inv_ok Hin. simpl in *. lia.
      * destruct (fst acc) as [u0|]; [|exact H3].
        destruct H3 as [io0 [Hin0 Hmin0]]. exists io0.
        split; [apply in_or_app; now left|exact Hmin0].
Qed.

(** X5: the selection in [construct_blocking_flow] returns a throughput that is
    at most [maxint] and at most the throughput of every node of the table.
    When some node has a throughput below [maxint], it returns such a node
    together with its throughput; when none has, it returns no node. *)
Theorem select_min_is_minimum :
  forall thr : table,
    snd (select_min thr) <= maxint /\
    (forall u io, In (u, io) thr -> snd (select_min thr) <= Z.min (fst io) (snd io)) /\
    match fst (select_min thr) with
    | Some u => exists io, In (u, io) thr /\
                           Z.min (fst io) (snd io) = snd (select_min thr) /\
                           snd (select_min thr) < maxint
    | None => snd (select_min thr) = maxint
    end.
Proof.
  intros thr. unfold select_min.
  apply (select_min_fold thr [] (None, maxint)). simpl.
  split; [lia|]. split; [intros ? ? []|reflexivity].
Qed.

Lemma select_min_found (thr : table) :
  match fst (select_min thr) with
  | Some u => exists io, In (u, io) thr /\
                         Z.min (fst io) (snd io) = snd (select_min thr) /\
                         snd (select_min thr) < maxint
  | None => True
  end.
Proof.
  unfold select_min.
  destruct (select_min_fold thr [] (None, maxint)) as (_ & _ & H).
  { simpl. split; [lia|]. split; [intros ? ? []|reflexivity]. }
  simpl in H. destruct (fst (fold_left _ thr (None, maxint))); [exact H|exact I].
Qed.

(** X6: when pruning leaves source and sink in place and no node of the table
    has a throughput below [maxint], the iteration selects no node and
    [push] raises [KeyError]. *)
Theorem blocking_step_without_minimum :
  forall fuel source sink aux g aux1 thr1,
    delete_zero_throughput fuel source sink aux (calc_throughput source sink aux)
    = Ok (true, aux1, thr1) ->
    Dict.mem source aux1 = true -> Dict.mem sink aux1 = true ->
    (forall u io, In (u, io) thr1 -> maxint <= Z.min (fst io) (snd io)) ->
    blocking_step fuel source sink aux g = Raise KeyError.
Proof.
  intros fuel source sink aux g aux1 thr1 Hprune Hs Ht Hbig.
  unfold blocking_step. rewrite Hprune. simpl. rewrite Hs, Ht. simpl.
  pose proof (select_min_found thr1) as H.
  destruct (select_min thr1) as [[u|] h]; simpl in *; [|reflexivity].
  destruct H as [io [Hin [Hmin Hlt]]]. specialize (Hbig _ _ Hin). lia.
Qed.

Lemma blocking_step_without_minimum_witness :
  blocking_step 5 0 1 one_wide_arc [] = Raise KeyError.
Proof.
  apply (blocking_step_without_minimum 5 0 1 one_wide_arc [] one_wide_arc
           (calc_throughput 0 1 one_wide_arc)).
  - vm_compute. reflexivity.
  - reflexivity.
  - reflexivity.
  - intros u io Hin. vm_compute in Hin.
    destruct Hin as [E|[E|[]]]; inv_ok E; vm_compute; discriminate.
Defined.

(** ** [delete_node] *)

Lemma mem_delete_node (node u : Z) (g : graph) :
  u <> node -> Dict.mem u (delete_node node g) = Dict.mem u g.
Proof.
  intros Hne. unfold Dict.mem. rewrite delete_node_eq, get_map_values.
  rewrite get_del_neq by exact Hne. destruct (Dict.get u g); reflexivity.
Qed.

(** X7: [delete_node] removes the node and every edge that enters or leaves it,
    and keeps every other node and every other edge as it was. *)
Theorem delete_node_removes :
  forall (node : Z) (g : graph),
    sorted2 g ->
    Dict.mem node (delete_node node g) = false /\
    (forall u, u <> node -> Dict.mem u (delete_node node g) = Dict.mem u g) /\
    (forall u v,
        get2 u v (delete_node node g) =
        if (u =? node) || (v =? node) then None else get2 u v g).
Proof.
  intros node g Hs. split; [|split].
  - unfold Dict.mem. rewrite get_delete_node by exact Hs. now rewrite Z.eqb_refl.
  - intros u Hne. now apply mem_delete_node.
  - intros u v. now apply get2_delete_node.
Qed.

Lemma delete_node_removes_witness :
  Dict.mem 2 (delete_node 2 short_and_long) = false /\
  (forall u, u <> 2 -> Dict.mem u (delete_node 2 short_and_long) = Dict.mem u short_and_long) /\
  (forall u v,
      get2 u v (delete_node 2 short_and_long) =
      if (u =? 2) || (v =? 2) then None else get2 u v short_and_long).
Proof.
  apply (delete_node_removes 2 short_and_long).
  apply sorted2b_sound. vm_compute. reflexivity.
Defined.

(** ** What pruning leaves *)

Lemma zero_pass_mem source sink nodes :
  forall aux thr hz z u,
    u = source \/ u = sink ->
    zero_pass source sink nodes aux thr hz = Ok z ->
    Dict.mem u (z_aux z) = Dict.mem u aux.
Proof.
  induction nodes as [|x rest IH]; intros aux thr hz z u Hu Hrun; simpl in Hrun.
  - now inv_ok Hrun.
  - inv_bind Hrun.
    destruct (Z.min (fst x0) (snd x0) =? 0); [|eauto].
    destruct ((x =? source) || (x =? sink)) eqn:E; [now inv_ok Hrun|].
    inv_bind Hrun. inv_bind Hrun. inv_bind Hrun.
    rewrite (IH _ _ _ _ u Hu Hrun). apply mem_delete_node.
    apply orb_false_iff in E. destruct E as [E1 E2].
    apply Z.eqb_neq in E1, E2. destruct Hu; subst; auto.
Qed.

Lemma zero_pass_has_zero source sink nodes :
  forall aux thr z,
    zero_pass source sink nodes aux thr true = Ok z -> z_go z = true ->
    z_has_zero z = true.
Proof.
  induction nodes as [|x rest IH]; intros aux thr z Hrun Hgo; simpl in Hrun.
  - now inv_ok Hrun.
  - inv_bind Hrun.
    destruct (Z.min (fst x0) (snd x0) =? 0); [|eauto].
    destruct ((x =? source) || (x =? sink)); [inv_ok Hrun; discriminate|].
    inv_bind Hrun. inv_bind Hrun. inv_bind Hrun. eauto.
Qed.

Lemma zero_pass_clean source sink nodes :
  forall aux thr z,
    zero_pass source sink nodes aux thr false = Ok z ->
    z_go z = true -> z_has_zero z = false ->
    z_aux z = aux /\ z_thr z = thr /\
    forall n io, In n nodes -> Dict.get n thr = Some io -> Z.min (fst io) (snd io) <> 0.
Proof.
  induction nodes as [|x rest IH]; intros aux thr z Hrun Hgo Hz; simpl in Hrun.
  - inv_ok Hrun. repeat split. intros n io [].
  - inv_bind Hrun. apply lookup_ok in Hb.
    destruct (Z.min (fst x0) (snd x0) =? 0) eqn:E.
    + destruct ((x =? source) || (x =? sink)); [inv_ok Hrun; discriminate|].
      inv_bind Hrun. inv_bind Hrun. inv_bind Hrun.
      rewrite (zero_pass_has_zero _ _ _ _ _ _ Hrun Hgo) in Hz. discriminate.
    + destruct (IH _ _ _ Hrun Hgo Hz) as (E1 & E2 & Hrest).
      split; [exact E1|]. split; [exact E2|].
      intros n io [<-|Hin] Hn; [|eauto].
      rewrite Hb in Hn. inv_ok Hn. now apply Z.eqb_neq.
Qed.

Lemma zero_pass_stopped source sink nodes :
  forall aux thr hz z,
    zero_pass source sink nodes aux thr hz = Ok z -> z_go z = false ->
    exists n io,
      (n = source \/ n = sink) /\ Dict.get n (z_thr z) = Some io /\
      Z.min (fst io) (snd io) = 0.
Proof.
  induction nodes as [|x rest IH]; intros aux thr hz z Hrun Hgo; simpl in Hrun.
  - inv_ok Hrun. discriminate.
  - inv_bind Hrun. apply lookup_ok in Hb.
    destruct (Z.min (fst x0) (snd x0) =? 0) eqn:E; [|eauto].
    destruct ((x =? source) || (x =? sink)) eqn:Ex.
    + inv_ok Hrun. simpl. exists x, x0. split; [|split; [exact Hb|now apply Z.eqb_eq]].
      apply orb_true_iff in Ex. destruct Ex as [Ex|Ex]; apply Z.eqb_eq in Ex; auto.
    + inv_bind Hrun. inv_bind Hrun. inv_bind Hrun. eauto.
Qed.

(** X8: pruning never removes the source or the sink.  When it returns [True]
    no node of the table it leaves has throughput 0; when it returns [False]
    the source or the sink has throughput 0 in that table. *)
Theorem delete_zero_throughput_result :
  forall fuel source sink aux thr ret aux' thr',
    delete_zero_throughput fuel source sink aux thr = Ok (ret, aux', thr') ->
    Dict.mem source aux' = Dict.mem source aux /\
    Dict.mem sink aux' = Dict.mem sink aux /\
    (ret = true ->
     forall n io, Dict.get n thr' = Some io -> Z.min (fst io) (snd io) <> 0) /\
    (ret = false ->
     exists n io,
       (n = source \/ n = sink) /\ Dict.get n thr' = Some io /\
       Z.min (fst io) (snd io) = 0).
Proof.
  induction fuel as [|fuel IH]; intros source sink aux thr ret aux' thr' Hrun;
    simpl in Hrun; [discriminate|].
  inv_bind Hrun.
  pose proof (zero_pass_mem _ _ _ _ _ _ _ source (or_introl eq_refl) Hb) as Ms.
  pose proof (zero_pass_mem _ _ _ _ _ _ _ sink (or_intror eq_refl) Hb) as Mt.
  destruct (z_go x) eqn:Hgo; simpl in Hrun.
  - destruct (z_has_zero x) eqn:Hz.
    + destruct (IH _ _ _ _ _ _ _ Hrun) as (H1 & H2 & H3 & H4).
      split; [congruence|]. split; [congruence|]. auto.
    + inv_ok Hrun.
      destruct (zero_pass_clean _ _ _ _ _ _ Hb Hgo Hz) as (E1 & E2 & Hclean).
      split; [exact Ms|]. split; [exact Mt|]. split; [|discriminate].
      intros _ n io Hn. rewrite E2 in Hn. apply (Hclean n io); [|exact Hn].
      apply get_in in Hn. apply in_map_iff. exists (n, io). auto.
  - inv_ok Hrun. split; [exact Ms|]. split; [exact Mt|]. split; [discriminate|].
    intros _. eapply zero_pass_stopped; eauto.
Qed.

Lemma delete_zero_throughput_result_witness :
  Dict.mem 0 chain_aux = Dict.mem 0 chain_aux /\
  Dict.mem 3 chain_aux = Dict.mem 3 chain_aux /\
  (true = true ->
   forall n io,
     Dict.get n (calc_throughput 0 3 chain_aux) = Some io ->
     Z.min (fst io) (snd io) <> 0) /\
  (true = false ->
   exists n io,
     (n = 0 \/ n = 3) /\ Dict.get n (calc_throughput 0 3 chain_aux) = Some io /\
     Z.min (fst io) (snd io) = 0).
Proof.
  apply (delete_zero_throughput_result 5 0 3 chain_aux (calc_throughput 0 3 chain_aux)
           true chain_aux (calc_throughput 0 3 chain_aux)).
  vm_compute. reflexivity.
Defined.

Lemma delete_zero_throughput_ends fuel :
  forall source sink aux thr ret aux' thr',
    delete_zero_throughput fuel source sink aux thr = Ok (ret, aux', thr') ->
    Dict.mem source aux' = Dict.mem source aux /\
    Dict.mem sink aux' = Dict.mem sink aux.
Proof.
  induction fuel as [|fuel IH]; intros source sink aux thr ret aux' thr' Hrun;
    simpl in Hrun; [discriminate|].
  inv_bind Hrun.
  pose proof (zero_pass_mem _ _ _ _ _ _ _ source (or_introl eq_refl) Hb) as Ms.
  pose proof (zero_pass_mem _ _ _ _ _ _ _ sink (or_intror eq_refl) Hb) as Mt.
  destruct (z_go x); simpl in Hrun.
  - destruct (z_has_zero x).
    + destruct (IH _ _ _ _ _ _ _ Hrun) as (H1 & H2). split; congruence.
    + inv_ok Hrun. split; assumption.
  - inv_ok Hrun. split; assumption.
Qed.

(** X9: the loop of [construct_blocking_flow] returns only through the first of
    its two exits when the auxiliary network holds source and sink: pruning
    has returned [False]. *)
Theorem blocking_step_returns_on_zero :
  forall fuel source sink aux g aux' g',
    Dict.mem source aux = true -> Dict.mem sink aux = true ->
    blocking_step fuel source sink aux g = Ok (inl (aux', g')) ->
    g' = g /\
    exists thr',
      delete_zero_throughput fuel source sink aux (calc_throughput source sink aux)
      = Ok (false, aux', thr').
Proof.
  intros fuel source sink aux g aux' g' Ms Mt Hrun. unfold blocking_step in Hrun.
  inv_bind Hrun. destruct x as [[ret aux1] thr1].
  destruct (delete_zero_throughput_ends _ _ _ _ _ _ _ _ Hb) as (H1 & H2).
  destruct ret; simpl in Hrun.
  - rewrite H1, H2, Ms, Mt in Hrun. simpl in Hrun.
    destruct (select_min thr1) as [min_node h].
    inv_bind Hrun. inv_bind Hrun. inv_bind Hrun. discriminate.
  - inv_ok Hrun. split; [reflexivity|]. exists thr1. exact Hb.
Qed.

Lemma blocking_step_returns_on_zero_witness :
  chain_delta = chain_delta /\
  exists thr',
    delete_zero_throughput 5 0 3 chain_aux_done (calc_throughput 0 3 chain_aux_done)
    = Ok (false, chain_aux_done, thr').
Proof.
  apply (blocking_step_returns_on_zero 5 0 3 chain_aux_done chain_delta
           chain_aux_done chain_delta); reflexivity.
Defined.

(** ** [push] and [pull] keep the shape of the auxiliary network *)

Lemma edges_kept_refl (aux : graph) : edges_kept aux aux.
Proof.
  split; [reflexivity|]. intros u v. destruct (get2 u v aux); [|exact I].
  unfold edge_kept. repeat split; auto; congruence.
Qed.

Lemma edges_kept_trans (a b c : graph) :
  edges_kept a b -> edges_kept b c -> edges_kept a c.
Proof.
  intros [M1 E1] [M2 E2]. split; [intros u; now rewrite M2|].
  intros u v. specialize (E1 u v). specialize (E2 u v).
  destruct (get2 u v a) as [ea|], (get2 u v b) as [eb|], (get2 u v c) as [ec|];
    try tauto.
  destruct E1 as (D1 & U1 & Z1), E2 as (D2 & U2 & Z2).
  split; [congruence|]. split.
  - intros Hu. specialize (U1 Hu). subst eb. auto.
  - intros Hu Hc. destruct (used eb) eqn:Hb.
    + specialize (U2 eq_refl). subst ec. auto.
    + auto.
Qed.

Lemma edges_kept_step (aux aux' : graph) (a b c : Z) (ed : edge) :
  get2 a b aux = Some ed -> used ed = false ->
  set2 a b (mkEdge c (edir ed) (if c =? 0 then true else false)) aux = Ok aux' ->
  edges_kept aux aux'.
Proof.
  intros Hed Hu Hset. split.
  - intros u. unfold set2 in Hset.
    destruct (Dict.get a aux) as [inner|] eqn:Ha; simpl in Hset; [|discriminate].
    inv_ok Hset. rewrite mem_set. destruct (u =? a) eqn:E; [|reflexivity].
    apply Z.eqb_eq in E; subst u. unfold Dict.mem. now rewrite Ha.
  - intros u v. rewrite (get2_set2 _ _ _ _ _ u v Hset).
    destruct ((u =? a) && (v =? b)) eqn:E.
    + apply andb_true_iff in E. destruct E as [E1 E2]. apply Z.eqb_eq in E1, E2. subst u v.
      rewrite Hed. unfold edge_kept; simpl. split; [reflexivity|]. split; [congruence|].
      intros _. destruct (c =? 0) eqn:Ec; [|discriminate].
      intros _. now apply Z.eqb_eq.
    + destruct (get2 u v aux); [|exact I]. unfold edge_kept. repeat split; auto; congruence.
Qed.

Lemma push_edges_kept v ns :
  forall st st', push_edges v ns st = Ok st' -> edges_kept (p_aux st) (p_aux st').
Proof.
  induction ns as [|n ns IH]; intros st st' Hrun; simpl in Hrun.
  - inv_ok Hrun. apply edges_kept_refl.
  - inv_bind Hrun. destruct (x =? 0); [inv_ok Hrun; apply edges_kept_refl|].
    inv_bind Hrun. apply lookup_ok in Hb0.
    destruct (used x0) eqn:Hu; [eauto|].
    inv_bind Hrun. inv_bind Hrun. inv_bind Hrun.
    eapply edges_kept_trans; [|exact (IH _ _ Hrun)]. simpl.
    eapply edges_kept_step; eauto.
Qed.

Lemma push_loop_kept fuel :
  forall st st', push_loop fuel st = Ok st' -> edges_kept (p_aux st) (p_aux st').
Proof.
  induction fuel as [|fuel IH]; intros st st' Hrun; simpl in Hrun.
  - destruct (p_q st); [inv_ok Hrun; apply edges_kept_refl|discriminate].
  - destruct (p_q st) as [|v q]; [inv_ok Hrun; apply edges_kept_refl|].
    inv_bind Hrun. inv_bind Hrun.
    eapply edges_kept_trans; [|exact (IH _ _ Hrun)].
    exact (push_edges_kept _ _ _ _ Hb0).
Qed.

Lemma pull_edges_kept us :
  forall v st st', pull_edges us v st = Ok st' -> edges_kept (p_aux st) (p_aux st').
Proof.
  induction us as [|u us IH]; intros v st st' Hrun; simpl in Hrun.
  - inv_ok Hrun. apply edges_kept_refl.
  - inv_bind Hrun. destruct (x =? 0); [inv_ok Hrun; apply edges_kept_refl|].
    inv_bind Hrun. apply lookup_ok in Hb0.
    destruct (Dict.get v x0) as [ed|] eqn:Hed; [|eauto].
    destruct (used ed) eqn:Hu; [eauto|].
    inv_bind Hrun. inv_bind Hrun. inv_bind Hrun.
    assert (edges_kept (p_aux st) x1) as Hstep.
    { eapply edges_kept_step; eauto.
      unfold get2. now rewrite Hb0. }
    destruct (edir ed);
      (eapply edges_kept_trans; [exact Hstep|]); exact (IH _ _ _ Hrun).
Qed.

Lemma pull_loop_kept fuel :
  forall st st', pull_loop fuel st = Ok st' -> edges_kept (p_aux st) (p_aux st').
Proof.
  induction fuel as [|fuel IH]; intros st st' Hrun; simpl in Hrun.
  - destruct (p_q st); [inv_ok Hrun; apply edges_kept_refl|discriminate].
  - destruct (p_q st) as [|v q]; [inv_ok Hrun; apply edges_kept_refl|].
    inv_bind Hrun.
    eapply edges_kept_trans; [|exact (IH _ _ Hrun)].
    exact (pull_edges_kept _ _ _ _ Hb).
Qed.

(** X10: [push] and [pull] add and remove no node and no edge of the auxiliary
    network and never change the direction of an edge; an edge that is
    marked used is left exactly as it is, and an edge gets the mark only
    when its capacity has reached 0. *)
Theorem push_and_pull_keep_edges :
  forall fuel s y h aux thr g st,
    push fuel y h aux thr g = Ok st \/ pull fuel s y h aux thr g = Ok st ->
    edges_kept aux (p_aux st).
Proof.
  intros fuel s y h aux thr g st [H|H].
  - exact (push_loop_kept _ _ _ H).
  - exact (pull_loop_kept _ _ _ H).
Qed.

Lemma push_and_pull_keep_edges_witness :
  exists st,
    pull 10 0 2 2 two_into_sink (calc_throughput 0 2 two_into_sink) [] = Ok st /\
    edges_kept two_into_sink (p_aux st).
Proof.
  eexists. split; [vm_compute; reflexivity|].
  apply (push_and_pull_keep_edges 10 0 2 2 two_into_sink
           (calc_throughput 0 2 two_into_sink) []).
  right. vm_compute. reflexivity.
Defined.

(** ** [push] and [pull] move requirement, they do not create it *)

Lemma zsum_set (k x : Z) (d : Dict.t Z) :
  sorted d -> total_req (Dict.set k x d) = total_req d - entry_at 0 k d + x.
Proof.
  unfold total_req, entry_at. induction d as [|[k' v] d IH]; simpl; intros Hs; [lia|].
  destruct (k <? k') eqn:Hlt.
  - apply Z.ltb_lt in Hlt.
    destruct (k =? k') eqn:E; [apply Z.eqb_eq in E; lia|].
    simpl. destruct (Dict.get k d) as [w|] eqn:Hg; [|lia].
    exfalso. apply get_in in Hg.
    assert (In k (Dict.keys d)) as Hin by (apply in_map_iff; exists (k, w); auto).
    destruct Hs as [Hall _]. specialize (Hall _ Hin). lia.
  - destruct (k =? k') eqn:E; simpl; [lia|].
    rewrite IH by apply Hs. lia.
Qed.

Lemma init_req_total (y h : Z) (aux : graph) :
  sorted (init_req y h aux) /\ total_req (init_req y h aux) = h.
Proof.
  unfold init_req.
  set (ok := fun acc : Dict.t Z =>
               sorted acc /\ total_req acc = 0 /\ Dict.get y acc = None /\
               forall k w, Dict.get k acc = Some w -> w = 0).
  assert (forall (l : list Z) (acc : Dict.t Z),
             ok acc ->
             ok (fold_left (fun r u => if u =? y then r else Dict.set u 0 r) l acc))
    as Hfold.
  { induction l as [|u l IH]; intros acc Hacc; simpl; [exact Hacc|].
    apply IH. destruct (u =? y) eqn:E; [exact Hacc|].
    destruct Hacc as (Hs & Ht & Hy & Hz). split; [now apply sorted_set|].
    split; [|split].
    - rewrite zsum_set by exact Hs. unfold entry_at.
      destruct (Dict.get u acc) as [w|] eqn:Hu; [|lia].
      specialize (Hz _ _ Hu). lia.
    - rewrite get_set_neq; [exact Hy|]. apply Z.eqb_neq in E. congruence.
    - intros k w. destruct (Z.eq_dec k u) as [->|Hk].
      + rewrite get_set_eq. congruence.
      + rewrite get_set_neq by exact Hk. apply Hz. }
  destruct (Hfold (Dict.keys aux) []) as (Hs & Ht & Hy & _).
  { split; [exact I|]. split; [reflexivity|]. split; [reflexivity|]. discriminate. }
  split; [now apply sorted_set|].
  rewrite zsum_set by exact Hs. unfold entry_at. rewrite Hy. lia.
Qed.

Lemma move_req (a b m ra rb : Z) (req : Dict.t Z) :
  sorted req ->
  Dict.get a req = Some ra ->
  Dict.get b (Dict.set a (ra - m) req) = Some rb ->
  sorted (Dict.set b (rb + m) (Dict.set a (ra - m) req)) /\
  total_req (Dict.set b (rb + m) (Dict.set a (ra - m) req)) = total_req req.
Proof.
  intros Hs Ha Hb. split; [now apply sorted_set, sorted_set|].
  rewrite zsum_set by now apply sorted_set.
  rewrite zsum_set by exact Hs.
  unfold entry_at. rewrite Ha, Hb. lia.
Qed.

Lemma push_edges_req v ns :
  forall st st', push_edges v ns st = Ok st' ->
    sorted (p_req st) ->
    sorted (p_req st') /\ total_req (p_req st') = total_req (p_req st).
Proof.
  induction ns as [|n ns IH]; intros st st' Hrun Hs; simpl in Hrun.
  - inv_ok Hrun. auto.
  - inv_bind Hrun. apply lookup_ok in Hb.
    destruct (x =? 0); [inv_ok Hrun; auto|].
    inv_bind Hrun. destruct (used x0); [eauto|].
    inv_bind Hrun. inv_bind Hrun. inv_bind Hrun. apply lookup_ok in Hb3.
    destruct (move_req _ _ _ _ _ _ Hs Hb Hb3) as [Hs' Ht'].
    destruct (IH _ _ Hrun Hs') as [Hs'' Ht'']. simpl in *.
    split; [exact Hs''|]. now rewrite Ht''.
Qed.

Lemma push_loop_req fuel :
  forall st st', push_loop fuel st = Ok st' ->
    sorted (p_req st) ->
    sorted (p_req st') /\ total_req (p_req st') = total_req (p_req st).
Proof.
  induction fuel as [|fuel IH]; intros st st' Hrun Hs; simpl in Hrun.
  - destruct (p_q st); [inv_ok Hrun; auto|discriminate].
  - destruct (p_q st) as [|v q]; [inv_ok Hrun; auto|].
    inv_bind Hrun. inv_bind Hrun.
    destruct (push_edges_req _ _ _ _ Hb0 Hs) as [Hs' Ht'].
    destruct (IH _ _ Hrun Hs') as [Hs'' Ht'']. simpl in *.
    split; [exact Hs''|]. now rewrite Ht''.
Qed.

Lemma pull_edges_req us :
  forall v st st', pull_edges us v st = Ok st' ->
    sorted (p_req st) ->
    sorted (p_req st') /\ total_req (p_req st') = total_req (p_req st).
Proof.
  induction us as [|u us IH]; intros v st st' Hrun Hs; simpl in Hrun.
  - inv_ok Hrun. auto.
  - inv_bind Hrun. apply lookup_ok in Hb.
    destruct (x =? 0); [inv_ok Hrun; auto|].
    inv_bind Hrun.
    destruct (Dict.get v x0) as [ed|]; [|eauto].
    destruct (used ed); [eauto|].
    inv_bind Hrun. inv_bind Hrun. inv_bind Hrun. apply lookup_ok in Hb3.
    destruct (move_req _ _ _ _ _ _ Hs Hb Hb3) as [Hs' Ht'].
    destruct (edir ed);
      destruct (IH _ _ _ Hrun Hs') as [Hs'' Ht'']; simpl in *;
      (split; [exact Hs''|]; now rewrite Ht'').
Qed.

Lemma pull_loop_req fuel :
  forall st st', pull_loop fuel st = Ok st' ->
    sorted (p_req st) ->
    sorted (p_req st') /\ total_req (p_req st') = total_req (p_req st).
Proof.
  induction fuel as [|fuel IH]; intros st st' Hrun Hs; simpl in Hrun.
  - destruct (p_q st); [inv_ok Hrun; auto|discriminate].
  - destruct (p_q st) as [|v q]; [inv_ok Hrun; auto|].
    inv_bind Hrun.
    destruct (pull_edges_req _ _ _ _ Hb Hs) as [Hs' Ht'].
    destruct (IH _ _ Hrun Hs') as [Hs'' Ht'']. simpl in *.
    split; [exact Hs''|]. now rewrite Ht''.
Qed.

(** X11: the requirements [req] of all nodes add up to [h] when [push] or [pull]
    returns: each step takes from one node what it gives to another. *)
Theorem push_and_pull_conserve_requirement :
  forall fuel s y h aux thr g st,
    push fuel y h aux thr g = Ok st \/ pull fuel s y h aux thr g = Ok st ->
    total_req (p_req st) = h.
Proof.
  intros fuel s y h aux thr g st H.
  destruct (init_req_total y h aux) as [Hs Ht].
  destruct H as [H|H].
  - destruct (push_loop_req _ _ _ H Hs) as [_ Ht']. simpl in Ht'. congruence.
  - destruct (pull_loop_req _ _ _ H Hs) as [_ Ht']. simpl in Ht'. congruence.
Qed.

Lemma push_and_pull_conserve_requirement_witness :
  exists st,
    push 10 1 2 chain_aux (calc_throughput 0 3 chain_aux) [] = Ok st /\
    total_req (p_req st) = 2.
Proof.
  eexists. split; [vm_compute; reflexivity|].
  apply (push_and_pull_conserve_requirement 10 0 1 2 chain_aux
           (calc_throughput 0 3 chain_aux) []).
  left. vm_compute. reflexivity.
Defined.

(** ** The edges of the layered network *)

Lemma residual_loop_open net fuel :
  forall st nr,
    all2 open_edge (r_nr st) ->
    residual_loop fuel net st = Ok nr ->
    all2 open_edge nr.
Proof.
  induction fuel as [|fuel IH]; intros st nr Hall Hrun; simpl in Hrun.
  - destruct (r_que st); [now inv_ok Hrun|discriminate].
  - destruct (r_que st) as [|now que]; [now inv_ok Hrun|].
    inv_bind Hrun. inv_bind Hrun.
    apply (IH x0); [|exact Hrun].
    revert Hb0. apply (for_each_inv (fun s => all2 open_edge (r_nr s))); [|exact Hall].
    intros s [e a] s' _ Hs Hstep. unfold residual_edge in Hstep.
    inv_bind Hstep. inv_bind Hstep. inv_ok Hstep. simpl.
    assert (all2 open_edge x1) as Hx.
    { destruct (cap a - flow a >? 0) eqn:E.
      - eapply all2_set2; [| |exact Hb0]; [now do 2 apply all2_ensure|].
        split; [simpl; lia|reflexivity].
      - inv_ok Hb0. now do 2 apply all2_ensure. }
    destruct (flow a >? 0) eqn:E.
    + eapply all2_set2; [exact Hx| |exact Hb1]. split; [simpl; lia|reflexivity].
    + now inv_ok Hb1.
Qed.

Lemma level_graph_all2 (fuel : nat) (source sink : Z) (net : network) (aux : graph) :
  sorted2 net ->
  build_level_graph fuel source sink net = Ok (Some aux) ->
  all2 open_edge aux /\ all2 (resid net) aux.
Proof.
  intros Hnet Hrun. unfold build_level_graph in Hrun. inv_bind Hrun.
  assert (all2 open_edge x) as Hopen.
  { eapply residual_loop_open; [|exact Hb]. apply all2_nil. }
  assert (all2 (resid net) x) as Hres.
  { eapply residual_loop_resid; [exact Hnet| |exact Hb].
    split; [apply all2_nil|apply sorted2_nil]. }
  split.
  - eapply (build_auxiliary_all2 open_edge); [|exact Hopen|exact Hrun].
    intros ? ? ? [H _]. split; [exact H|reflexivity].
  - eapply (build_auxiliary_all2 (resid net)); [|exact Hres|exact Hrun].
    intros ? ? ? H. exact H.
Qed.

(** X12: every edge of the layered network of a phase is unused and has a
    positive capacity: what its arc can still take for direction ['F'], the
    flow of the reverse arc for direction ['B']. *)
Theorem build_level_graph_edges :
  forall fuel source sink net aux u v ed,
    sorted2 net ->
    build_level_graph fuel source sink net = Ok (Some aux) ->
    get2 u v aux = Some ed ->
    used ed = false /\ 0 < ecap ed /\ resid net u v ed.
Proof.
  intros fuel source sink net aux u v ed Hnet Hrun Hed.
  destruct (level_graph_all2 _ _ _ _ _ Hnet Hrun) as [Ha Hr].
  destruct (all2_get2 _ _ _ _ _ Ha Hed) as [Hpos Hused].
  split; [exact Hused|]. split; [exact Hpos|].
  exact (all2_get2 _ _ _ _ _ Hr Hed).
Qed.

Lemma build_level_graph_edges_witness :
  used (mkEdge 2 F false) = false /\ 0 < ecap (mkEdge 2 F false) /\
  resid scenario_c 1 2 (mkEdge 2 F false).
Proof.
  apply (build_level_graph_edges 10 0 3 scenario_c chain_aux 1 2 (mkEdge 2 F false)).
  - apply sorted2b_sound. vm_compute. reflexivity.
  - vm_compute. reflexivity.
  - vm_compute. reflexivity.
Defined.

(** X13: on a network without flow the layered network has edges of direction
    ['F'] only, each with the capacity of its arc. *)
Theorem level_graph_without_flow :
  forall fuel source sink net aux u v ed,
    sorted2 net ->
    all2 no_flow net ->
    build_level_graph fuel source sink net = Ok (Some aux) ->
    get2 u v aux = Some ed ->
    edir ed = F /\ exists a, get2 u v net = Some a /\ ecap ed = cap a.
Proof.
  intros fuel source sink net aux u v ed Hnet Hzero Hrun Hed.
  destruct (level_graph_all2 _ _ _ _ _ Hnet Hrun) as [Hopen Hall].
  destruct (all2_get2 _ _ _ _ _ Hopen Hed) as [Hpos _].
  pose proof (all2_get2 _ _ _ _ _ Hall Hed) as Hres.
  unfold resid in Hres. destruct (edir ed).
  - split; [reflexivity|]. destruct Hres as [a [Ha Hc]].
    exists a. split; [exact Ha|]. rewrite (all2_get2 _ _ _ _ _ Hzero Ha) in Hc. lia.
  - destruct Hres as [a [Ha Hc]]. rewrite (all2_get2 _ _ _ _ _ Hzero Ha) in Hc. lia.
Qed.

Lemma level_graph_without_flow_witness :
  edir (mkEdge 5 F false) = F /\
  exists a, get2 2 3 scenario_c = Some a /\ ecap (mkEdge 5 F false) = cap a.
Proof.
  apply (level_graph_without_flow 10 0 3 scenario_c chain_aux 2 3 (mkEdge 5 F false)).
  - apply sorted2b_sound. vm_compute. reflexivity.
  - intros u inner v a Hin Hin'. vm_compute in Hin.
    repeat (destruct Hin as [Hin|Hin];
            [inversion Hin; subst; clear Hin; simpl in Hin';
             repeat (destruct Hin' as [Hin'|Hin']; [inversion Hin'; reflexivity|]);
             contradiction|]).
    contradiction.
  - vm_compute. reflexivity.
  - vm_compute. reflexivity.
Defined.

(** ** [read_network] *)

Lemma mem_ensure {V : Type} (j k : Z) (d : Dict.t (Dict.t V)) :
  Dict.mem j (ensure k d) = (j =? k) || Dict.mem j d.
Proof.
  unfold ensure. destruct (Dict.mem k d) eqn:Hk; [|apply mem_set].
  destruct (j =? k) eqn:E; [|reflexivity].
  apply Z.eqb_eq in E. subst j. now rewrite Hk.
Qed.

Lemma get2_ensure {V : Type} (u v k : Z) (d : Dict.t (Dict.t V)) :
  get2 u v (ensure k d) = get2 u v d.
Proof.
  unfold ensure. destruct (Dict.mem k d) eqn:Hk; [reflexivity|].
  unfold get2, Dict.mem in *. destruct (Z.eq_dec u k) as [->|Hu].
  - rewrite get_set_eq. destruct (Dict.get k d); [discriminate|reflexivity].
  - now rewrite get_set_neq.
Qed.

Lemma add_arc_set2 (net : network) (u v c f : Z) :
  set2 u v (mkArc c f) (ensure v (ensure u net)) = Ok (add_arc net (u, v, c, f)).
Proof.
  unfold add_arc, set2.
  assert (Dict.mem u (ensure v (ensure u net)) = true) as Hm.
  { rewrite !mem_ensure, Z.eqb_refl. apply orb_true_iff. right. reflexivity. }
  apply mem_true in Hm. destruct Hm as [inner Hm]. rewrite Hm. reflexivity.
Qed.

Lemma get2_add_arc (net : network) (u v c f u' v' : Z) :
  get2 u' v' (add_arc net (u, v, c, f))
  = if (u' =? u) && (v' =? v) then Some (mkArc c f) else get2 u' v' net.
Proof.
  rewrite (get2_set2 _ _ _ _ _ u' v' (add_arc_set2 net u v c f)).
  now rewrite !get2_ensure.
Qed.

Lemma mem_add_arc (net : network) (r : Z * Z * Z * Z) (k : Z) :
  Dict.mem k (add_arc net r) = endpoint k r || Dict.mem k net.
Proof.
  destruct r as [[[u v] c] f]. unfold add_arc.
  assert (Dict.mem u (ensure v (ensure u net)) = true) as Hm.
  { rewrite !mem_ensure, Z.eqb_refl. apply orb_true_iff. right. reflexivity. }
  apply mem_true in Hm. destruct Hm as [inner Hm]. rewrite Hm.
  rewrite mem_set, !mem_ensure. simpl.
  destruct (k =? u), (k =? v); reflexivity.
Qed.

Lemma sorted2_add_arc (net : network) (r : Z * Z * Z * Z) :
  sorted2 net -> sorted2 (add_arc net r).
Proof.
  destruct r as [[[u v] c] f]. intros Hs.
  eapply sorted2_set2; [|apply add_arc_set2]. now do 2 apply sorted2_ensure.
Qed.

Lemma read_network_from (records : list (Z * Z * Z * Z)) :
  forall net : network,
    sorted2 net ->
    sorted2 (fold_left add_arc records net) /\
    (forall k, Dict.mem k (fold_left add_arc records net)
               = existsb (endpoint k) records || Dict.mem k net) /\
    (forall u v, get2 u v (fold_left add_arc records net)
                 = match last_record u v records with
                   | Some a => Some a
                   | None => get2 u v net
                   end).
Proof.
  induction records as [|r records IH]; intros net Hs; simpl.
  - split; [exact Hs|]. split; reflexivity.
  - destruct (IH _ (sorted2_add_arc net r Hs)) as (H1 & H2 & H3).
    split; [exact H1|]. split.
    + intros k. rewrite H2, mem_add_arc.
      destruct (endpoint k r), (existsb (endpoint k) records); reflexivity.
    + intros u v. rewrite H3. destruct r as [[[u' v'] c] f].
      destruct (last_record u v records); [reflexivity|].
      rewrite get2_add_arc. rewrite (Z.eqb_sym u u'), (Z.eqb_sym v v').
      destruct ((u' =? u) && (v' =? v)); reflexivity.
Qed.

(** X14: the network read from a list of records has, for each pair [(u, v)],
    the arc of the last record for that pair, and no arc where there is no
    record. *)
Theorem read_network_lookup :
  forall records u v, get2 u v (read_network records) = last_record u v records.
Proof.
  intros records u v. unfold read_network.
  destruct (read_network_from records [] sorted2_nil) as (_ & _ & H).
  rewrite H. destruct (last_record u v records); reflexivity.
Qed.

(** X15: the nodes of the network read from a list of records are the ends of
    the recorded arcs, an end without outgoing arc included, and the network
    has the shape that [sorted2] asks for. *)
Theorem read_network_nodes :
  forall records,
    sorted2 (read_network records) /\
    forall k, Dict.mem k (read_network records) = existsb (endpoint k) records.
Proof.
  intros records. unfold read_network.
  destruct (read_network_from records [] sorted2_nil) as (H1 & H2 & _).
  split; [exact H1|]. intros k. rewrite H2. apply orb_false_r.
Qed.

(** ** [pull] on edges of direction ['F'] *)

Ltac stop_here := split; [reflexivity|discriminate].

Lemma pull_edges_forward us :
  forall v st,
    all2 forward (p_aux st) ->
    pull_edges us v st = pull_mirror_edges us v st /\
    forall st', pull_edges us v st = Ok st' -> all2 forward (p_aux st').
Proof.
  induction us as [|u us IH]; intros v st Hall; simpl.
  - split; [reflexivity|]. intros st' H. now inv_ok H.
  - destruct (lookup (Dict.get v (p_req st))) as [rv|]; simpl; [|stop_here].
    destruct (rv =? 0); [split; [reflexivity|]; intros st' H; now inv_ok H|].
    destruct (Dict.get u (p_aux st)) as [d|] eqn:Hd; simpl; [|stop_here].
    destruct (Dict.get v d) as [ed|] eqn:Hed; [|now apply IH].
    destruct (used ed); [now apply IH|].
    assert (edir ed = F) as HF.
    { apply get_in in Hd, Hed. exact (Hall _ _ _ _ Hd Hed). }
    destruct (set2 u v _ (p_aux st)) as [aux1|] eqn:Hset; simpl; [|stop_here].
    match goal with
    | |- context [bind ?m _] => destruct m as [thr1|]; simpl; [|stop_here]
    end.
    match goal with
    | |- context [lookup ?o] => destruct (lookup o) as [ru|]; simpl; [|stop_here]
    end.
    rewrite HF. apply IH. simpl.
    eapply all2_set2; [exact Hall| |exact Hset]. exact HF.
Qed.

Lemma pull_loop_forward fuel :
  forall st, all2 forward (p_aux st) -> pull_loop fuel st = pull_mirror_loop fuel st.
Proof.
  induction fuel as [|fuel IH]; intros st Hall; simpl; [reflexivity|].
  destruct (p_q st) as [|v q]; [reflexivity|].
  destruct (pull_edges_forward (Dict.keys (p_aux st)) v
              (mkP (p_aux st) (p_thr st) (p_req st) q (p_g st)) Hall) as [Heq Hkeep].
  rewrite <- Heq.
  destruct (pull_edges _ v _) as [st'|]; simpl; [|reflexivity].
  apply IH. now apply Hkeep.
Qed.

(** X16: on an auxiliary network whose edges all have direction ['F'], [pull]
    is the mirror of [push] that the loop over predecessors describes: both
    give the same result, error or state. *)
Theorem pull_mirrors_on_forward_edges :
  forall fuel s y h aux thr g,
    all2 forward aux ->
    pull fuel s y h aux thr g = pull_mirror fuel s y h aux thr g.
Proof.
  intros fuel s y h aux thr g Hall. unfold pull, pull_mirror.
  now apply pull_loop_forward.
Qed.

Lemma pull_mirrors_on_forward_edges_witness :
  pull 10 0 2 2 chain_aux (calc_throughput 0 3 chain_aux) []
  = pull_mirror 10 0 2 2 chain_aux (calc_throughput 0 3 chain_aux) [].
Proof.
  apply (pull_mirrors_on_forward_edges 10 0 2 2 chain_aux
           (calc_throughput 0 3 chain_aux) []).
  intros u inner v ed Hin Hin'. unfold chain_aux in Hin.
  repeat (destruct Hin as [Hin|Hin];
          [inversion Hin; subst; clear Hin;
           repeat (destruct Hin' as [Hin'|Hin']; [inversion Hin'; reflexivity|]);
           contradiction|]).
  contradiction.
Defined.

(** ** [build_residual_graph] returns *)

Lemma inb_false (x : Z) (s : list Z) : inb x s = false -> ~ In x s.
Proof.
  unfold inb. intros H Hin.
  assert (existsb (Z.eqb x) s = true) as Ht.
  { apply existsb_exists. exists x. split; [exact Hin|apply Z.eqb_refl]. }
  congruence.
Qed.

Lemma set2_ensured {V : Type} (u v : Z) (x : V) (d : Dict.t (Dict.t V)) :
  Dict.mem u d = true -> exists d', set2 u v x d = Ok d' /\
                                    forall k, Dict.mem k d' = Dict.mem k d.
Proof.
  intros Hm. apply mem_true in Hm. destruct Hm as [inner Hg].
  unfold set2. rewrite Hg. simpl. eexists. split; [reflexivity|].
  intros k. rewrite mem_set. destruct (k =? u) eqn:E; [|reflexivity].
  apply Z.eqb_eq in E. subst k. unfold Dict.mem. now rewrite Hg.
Qed.

Lemma residual_edge_total (net : network) (now : Z) (st : rstate) (e : Z) (a : arc) :
  Dict.mem e net = true -> visiting net st ->
  exists st',
    residual_edge now st (e, a) = Ok st' /\ visiting net st' /\
    (length (r_que st') + length (r_visited st)
     = length (r_que st) + length (r_visited st'))%nat.
Proof.
  intros He (Hnd & Hq & Hv). unfold residual_edge.
  set (nr0 := ensure e (ensure now (r_nr st))).
  assert (Dict.mem now nr0 = true) as Hnow.
  { unfold nr0. rewrite !mem_ensure, Z.eqb_refl. apply orb_true_iff. right. reflexivity. }
  assert (Dict.mem e nr0 = true) as Hend.
  { unfold nr0. rewrite !mem_ensure, Z.eqb_refl. reflexivity. }
  assert (exists nr1, (if cap a - flow a >? 0
                       then set2 now e (mkEdge (cap a - flow a) F false) nr0
                       else Ok nr0) = Ok nr1 /\ Dict.mem e nr1 = true)
    as (nr1 & -> & Hend1).
  { destruct (cap a - flow a >? 0); [|eauto].
    destruct (set2_ensured now e (mkEdge (cap a - flow a) F false) nr0 Hnow)
      as (nr1 & H1 & H2).
    exists nr1. split; [exact H1|]. now rewrite H2. }
  simpl.
  assert (exists nr2, (if flow a >? 0
                       then set2 e now (mkEdge (flow a) B false) nr1
                       else Ok nr1) = Ok nr2)
    as (nr2 & ->).
  { destruct (flow a >? 0); [|eauto].
    destruct (set2_ensured e now (mkEdge (flow a) B false) nr1 Hend1) as (nr2 & H1 & _).
    eauto. }
  simpl. eexists. split; [reflexivity|]. simpl.
  destruct (inb e (r_visited st)) eqn:Hin.
  - split; [|lia]. split; [exact Hnd|split; [exact Hq|exact Hv]].
  - apply inb_false in Hin. split.
    + split; [constructor; assumption|]. split.
      * intros x Hx. apply in_app_or in Hx. destruct Hx as [Hx|[<-|[]]].
        -- right. auto.
        -- left. reflexivity.
      * intros x [<-|Hx]; auto.
    + rewrite length_app. simpl. lia.
Qed.

Lemma residual_edges_total (net : network) (now : Z) (arcs : Dict.t arc) :
  forall st,
    (forall e a, In (e, a) arcs -> Dict.mem e net = true) ->
    visiting net st ->
    exists st',
      for_each (residual_edge now) arcs st = Ok st' /\ visiting net st' /\
      (length (r_que st') + length (r_visited st)
       = length (r_que st) + length (r_visited st'))%nat.
Proof.
  induction arcs as [|[e a] arcs IH]; intros st Hheads Hst; cbn [for_each].
  - eexists. split; [reflexivity|]. split; [exact Hst|lia].
  - destruct (residual_edge_total net now st e a) as (st1 & H1 & Hv1 & Hl1);
      [apply (Hheads e a); now left|exact Hst|].
    rewrite H1. cbn [bind].
    destruct (IH st1) as (st2 & H2 & Hv2 & Hl2);
      [intros e' a' Hin; apply (Hheads e' a'); now right|exact Hv1|].
    exists st2. split; [exact H2|]. split; [exact Hv2|lia].
Qed.

Lemma visited_bound (net : network) (st : rstate) :
  visiting net st -> (length (r_visited st) <= length net)%nat.
Proof.
  intros (Hnd & _ & Hv).
  replace (length net) with (length (Dict.keys net))
    by (unfold Dict.keys; apply length_map).
  apply NoDup_incl_length; [exact Hnd|].
  intros x Hx. specialize (Hv x Hx). apply mem_true in Hv. destruct Hv as [arcs Hg].
  apply get_in in Hg. unfold Dict.keys. apply in_map_iff. exists (x, arcs). auto.
Qed.

Lemma residual_loop_total (net : network) :
  all2 (head_is_node net) net ->
  forall fuel st,
    visiting net st ->
    (length (r_que st) + length net <= fuel + length (r_visited st))%nat ->
    exists nr, residual_loop fuel net st = Ok nr.
Proof.
  intros Hclosed. induction fuel as [|fuel IH]; intros st Hst Hfuel.
  - pose proof (visited_bound net st Hst) as Hb. simpl.
    destruct (r_que st); [eauto|simpl in Hfuel; lia].
  - simpl. destruct (r_que st) as [|now que] eqn:Hque; [eauto|].
    destruct Hst as (Hnd & Hq & Hv).
    assert (Dict.mem now net = true) as Hnow.
    { apply Hv, Hq. rewrite Hque. now left. }
    apply mem_true in Hnow. destruct Hnow as [arcs Harcs]. rewrite Harcs. simpl.
    destruct (residual_edges_total net now arcs (mkR (r_nr st) que (r_visited st)))
      as (st' & Hrun & Hst' & Hlen).
    + intros e a Hin. apply get_in in Harcs. exact (Hclosed _ _ _ _ Harcs Hin).
    + split; [exact Hnd|]. split; [|exact Hv].
      intros x Hx. apply Hq. rewrite Hque. now right.
    + rewrite Hrun. simpl. simpl in Hlen. apply IH; [exact Hst'|].
      simpl in Hfuel. lia.
Qed.

(** X17: on a network in which the head of every arc is a node, as in every
    network that [read_network] builds, [build_residual_graph] returns from
    any source that is a node: it raises no [KeyError], and as many
    iterations of its loop as the network has nodes are enough. *)
Theorem build_residual_graph_returns :
  forall fuel source sink net,
    all2 (head_is_node net) net ->
    Dict.mem source net = true ->
    (length net <= fuel)%nat ->
    exists nr, build_residual_graph fuel source sink net = Ok nr.
Proof.
  intros fuel source sink net Hclosed Hsource Hfuel. unfold build_residual_graph.
  apply residual_loop_total; [exact Hclosed| |simpl; lia].
  split; [|split]; simpl.
  - constructor; [intros []|constructor].
  - auto.
  - intros x [<-|[]]. exact Hsource.
Qed.

(** X18: in the network that [read_network] builds the head of every arc is a
    node. *)
Theorem read_network_heads_are_nodes :
  forall records, all2 (head_is_node (read_network records)) (read_network records).
Proof.
  intros records u inner v a Hu Hv. unfold head_is_node.
  destruct (read_network_from records [] sorted2_nil) as (Hs & Hm & Hl).
  fold (read_network records) in Hs, Hm, Hl.
  assert (get2 u v (read_network records) = Some a) as Hg.
  { unfold get2. rewrite (sorted_in_get _ _ _ (proj1 Hs) Hu).
    apply sorted_in_get; [|exact Hv]. exact (proj2 Hs _ _ Hu). }
  rewrite Hl in Hg. rewrite Hm, orb_false_r. clear - Hg.
  induction records as [|[[[u' v'] c] f] records IH]; simpl in *; [discriminate|].
  destruct (last_record u v records) as [a'|].
  - rewrite IH by exact Hg. apply orb_true_r.
  - destruct ((u' =? u) && (v' =? v)) eqn:E; [|discriminate].
    apply andb_true_iff in E. destruct E as [_ E]. rewrite (Z.eqb_sym v v'), E.
    rewrite orb_true_r. reflexivity.
Qed.

Lemma build_residual_graph_returns_witness :
  exists nr, build_residual_graph 4 0 3 scenario_c = Ok nr.
Proof.
  apply (build_residual_graph_returns 4 0 3 scenario_c).
  - intros u inner v a Hin Hin'. vm_compute in Hin.
    repeat (destruct Hin as [Hin|Hin];
            [inversion Hin; subst; clear Hin; simpl in Hin';
             repeat (destruct Hin' as [Hin'|Hin']; [inversion Hin'; reflexivity|]);
             contradiction|]).
    contradiction.
  - reflexivity.
  - vm_compute. lia.
Defined.

(** ** [build_level_graph] returns *)

Lemma closed_ensure (k : Z) (d : graph) :
  all2 (head_is_key d) d -> all2 (head_is_key (ensure k d)) (ensure k d).
Proof.
  intros Hc u inner v ed Hu Hv. unfold head_is_key. rewrite mem_ensure.
  unfold ensure in Hu. destruct (Dict.mem k d).
  - rewrite (Hc _ _ _ _ Hu Hv). apply orb_true_r.
  - destruct (in_set _ _ _ _ Hu) as [E|E].
    + inversion E; subst. destruct Hv.
    + rewrite (Hc _ _ _ _ E Hv). apply orb_true_r.
Qed.

Lemma closed_set2 (u v : Z) (x : edge) (d d' : graph) :
  all2 (head_is_key d) d -> Dict.mem v d = true ->
  set2 u v x d = Ok d' ->
  all2 (head_is_key d') d' /\ forall k, Dict.mem k d' = Dict.mem k d.
Proof.
  intros Hc Hv Hset. unfold set2 in Hset.
  destruct (Dict.get u d) as [inner|] eqn:Hg; simpl in Hset; [|discriminate].
  inv_ok Hset.
  assert (forall k, Dict.mem k (Dict.set u (Dict.set v x inner) d) = Dict.mem k d) as Hm.
  { intros k. rewrite mem_set. destruct (k =? u) eqn:E; [|reflexivity].
    apply Z.eqb_eq in E. subst k. unfold Dict.mem. now rewrite Hg. }
  split; [|exact Hm].
  intros u' inner' v' x' Hu' Hv'. unfold head_is_key. rewrite Hm.
  destruct (in_set _ _ _ _ Hu') as [E|E].
  - inversion E; subst. destruct (in_set _ _ _ _ Hv') as [E'|E'].
    + inversion E'; subst. exact Hv.
    + apply get_in in Hg. exact (Hc _ _ _ _ Hg E').
  - exact (Hc _ _ _ _ E Hv').
Qed.

Lemma residual_edge_closed (net : network) (now e : Z) (a : arc) (st st' : rstate) :
  Dict.mem now net = true -> Dict.mem e net = true ->
  residual_closed net (r_nr st) ->
  residual_edge now st (e, a) = Ok st' ->
  residual_closed net (r_nr st') /\ Dict.mem now (r_nr st') = true /\
  (forall k, Dict.mem k (r_nr st) = true -> Dict.mem k (r_nr st') = true) /\
  ((forall x, In x (r_que st) -> Dict.mem x net = true) ->
   forall x, In x (r_que st') -> Dict.mem x net = true).
Proof.
  intros Hnow He (Hs & Hc & Hk) Hrun. unfold residual_edge in Hrun.
  set (nr0 := ensure e (ensure now (r_nr st))) in *.
  assert (forall k, Dict.mem k nr0 = (k =? e) || ((k =? now) || Dict.mem k (r_nr st)))
    as Hm0 by (intros k; unfold nr0; now rewrite !mem_ensure).
  assert (sorted2 nr0) as Hs0 by (unfold nr0; now do 2 apply sorted2_ensure).
  assert (all2 (head_is_key nr0) nr0) as Hc0 by (unfold nr0; now do 2 apply closed_ensure).
  inv_bind Hrun. inv_bind Hrun. inv_ok Hrun. simpl.
  assert (sorted2 x /\ all2 (head_is_key x) x /\ forall k, Dict.mem k x = Dict.mem k nr0)
    as (Hs1 & Hc1 & Hm1).
  { destruct (cap a - flow a >? 0).
    - destruct (closed_set2 _ _ _ _ _ Hc0 (eq_trans (Hm0 e) ltac:(now rewrite Z.eqb_refl)) Hb)
        as [H1 H2].
      split; [eapply sorted2_set2; eauto|]. split; assumption.
    - inv_ok Hb. auto. }
  assert (sorted2 x0 /\ all2 (head_is_key x0) x0 /\ forall k, Dict.mem k x0 = Dict.mem k nr0)
    as (Hs2 & Hc2 & Hm2).
  { destruct (flow a >? 0).
    - assert (Dict.mem now x = true) as Hn.
      { rewrite Hm1, Hm0, Z.eqb_refl. simpl. apply orb_true_r. }
      destruct (closed_set2 _ _ _ _ _ Hc1 Hn Hb0) as [H1 H2].
      split; [eapply sorted2_set2; eauto|]. split; [assumption|].
      intros k. now rewrite H2.
    - inv_ok Hb0. auto. }
  split; [|split; [|split]].
  - split; [exact Hs2|]. split; [exact Hc2|].
    intros k. rewrite Hm2, Hm0. intros H.
    destruct (k =? e) eqn:E1; [apply Z.eqb_eq in E1; now subst|].
    destruct (k =? now) eqn:E2; [apply Z.eqb_eq in E2; now subst|].
    apply Hk. exact H.
  - rewrite Hm2, Hm0, Z.eqb_refl. simpl. apply orb_true_r.
  - intros k H. rewrite Hm2, Hm0, H. now rewrite !orb_true_r.
  - intros Hq y Hy. destruct (inb e (r_visited st)); [auto|].
    apply in_app_or in Hy. destruct Hy as [Hy|[Hy|[]]]; [auto|now subst].
Qed.

Lemma residual_edges_closed (net : network) (now : Z) (arcs : Dict.t arc) :
  forall st st',
    Dict.mem now net = true ->
    (forall e a, In (e, a) arcs -> Dict.mem e net = true) ->
    residual_closed net (r_nr st) ->
    for_each (residual_edge now) arcs st = Ok st' ->
    residual_closed net (r_nr st') /\
    (arcs <> [] -> Dict.mem now (r_nr st') = true) /\
    (forall k, Dict.mem k (r_nr st) = true -> Dict.mem k (r_nr st') = true) /\
    ((forall x, In x (r_que st) -> Dict.mem x net = true) ->
     forall x, In x (r_que st') -> Dict.mem x net = true).
Proof.
  induction arcs as [|[e a] arcs IH]; intros st st' Hnow Hheads Hst Hrun;
    cbn [for_each] in Hrun.
  - inv_ok Hrun. split; [exact Hst|]. split; [congruence|auto].
  - inv_bind Hrun.
    destruct (residual_edge_closed net now e a st x Hnow (Hheads e a (or_introl eq_refl))
                Hst Hb) as (H1 & H2 & H3 & H7).
    destruct (IH x st' Hnow (fun e' a' H => Hheads e' a' (or_intror H)) H1 Hrun)
      as (H4 & _ & H6 & H8).
    split; [exact H4|]. split; [auto|]. split; auto.
Qed.

Lemma residual_loop_closed (net : network) (k0 : Z) :
  all2 (head_is_node net) net ->
  forall fuel st nr,
    (forall x, In x (r_que st) -> Dict.mem x net = true) ->
    residual_closed net (r_nr st) ->
    residual_loop fuel net st = Ok nr ->
    residual_closed net nr /\
    (Dict.mem k0 (r_nr st) = true -> Dict.mem k0 nr = true).
Proof.
  intros Hclosed. induction fuel as [|fuel IH]; intros st nr Hq Hst Hrun; simpl in Hrun.
  - destruct (r_que st); [inv_ok Hrun; auto|discriminate].
  - destruct (r_que st) as [|now que] eqn:Hque; [inv_ok Hrun; auto|].
    inv_bind Hrun. apply lookup_ok in Hb. inv_bind Hrun.
    assert (forall e a, In (e, a) x -> Dict.mem e net = true) as Hheads.
    { intros e a Hin. apply get_in in Hb. exact (Hclosed _ _ _ _ Hb Hin). }
    destruct (residual_edges_closed net now x (mkR (r_nr st) que (r_visited st)) x0
                (Hq now (or_introl eq_refl)) Hheads Hst Hb0) as (H1 & _ & H3 & H7).
    destruct (IH x0 nr) as [H4 H5]; [|exact H1|exact Hrun|].
    + apply H7. simpl. intros y Hy. apply Hq. now right.
    + split; [exact H4|]. intros H. apply H5, H3. exact H.
Qed.

Lemma build_residual_graph_closed (net : network) (fuel : nat) (source sink : Z)
  (a : Z * arc) (arcs : Dict.t arc) (nr : graph) :
  all2 (head_is_node net) net ->
  Dict.get source net = Some (a :: arcs) ->
  build_residual_graph fuel source sink net = Ok nr ->
  residual_closed net nr /\ Dict.mem source nr = true.
Proof.
  intros Hclosed Hsource Hrun. unfold build_residual_graph in Hrun.
  assert (Dict.mem source net = true) as Hm by (apply mem_true; eauto).
  destruct fuel as [|fuel]; [discriminate|]. cbn [residual_loop r_que] in Hrun.
  rewrite Hsource in Hrun. cbn [lookup bind] in Hrun. inv_bind Hrun.
  destruct (residual_edges_closed net source (a :: arcs) (mkR [] [] [source]) x Hm)
    as (H1 & H2 & _ & H4); [| |exact Hb|].
  - intros e a' Hin. apply get_in in Hsource. exact (Hclosed _ _ _ _ Hsource Hin).
  - split; [apply sorted2_nil|]. split; [apply all2_nil|discriminate].
  - destruct (residual_loop_closed net source Hclosed fuel x nr) as [H5 H6];
      [apply H4; intros ? []|exact H1|exact Hrun|].
    split; [exact H5|]. apply H6, H2. discriminate.
Qed.

Lemma members_bound {V : Type} (d : Dict.t V) (l : list Z) :
  NoDup l -> (forall x, In x l -> Dict.mem x d = true) -> (length l <= length d)%nat.
Proof.
  intros Hnd Hin.
  replace (length d) with (length (Dict.keys d)) by (unfold Dict.keys; apply length_map).
  apply NoDup_incl_length; [exact Hnd|].
  intros x Hx. specialize (Hin x Hx). apply mem_true in Hin. destruct Hin as [v Hg].
  apply get_in in Hg. unfold Dict.keys. apply in_map_iff. exists (x, v). auto.
Qed.

Lemma auxiliary_edge_total (nr : graph) (sink now : Z) (st : astate) (e : Z) (ed : edge) :
  Dict.mem e nr = true -> climbing nr st ->
  Dict.mem now (a_na st) = true -> Dict.mem now (a_vl st) = true ->
  exists st',
    auxiliary_edge sink now st (e, ed) = Ok st' /\ climbing nr st' /\
    Dict.mem now (a_na st') = true /\ Dict.mem now (a_vl st') = true /\
    (length (a_que st') + length (a_visited st)
     = length (a_que st) + length (a_visited st'))%nat.
Proof.
  intros He (Hnd & Hq & Hv & Hl & Hk) Hna Hvl. unfold auxiliary_edge.
  destruct (Dict.mem e (a_vl st) && negb (e =? sink)).
  - exists st. split; [reflexivity|]. split; [repeat split; assumption|]. auto.
  - destruct (set2_ensured now e (mkEdge (ecap ed) (edir ed) false) (a_na st) Hna)
      as (na & Hset & Hmem).
    rewrite Hset. cbn [bind].
    apply mem_true in Hvl. destruct Hvl as [lnow Hlnow]. rewrite Hlnow. cbn [lookup bind].
    eexists. split; [reflexivity|]. cbn [a_na a_que a_vl a_visited].
    assert (forall k, Dict.mem k (a_vl st) = true ->
                      Dict.mem k (Dict.set e (lnow + 1) (a_vl st)) = true) as Hup.
    { intros k H. rewrite mem_set, H. apply orb_true_r. }
    assert (Dict.mem e (Dict.set e (lnow + 1) (a_vl st)) = true) as Hnew
        by (now rewrite mem_set, Z.eqb_refl).
    split; [|split; [now rewrite Hmem|split; [apply Hup, mem_true; eauto|]]].
    + destruct (inb e (a_visited st)) eqn:Hin.
      * split; [exact Hnd|]. split; [exact Hq|]. split; [exact Hv|]. split.
        -- intros x Hx. apply Hup, Hl, Hx.
        -- intros k H. rewrite Hmem in H. apply Hup, Hk, H.
      * apply inb_false in Hin.
        split; [constructor; assumption|]. split; [|split; [|split]].
        -- intros x Hx. apply in_app_or in Hx. destruct Hx as [Hx|[<-|[]]].
           ++ right. auto.
           ++ left. reflexivity.
        -- intros x [<-|Hx]; auto.
        -- intros x Hx. apply in_app_or in Hx. destruct Hx as [Hx|[Hx|[]]].
           ++ apply Hup, Hl, Hx.
           ++ subst x. exact Hnew.
        -- intros k H. rewrite Hmem in H. apply Hup, Hk, H.
    + destruct (inb e (a_visited st)); [lia|]. rewrite length_app. simpl. lia.
Qed.

Lemma auxiliary_edges_total (nr : graph) (sink now : Z) (edges : Dict.t edge) :
  forall st,
    (forall e ed, In (e, ed) edges -> Dict.mem e nr = true) ->
    climbing nr st ->
    Dict.mem now (a_na st) = true -> Dict.mem now (a_vl st) = true ->
    exists st',
      for_each (auxiliary_edge sink now) edges st = Ok st' /\ climbing nr st' /\
      (length (a_que st') + length (a_visited st)
       = length (a_que st) + length (a_visited st'))%nat.
Proof.
  induction edges as [|[e ed] edges IH]; intros st Hheads Hst Hna Hvl; cbn [for_each].
  - eexists. split; [reflexivity|]. split; [exact Hst|lia].
  - destruct (auxiliary_edge_total nr sink now st e ed) as (st1 & H1 & Hc1 & Hn1 & Hv1 & Hl1);
      [apply (Hheads e ed); now left|exact Hst|exact Hna|exact Hvl|].
    rewrite H1. cbn [bind].
    destruct (IH st1) as (st2 & H2 & Hc2 & Hl2);
      [intros e' ed' Hin; apply (Hheads e' ed'); now right|exact Hc1|exact Hn1|exact Hv1|].
    exists st2. split; [exact H2|]. split; [exact Hc2|lia].
Qed.

Lemma auxiliary_loop_total (nr : graph) (sink : Z) :
  all2 (head_is_key nr) nr ->
  forall fuel st,
    climbing nr st ->
    (length (a_que st) + length nr <= fuel + length (a_visited st))%nat ->
    exists st', auxiliary_loop fuel sink nr st = Ok st' /\ climbing nr st'.
Proof.
  intros Hclosed. induction fuel as [|fuel IH]; intros st Hst Hfuel.
  - assert (length (a_visited st) <= length nr)%nat as Hb
        by (apply members_bound; apply Hst).
    simpl. destruct (a_que st); [eauto|simpl in Hfuel; lia].
  - simpl. destruct (a_que st) as [|now que] eqn:Hque; [eauto|].
    destruct Hst as (Hnd & Hq & Hv & Hl & Hk).
    assert (Dict.mem now nr = true) as Hnow.
    { apply Hv, Hq. rewrite Hque. now left. }
    apply mem_true in Hnow. destruct Hnow as [edges Hedges]. rewrite Hedges.
    cbn [lookup bind].
    destruct (auxiliary_edges_total nr sink now edges
                (mkA (Dict.set now [] (a_na st)) que (a_vl st) (a_visited st)))
      as (st' & Hrun & Hst' & Hlen).
    + intros e ed Hin. apply get_in in Hedges. exact (Hclosed _ _ _ _ Hedges Hin).
    + split; [exact Hnd|]. split; [|split; [exact Hv|split]]; cbn [a_que a_na a_vl].
      * intros x Hx. apply Hq. rewrite Hque. now right.
      * intros x Hx. apply Hl. rewrite Hque. now right.
      * intros k H. rewrite mem_set in H. destruct (k =? now) eqn:E.
        -- apply Z.eqb_eq in E. subst k. apply Hl. rewrite Hque. now left.
        -- apply Hk. exact H.
    + cbn [a_na]. now rewrite mem_set, Z.eqb_refl.
    + cbn [a_vl]. apply Hl. rewrite Hque. now left.
    + rewrite Hrun. cbn [bind]. cbn [a_que a_visited] in Hlen.
      apply IH; [exact Hst'|]. simpl in Hfuel. lia.
Qed.

Lemma truncate_total (nr : graph) (sink : Z) (st : astate) :
  climbing nr st -> exists r, truncate sink st = Ok r.
Proof.
  intros (_ & _ & _ & _ & Hk). unfold truncate.
  destruct (Dict.mem sink (a_na st)) eqn:Hs; simpl; [|eauto].
  specialize (Hk _ Hs). apply mem_true in Hk. destruct Hk as [l Hl].
  rewrite Hl. simpl. eauto.
Qed.

(** X19: on a network in which the head of every arc is a node, and from a
    source with at least one outgoing arc, [build_level_graph] returns a
    layered network or [None]; it raises no [KeyError], and as many
    iterations of each traversal as the network has nodes are enough. *)
Theorem build_level_graph_returns :
  forall fuel source sink net a arcs,
    all2 (head_is_node net) net ->
    Dict.get source net = Some (a :: arcs) ->
    (length net <= fuel)%nat ->
    exists r, build_level_graph fuel source sink net = Ok r.
Proof.
  intros fuel source sink net a arcs Hclosed Hsource Hfuel. unfold build_level_graph.
  assert (Dict.mem source net = true) as Hm by (apply mem_true; eauto).
  destruct (residual_loop_total net Hclosed fuel (mkR [] [source] [source])) as [nr Hnr].
  { split; [|split]; simpl.
    - constructor; [intros []|constructor].
    - auto.
    - intros x [<-|[]]. exact Hm. }
  { simpl. lia. }
  fold (build_residual_graph fuel source sink net) in Hnr. rewrite Hnr. cbn [bind].
  destruct (build_residual_graph_closed net fuel source sink a arcs nr Hclosed Hsource Hnr)
    as [(Hs & Hc & Hk) Hsrc].
  assert (length nr <= length net)%nat as Hlen.
  { replace (length nr) with (length (Dict.keys nr))
      by (unfold Dict.keys; apply length_map).
    apply members_bound; [apply sorted_nodup, Hs|].
    intros x Hx. apply Hk. unfold Dict.keys in Hx. apply in_map_iff in Hx.
    destruct Hx as [[k inner] [<- Hin]]. apply mem_true. exists inner.
    apply sorted_in_get; [apply Hs|exact Hin]. }
  unfold build_auxiliary.
  destruct (auxiliary_loop_total nr sink Hc fuel (mkA [] [source] [(source, 0)] [source]))
    as (st & Hst & Hclimb).
  { split; [constructor; [intros []|constructor]|]. split; [auto|]. simpl.
    split; [intros x [<-|[]]; exact Hsrc|]. split.
    - intros x [<-|[]]. unfold Dict.mem. simpl. now rewrite Z.eqb_refl.
    - intros k H. discriminate H. }
  { simpl. lia. }
  rewrite Hst. cbn [bind]. exact (truncate_total nr sink st Hclimb).
Qed.

Lemma build_level_graph_returns_witness :
  exists r, build_level_graph 4 0 3 scenario_c = Ok r.
Proof.
  apply (build_level_graph_returns 4 0 3 scenario_c (1, mkArc 5 0) []).
  - intros u inner v a Hin Hin'. vm_compute in Hin.
    repeat (destruct Hin as [Hin|Hin];
            [inversion Hin; subst; clear Hin; simpl in Hin';
             repeat (destruct Hin' as [Hin'|Hin']; [inversion Hin'; reflexivity|]);
             contradiction|]).
    contradiction.
  - reflexivity.
  - vm_compute. lia.
Defined.

(** ** Source and sink in the layered network *)

Lemma mem_set2 {V : Type} (u v k : Z) (x : V) (d d' : Dict.t (Dict.t V)) :
  set2 u v x d = Ok d' -> Dict.mem k d' = Dict.mem k d.
Proof.
  unfold set2. destruct (Dict.get u d) as [inner|] eqn:Hg; simpl; [|discriminate].
  intros H. inv_ok H. rewrite mem_set. destruct (k =? u) eqn:E; [|reflexivity].
  apply Z.eqb_eq in E. subst k. unfold Dict.mem. now rewrite Hg.
Qed.

Lemma auxiliary_edge_levelled (source sink now : Z) (st st' : astate) (ee : Z * edge) :
  source <> sink ->
  auxiliary_edge sink now st ee = Ok st' ->
  forall k,
    levelled source (a_vl st) /\ Dict.mem k (a_na st) = true ->
    levelled source (a_vl st') /\ Dict.mem k (a_na st') = true.
Proof.
  intros Hne Hrun k [[Hsrc Hlev] Hk]. destruct ee as [e ed].
  unfold auxiliary_edge in Hrun.
  destruct (Dict.mem e (a_vl st) && negb (e =? sink)) eqn:Hskip;
    [inv_ok Hrun; split; [split; assumption|assumption]|].
  inv_bind Hrun. inv_bind Hrun. apply lookup_ok in Hb0. inv_ok Hrun. simpl.
  split; [|now rewrite (mem_set2 _ _ k _ _ _ Hb)].
  assert (e <> source) as He.
  { intros ->. rewrite Hsrc in Hskip. simpl in Hskip.
    apply negb_false_iff, Z.eqb_eq in Hskip. contradiction. }
  split; [rewrite mem_set, Hsrc; apply orb_true_r|].
  intros k' l Hin. destruct (in_set _ _ _ _ Hin) as [E|E].
  - inversion E; subst. split; [contradiction|]. intros _.
    apply get_in in Hb0. destruct (Hlev _ _ Hb0) as [H0 H1].
    destruct (Z.eq_dec now source) as [Hn|Hn]; [specialize (H0 Hn)|specialize (H1 Hn)]; lia.
  - exact (Hlev _ _ E).
Qed.

Lemma auxiliary_loop_levelled (source sink : Z) (nr : graph) (k : Z) :
  source <> sink ->
  forall fuel st st',
    levelled source (a_vl st) /\ Dict.mem k (a_na st) = true ->
    auxiliary_loop fuel sink nr st = Ok st' ->
    levelled source (a_vl st') /\ Dict.mem k (a_na st') = true.
Proof.
  intros Hne. induction fuel as [|fuel IH]; intros st st' Hst Hrun; simpl in Hrun.
  - destruct (a_que st); [now inv_ok Hrun|discriminate].
  - destruct (a_que st) as [|now que]; [now inv_ok Hrun|].
    inv_bind Hrun. inv_bind Hrun. apply (IH x0); [|exact Hrun].
    revert Hb0.
    apply (for_each_inv
             (fun s => levelled source (a_vl s) /\ Dict.mem k (a_na s) = true)).
    + intros s ee s' _ Hs Hstep. exact (auxiliary_edge_levelled _ _ _ _ _ _ Hne Hstep k Hs).
    + simpl. split; [apply Hst|]. rewrite mem_set. destruct Hst as [_ ->].
      apply orb_true_r.
Qed.

Lemma mem_delete_nodes (k : Z) (nodes : list Z) :
  forall g : graph,
    ~ In k nodes ->
    Dict.mem k (fold_left (fun na node => delete_node node na) nodes g) = Dict.mem k g.
Proof.
  induction nodes as [|n nodes IH]; intros g Hk; simpl; [reflexivity|].
  rewrite IH by (intros H; apply Hk; now right).
  apply mem_delete_node. intros ->. apply Hk. now left.
Qed.

(** X20: the layered network that [build_auxiliary] returns holds the sink and,
    when source and sink differ, the source: the source keeps level 0, the
    sink has a level of at least 1, and only nodes at or above the level of
    the sink are removed. *)
Theorem build_auxiliary_keeps_the_ends :
  forall fuel source sink nr aux,
    source <> sink ->
    build_auxiliary fuel source sink nr = Ok (Some aux) ->
    Dict.mem source aux = true /\ Dict.mem sink aux = true.
Proof.
  intros fuel source sink nr aux Hne Hrun. unfold build_auxiliary in Hrun.
  inv_bind Hrun.
  assert (levelled source (a_vl x) /\ Dict.mem source (a_na x) = true) as [[Hsrc Hlev] Hna].
  { destruct fuel as [|fuel]; [discriminate|]. cbn [auxiliary_loop a_que] in Hb.
    inv_bind Hb. inv_bind Hb.
    apply (auxiliary_loop_levelled source sink nr source Hne fuel x1 x); [|exact Hb].
    revert Hb1.
    apply (for_each_inv
             (fun s => levelled source (a_vl s) /\ Dict.mem source (a_na s) = true)).
    - intros s ee s' _ Hs Hstep.
      exact (auxiliary_edge_levelled _ _ _ _ _ _ Hne Hstep source Hs).
    - simpl. unfold levelled, Dict.mem. simpl. rewrite Z.eqb_refl.
      split; [|reflexivity]. split; [reflexivity|].
      intros k l [E|[]]. inversion E; subst. split; [reflexivity|contradiction]. }
  unfold truncate in Hrun.
  destruct (Dict.mem sink (a_na x)) eqn:Hsink; simpl in Hrun; [|discriminate].
  inv_bind Hrun. apply lookup_ok in Hb0.
  destruct (existsb _ (a_vl x)); inv_ok Hrun.
  assert (1 <= x0) as Hlevel.
  { apply get_in in Hb0. apply (Hlev _ _ Hb0). congruence. }
  split.
  - rewrite mem_delete_nodes; [exact Hna|].
    unfold beyond. intros Hin. apply in_map_iff in Hin.
    destruct Hin as [[k l] [Hk Hin]]. simpl in Hk. subst k.
    apply filter_In in Hin. destruct Hin as [Hin Hc]. simpl in Hc.
    apply andb_true_iff in Hc. destruct Hc as [Hc _].
    destruct (Hlev _ _ Hin) as [H0 _]. specialize (H0 eq_refl). lia.
  - rewrite mem_delete_nodes; [exact Hsink|].
    unfold beyond. intros Hin. apply in_map_iff in Hin.
    destruct Hin as [[k l] [Hk Hin]]. simpl in Hk. subst k.
    apply filter_In in Hin. destruct Hin as [_ Hc]. simpl in Hc.
    apply andb_true_iff in Hc. destruct Hc as [_ Hc].
    rewrite Z.eqb_refl in Hc. discriminate.
Qed.

Lemma build_auxiliary_keeps_the_ends_witness :
  Dict.mem 0 chain_aux = true /\ Dict.mem 3 chain_aux = true.
Proof.
  apply (build_auxiliary_keeps_the_ends 5 0 3 chain_aux chain_aux).
  - discriminate.
  - vm_compute. reflexivity.
Defined.
